(** * Chit-Chat: the end-to-end encryption core

    A shallow embedding of the client-side cryptography of Chit-Chat
    ([src/lib/crypto]: [constants.ts], [utils.ts], [keys.ts], [ecdh.ts],
    [aes-gcm.ts], and the session facade and the self test of [index.ts])
    together with the theorems that settle the properties stated about
    it.

    Layout.
    - [JS]: the host language: strings as UTF-16 code units, the string
      operations the code uses, [TextEncoder]/[TextDecoder] (WHATWG Encoding
      Standard, UTF-8) and [btoa]/[atob] (WHATWG forgiving base64).
    - [WebCrypto]: the platform's cryptography.  The block cipher mode, the
      curve and SHA-256 are operations of a [Platform] record with their
      functional laws; HMAC (FIPS 198-1), HKDF (RFC 5869) and PBKDF2
      (RFC 8018) are written out over the platform's SHA-256.  Effects
      (the random source, the clock, failures, the sequence of platform
      calls) live in the monad [Js].
    - [Constants], [Utils], [AesGcm], [Ecdh], [Keys], [Index]: the source
      files, function by function.
    - [Toy], [Plain]: two small executable platforms used to run the code
      on concrete inputs.
    - the theorems. *)

From Stdlib Require Import Strings.Byte Strings.String Strings.Ascii.
From Stdlib Require Import DecimalString DecimalN DecimalFacts.
From Stdlib Require Import NArith ZArith ZifyN Lia Bool Arith List.
Import ListNotations.

Local Open Scope N_scope.

(** A byte array ([Uint8Array], or an [ArrayBuffer] seen through one). *)
Definition bytes := list byte.

Definition b2n (b : byte) : N := Byte.to_N b.

(** Storing a number into a [Uint8Array] keeps it modulo 256. *)
Definition n2b (n : N) : byte :=
  match Byte.of_N (n mod 256) with
  | Some b => b
  | None => x00
  end.

(* ================================================================== *)
(** * The host language *)

Module JS.

(** A JavaScript string is a sequence of UTF-16 code units. *)
Definition code_unit := N.
Definition jsstring := list code_unit.

(** A string literal of the source (ASCII only). *)
Definition lit (s : string) : jsstring :=
  map N_of_ascii (list_ascii_of_string s).

(** [a < b] on strings: lexicographic on code units, a proper prefix is
    smaller (ECMAScript IsLessThan on two strings). *)
Fixpoint string_lt (a b : jsstring) : bool :=
  match a, b with
  | _, [] => false
  | [], _ :: _ => true
  | x :: a', y :: b' =>
      if x <? y then true
      else if y <? x then false
      else string_lt a' b'
  end.

(** [a === b] on strings. *)
Fixpoint string_eqb (a b : jsstring) : bool :=
  match a, b with
  | [], [] => true
  | x :: a', y :: b' => (x =? y) && string_eqb a' b'
  | _, _ => false
  end.

(** [s.slice(i, j)] and [s.substring(i, j)] for [0 <= i <= j]: both clamp
    to the length of [s]. *)
Definition slice (s : jsstring) (i j : nat) : jsstring :=
  firstn (j - i) (skipn i s).

Definition substring (s : jsstring) (i j : nat) : jsstring := slice s i j.

(** [s.toUpperCase()] on the ASCII letters; the code applies it to
    hexadecimal text only. *)
Definition upper_unit (c : code_unit) : code_unit :=
  if (97 <=? c) && (c <=? 122) then c - 32 else c.

Definition toUpperCase (s : jsstring) : jsstring := map upper_unit s.

(** [s.padStart(n, '0')]. *)
Definition padStart0 (n : nat) (s : jsstring) : jsstring :=
  repeat 48 (n - length s) ++ s.

(** One digit of [Number.prototype.toString(16)]. *)
Definition hex_digit (d : N) : code_unit :=
  if d <? 10 then 48 + d else 87 + d.

(** [n.toString(16)] for [n < 256], the range of a [Uint8Array] element. *)
Definition toString16 (n : N) : jsstring :=
  if n <? 16 then [hex_digit n] else [hex_digit (n / 16); hex_digit (n mod 16)].

(** [String(n)], as in a template literal, for a non-negative integer below
    2^53 (every [Date.now()] reading): the decimal digits. *)
Definition number_toString (n : N) : jsstring :=
  lit (NilZero.string_of_uint (N.to_uint n)).

(** ** TextEncoder: string to UTF-8 *)

Definition is_lead (c : code_unit) : bool := (0xD800 <=? c) && (c <=? 0xDBFF).
Definition is_trail (c : code_unit) : bool := (0xDC00 <=? c) && (c <=? 0xDFFF).

(** Conversion to scalar values (Web IDL USVString): a surrogate pair is one
    scalar value, a lone surrogate becomes U+FFFD. *)
Fixpoint to_scalars (s : jsstring) : list N :=
  match s with
  | [] => []
  | c :: rest =>
      if is_lead c then
        match rest with
        | d :: rest' =>
            if is_trail d
            then (0x10000 + (c - 0xD800) * 1024 + (d - 0xDC00)) :: to_scalars rest'
            else 0xFFFD :: to_scalars rest
        | [] => [0xFFFD]
        end
      else if is_trail c then 0xFFFD :: to_scalars rest
      else c :: to_scalars rest
  end.

(** The UTF-8 encoder of the Encoding Standard, one scalar value. *)
Definition utf8_encode_scalar (cp : N) : bytes :=
  if cp <? 0x80 then [n2b cp]
  else if cp <? 0x800 then
    [n2b (N.lor 0xC0 (N.shiftr cp 6)); n2b (N.lor 0x80 (N.land cp 0x3F))]
  else if cp <? 0x10000 then
    [n2b (N.lor 0xE0 (N.shiftr cp 12));
     n2b (N.lor 0x80 (N.land (N.shiftr cp 6) 0x3F));
     n2b (N.lor 0x80 (N.land cp 0x3F))]
  else
    [n2b (N.lor 0xF0 (N.shiftr cp 18));
     n2b (N.lor 0x80 (N.land (N.shiftr cp 12) 0x3F));
     n2b (N.lor 0x80 (N.land (N.shiftr cp 6) 0x3F));
     n2b (N.lor 0x80 (N.land cp 0x3F))].

Definition utf8_encode (scalars : list N) : bytes :=
  flat_map utf8_encode_scalar scalars.

(** [new TextEncoder().encode(s)]. *)
Definition TextEncoder_encode (s : jsstring) : bytes :=
  utf8_encode (to_scalars s).

(** ** TextDecoder: UTF-8 to string *)

(** The state of the UTF-8 decoder of the Encoding Standard. *)
Record utf8_state := {
  code_point : N;
  bytes_seen : N;
  bytes_needed : N;
  lower_boundary : N;
  upper_boundary : N
}.

Definition utf8_init : utf8_state :=
  {| code_point := 0; bytes_seen := 0; bytes_needed := 0;
     lower_boundary := 0x80; upper_boundary := 0xBF |}.

(** A byte met while no sequence is open: the scalar values emitted and the
    next state. *)
Definition utf8_lead (b : N) : list N * utf8_state :=
  if b <=? 0x7F then ([b], utf8_init)
  else if (0xC2 <=? b) && (b <=? 0xDF) then
    ([], {| code_point := N.land b 0x1F; bytes_seen := 0; bytes_needed := 1;
            lower_boundary := 0x80; upper_boundary := 0xBF |})
  else if (0xE0 <=? b) && (b <=? 0xEF) then
    ([], {| code_point := N.land b 0xF; bytes_seen := 0; bytes_needed := 2;
            lower_boundary := if b =? 0xE0 then 0xA0 else 0x80;
            upper_boundary := if b =? 0xED then 0x9F else 0xBF |})
  else if (0xF0 <=? b) && (b <=? 0xF4) then
    ([], {| code_point := N.land b 0x7; bytes_seen := 0; bytes_needed := 3;
            lower_boundary := if b =? 0xF0 then 0x90 else 0x80;
            upper_boundary := if b =? 0xF4 then 0x8F else 0xBF |})
  else ([0xFFFD], utf8_init).

(** One byte through the decoder's handler.  A byte outside the boundaries
    closes the open sequence with U+FFFD and is handled again from the
    initial state. *)
Definition utf8_step (st : utf8_state) (b : N) : list N * utf8_state :=
  if bytes_needed st =? 0 then utf8_lead b
  else if negb ((lower_boundary st <=? b) && (b <=? upper_boundary st)) then
    let (out, st') := utf8_lead b in (0xFFFD :: out, st')
  else
    let cp := N.lor (N.shiftl (code_point st) 6) (N.land b 0x3F) in
    let seen := bytes_seen st + 1 in
    if seen =? bytes_needed st then ([cp], utf8_init)
    else ([], {| code_point := cp; bytes_seen := seen;
                 bytes_needed := bytes_needed st;
                 lower_boundary := 0x80; upper_boundary := 0xBF |}).

Fixpoint utf8_run (st : utf8_state) (bs : bytes) : list N :=
  match bs with
  | [] => if bytes_needed st =? 0 then [] else [0xFFFD]
  | b :: rest =>
      let (out, st') := utf8_step st (b2n b) in out ++ utf8_run st' rest
  end.

Definition utf8_decode (bs : bytes) : list N := utf8_run utf8_init bs.

(** Scalar values back to code units. *)
Definition from_scalar (cp : N) : jsstring :=
  if cp <? 0x10000 then [cp]
  else [0xD800 + (cp - 0x10000) / 1024; 0xDC00 + (cp - 0x10000) mod 1024].

Definition from_scalars (l : list N) : jsstring := flat_map from_scalar l.

(** Serialising the decoder's output: with the default [ignoreBOM = false]
    a leading U+FEFF is not appended to the result. *)
Definition strip_bom (l : list N) : list N :=
  match l with
  | 0xFEFF :: rest => rest
  | _ => l
  end.

(** [new TextDecoder().decode(bs)]: UTF-8, not fatal, [ignoreBOM] false. *)
Definition TextDecoder_decode (bs : bytes) : jsstring :=
  from_scalars (strip_bom (utf8_decode bs)).

(** A string whose surrogates are all paired, with code units below 2^16;
    these are the strings that have a UTF-8 form of their own. *)
Fixpoint well_formed (s : jsstring) : bool :=
  match s with
  | [] => true
  | c :: rest =>
      if is_lead c then
        match rest with
        | d :: rest' => is_trail d && well_formed rest'
        | [] => false
        end
      else negb (is_trail c) && (c <? 0x10000) && well_formed rest
  end.

(** ** btoa and atob *)

(** The base64 alphabet. *)
Definition b64_char (v : N) : code_unit :=
  if v <? 26 then 65 + v
  else if v <? 52 then 97 + (v - 26)
  else if v <? 62 then 48 + (v - 52)
  else if v =? 62 then 43
  else 47.

Definition b64_value (c : code_unit) : option N :=
  if (65 <=? c) && (c <=? 90) then Some (c - 65)
  else if (97 <=? c) && (c <=? 122) then Some (c - 97 + 26)
  else if (48 <=? c) && (c <=? 57) then Some (c - 48 + 52)
  else if c =? 43 then Some 62
  else if c =? 47 then Some 63
  else None.

Definition pad_char : code_unit := 61.

Fixpoint b64_encode (l : list N) : jsstring :=
  match l with
  | [] => []
  | [a] =>
      [b64_char (a / 4); b64_char ((a mod 4) * 16); pad_char; pad_char]
  | [a; b] =>
      [b64_char (a / 4); b64_char ((a mod 4) * 16 + b / 16);
       b64_char ((b mod 16) * 4); pad_char]
  | a :: b :: c :: rest =>
      b64_char (a / 4) :: b64_char ((a mod 4) * 16 + b / 16)
      :: b64_char ((b mod 16) * 4 + c / 64) :: b64_char (c mod 64)
      :: b64_encode rest
  end.

(** [btoa(s)]: [None] is the InvalidCharacterError thrown for a code unit
    above 0xFF. *)
Definition btoa (s : jsstring) : option jsstring :=
  if forallb (fun c => c <=? 0xFF) s then Some (b64_encode s) else None.

Definition is_ascii_whitespace (c : code_unit) : bool :=
  (c =? 9) || (c =? 10) || (c =? 12) || (c =? 13) || (c =? 32).

(** Step 2 of forgiving-base64 decode: when the length is a multiple of
    four, one or two trailing [=] are removed. *)
Definition strip_padding (s : jsstring) : jsstring :=
  if (length s mod 4 =? 0)%nat then
    match rev s with
    | c1 :: r1 =>
        if c1 =? pad_char then
          match r1 with
          | c2 :: r2 => if c2 =? pad_char then rev r2 else rev r1
          | [] => rev r1
          end
        else s
    | [] => s
    end
  else s.

(** The sextets of the data, or [None] for a code unit outside the
    alphabet. *)
Fixpoint b64_values (s : jsstring) : option (list N) :=
  match s with
  | [] => Some []
  | c :: rest =>
      match b64_value c, b64_values rest with
      | Some v, Some vs => Some (v :: vs)
      | _, _ => None
      end
  end.

(** The bit buffer: four sextets give three bytes; a rest of two sextets
    gives one byte and a rest of three gives two, the spare bits dropped. *)
Fixpoint b64_groups (vs : list N) : list N :=
  match vs with
  | v0 :: v1 :: v2 :: v3 :: rest =>
      (v0 * 4 + v1 / 16) :: ((v1 mod 16) * 16 + v2 / 4)
      :: ((v2 mod 4) * 64 + v3) :: b64_groups rest
  | [v0; v1; v2] => [v0 * 4 + v1 / 16; (v1 mod 16) * 16 + v2 / 4]
  | [v0; v1] => [v0 * 4 + v1 / 16]
  | _ => []
  end.

(** [atob(s)], the forgiving base64 decoder; [None] is the
    InvalidCharacterError. *)
Definition atob (s : jsstring) : option jsstring :=
  let data := strip_padding (filter (fun c => negb (is_ascii_whitespace c)) s) in
  if (length data mod 4 =? 1)%nat then None
  else option_map b64_groups (b64_values data).

(** ** parseInt(s, 16) and stores into a Uint8Array *)

(** StrWhiteSpaceChar: white space and line terminators. *)
Definition is_white_space (c : code_unit) : bool :=
  (c =? 0x9) || (c =? 0xB) || (c =? 0xC) || (c =? 0x20) || (c =? 0xA0)
  || (c =? 0xFEFF) || (c =? 0x1680) || ((0x2000 <=? c) && (c <=? 0x200A))
  || (c =? 0x202F) || (c =? 0x205F) || (c =? 0x3000)
  || (c =? 0xA) || (c =? 0xD) || (c =? 0x2028) || (c =? 0x2029).

Fixpoint trim_start (s : jsstring) : jsstring :=
  match s with
  | c :: rest => if is_white_space c then trim_start rest else s
  | [] => []
  end.

Definition hex_value (c : code_unit) : option N :=
  if (48 <=? c) && (c <=? 57) then Some (c - 48)
  else if (97 <=? c) && (c <=? 102) then Some (c - 87)
  else if (65 <=? c) && (c <=? 70) then Some (c - 55)
  else None.

(** The value of the longest prefix of hexadecimal digits; [None] when
    there is no digit at all. *)
Fixpoint hex_prefix (s : jsstring) (acc : N) (seen : bool) : option N :=
  match s with
  | c :: rest =>
      match hex_value c with
      | Some d => hex_prefix rest (acc * 16 + d) true
      | None => if seen then Some acc else None
      end
  | [] => if seen then Some acc else None
  end.

Definition strip_sign (s : jsstring) : Z * jsstring :=
  match s with
  | c :: rest =>
      if c =? 45 then ((-1)%Z, rest)
      else if c =? 43 then (1%Z, rest)
      else (1%Z, s)
  | [] => (1%Z, s)
  end.

Definition strip_0x (s : jsstring) : jsstring :=
  match s with
  | c :: x :: rest =>
      if (c =? 48) && ((x =? 120) || (x =? 88)) then rest else s
  | _ => s
  end.

(** [parseInt(s, 16)]; [None] is NaN.  Exact for the short strings the code
    passes (a long digit string would be rounded to a double). *)
Definition parseInt16 (s : jsstring) : option Z :=
  let (sign, s1) := strip_sign (trim_start s) in
  option_map (fun v => (sign * Z.of_N v)%Z) (hex_prefix (strip_0x s1) 0 false).

(** The byte a [Uint8Array] keeps of a stored number: NaN gives 0, an
    integer is taken modulo 256. *)
Definition to_uint8 (v : option Z) : byte :=
  match v with
  | Some z => n2b (Z.to_N (z mod 256))
  | None => x00
  end.

(** [bytes[i] = v]: a store outside the array does nothing. *)
Definition array_store (bs : bytes) (i : nat) (v : byte) : bytes :=
  if (i <? length bs)%nat then firstn i bs ++ v :: skipn (S i) bs else bs.

(** [target.set(source, offset)] for a source that fits. *)
Definition typed_set (target source : bytes) (offset : nat) : bytes :=
  firstn offset target ++ source ++ skipn (offset + length source) target.

(** ** s.replace(search, replacement) with two strings *)

Fixpoint starts_with (s p : jsstring) : bool :=
  match p, s with
  | [], _ => true
  | x :: p', y :: s' => (x =? y) && starts_with s' p'
  | _ :: _, [] => false
  end.

(** The first position at which [p] occurs in [s]. *)
Fixpoint index_of (s p : jsstring) : option nat :=
  if starts_with s p then Some O
  else match s with
       | _ :: s' => option_map S (index_of s' p)
       | [] => None
       end.

(** GetSubstitution without captures: [$$] is a dollar sign, [$&] the
    match, [$`] the text before it, [$'] the text after it; any other
    dollar sign stands for itself. *)
Fixpoint substitute (matched before after template : jsstring) : jsstring :=
  match template with
  | [] => []
  | c :: rest =>
      if c =? 36 then
        match rest with
        | d :: rest' =>
            if d =? 36 then 36 :: substitute matched before after rest'
            else if d =? 38 then matched ++ substitute matched before after rest'
            else if d =? 96 then before ++ substitute matched before after rest'
            else if d =? 39 then after ++ substitute matched before after rest'
            else 36 :: substitute matched before after rest
        | [] => [36]
        end
      else c :: substitute matched before after rest
  end.

Definition replace (s search replacement : jsstring) : jsstring :=
  match index_of s search with
  | None => s
  | Some p =>
      let before := firstn p s in
      let after := skipn (p + length search) s in
      before ++ substitute search before after replacement ++ after
  end.

(** ** Typed arrays *)

(** A [Uint8Array] is a window on an [ArrayBuffer]: [byteLength] bytes of
    [buffer] from [byteOffset] on.  Where the code only reads the elements
    of an array, the model passes those bytes ([bytes]); where the code
    reads [.buffer], the whole underlying buffer, the model takes the array
    as such. *)
Record Uint8Array := {
  buffer : bytes;
  byteOffset : nat;
  byteLength : nat
}.

(** The bytes seen through the window. *)
Definition elements (a : Uint8Array) : bytes :=
  firstn (byteLength a) (skipn (byteOffset a) (buffer a)).

(** An array that owns its buffer: [new Uint8Array(n)],
    [new TextEncoder().encode(s)], [array.slice(...)]. *)
Definition fresh (bs : bytes) : Uint8Array :=
  {| buffer := bs; byteOffset := 0; byteLength := length bs |}.

(** [a.subarray(i, j)] for [0 <= i <= j]: a narrower window on the same
    buffer. *)
Definition subarray (a : Uint8Array) (i j : nat) : Uint8Array :=
  let i' := Nat.min i (byteLength a) in
  let j' := Nat.min j (byteLength a) in
  {| buffer := buffer a; byteOffset := (byteOffset a + i')%nat;
     byteLength := (j' - i')%nat |}.

End JS.

(* ================================================================== *)
(** * The platform's cryptography and the effects of the code *)

Module WebCrypto.
Import JS.

(** The exceptions the code can meet.  [OperationError] is what
    [crypto.subtle.decrypt] throws when the authentication tag does not
    verify: the code has no error type of its own, so this is the
    authentication failure its callers see. *)
Inductive JsError :=
| InvalidCharacterError   (* atob / btoa *)
| OperationError          (* subtle.decrypt: tag check failed *)
| DataError               (* subtle.importKey: not a valid key *)
| SyntaxError.            (* JSON.parse *)

Definition AuthenticationFailure : JsError := OperationError.

(** The primitives taken from the platform.  A symmetric key is its raw
    key bytes; the two halves of a P-256 key pair have types of their own,
    as does a parsed JSON value. *)
Record Platform := {
  PrivateKey : Type;
  PublicKey : Type;
  Json : Type;
  (* ECDH on P-256 *)
  keygen : bytes -> PrivateKey;
  public_of : PrivateKey -> PublicKey;
  ecdh_bits : PrivateKey -> PublicKey -> bytes;
  export_raw : PublicKey -> bytes;
  import_raw : bytes -> option PublicKey;
  export_jwk : PrivateKey -> Json;
  import_jwk : Json -> option PrivateKey;
  (* JSON *)
  json_stringify : Json -> jsstring;
  json_parse : jsstring -> option Json;
  (* SHA-256 *)
  sha256 : bytes -> bytes;
  (* AES-GCM: key, iv, additional data, tag length in bits, data *)
  gcm_encrypt : bytes -> bytes -> bytes -> N -> bytes -> bytes;
  gcm_decrypt : bytes -> bytes -> bytes -> N -> bytes -> option bytes
}.

(** What the code relies on: the functional correctness of the
    primitives.  Nothing here speaks of secrecy or unforgeability. *)
Record Laws (P : Platform) : Prop := {
  ecdh_agree : forall a b : PrivateKey P,
      ecdh_bits P a (public_of P b) = ecdh_bits P b (public_of P a);
  raw_roundtrip : forall pk : PublicKey P,
      import_raw P (export_raw P pk) = Some pk;
  jwk_roundtrip : forall sk : PrivateKey P,
      import_jwk P (export_jwk P sk) = Some sk;
  json_roundtrip : forall j : Json P,
      json_parse P (json_stringify P j) = Some j;
  json_text : forall j : Json P,
      well_formed (json_stringify P j) = true /\
      hd 0 (json_stringify P j) <> 0xFEFF;
  sha256_length : forall m, length (sha256 P m) = 32%nat;
  gcm_correct : forall k iv aad t pt,
      gcm_decrypt P k iv aad t (gcm_encrypt P k iv aad t pt) = Some pt;
  gcm_length : forall k iv aad t pt,
      length (gcm_encrypt P k iv aad t pt) = (length pt + N.to_nat (t / 8))%nat
}.

Section Constructions.
Variable P : Platform.

(** ** HMAC-SHA-256 (FIPS 198-1) *)

Definition xor_with (c : N) (l : bytes) : bytes :=
  map (fun b => n2b (N.lxor (b2n b) c)) l.

(** Steps 1 to 3: a key longer than the 64-byte block is hashed first; the
    key is then padded with zero bytes to the block size. *)
Definition hmac_key_block (K : bytes) : bytes :=
  let K' := if (length K <=? 64)%nat then K else sha256 P K in
  K' ++ repeat x00 (64 - length K').

Definition hmac (K m : bytes) : bytes :=
  let K0 := hmac_key_block K in
  sha256 P (xor_with 0x5c K0 ++ sha256 P (xor_with 0x36 K0 ++ m)).

(** ** HKDF (RFC 5869) *)

Definition hkdf_extract (salt ikm : bytes) : bytes := hmac salt ikm.

Fixpoint hkdf_blocks (prk info prev : bytes) (i : N) (n : nat) : bytes :=
  match n with
  | O => []
  | S n' =>
      let t := hmac prk (prev ++ info ++ [n2b i]) in
      t ++ hkdf_blocks prk info t (i + 1) n'
  end.

Definition hkdf_expand (prk info : bytes) (len : nat) : bytes :=
  firstn len (hkdf_blocks prk info [] 1 ((len + 31) / 32)).

Definition hkdf (ikm salt info : bytes) (len : nat) : bytes :=
  hkdf_expand (hkdf_extract salt ikm) info len.

(** ** PBKDF2 with HMAC-SHA-256 (RFC 8018, 5.2) *)

Definition xor_bytes (a b : bytes) : bytes :=
  map (fun p => n2b (N.lxor (b2n (fst p)) (b2n (snd p)))) (combine a b).

Definition int32_be (i : N) : bytes :=
  [n2b (i / 16777216); n2b (i / 65536); n2b (i / 256); n2b i].

(** One round: the next U and the running exclusive-or. *)
Definition pbkdf2_round (prf : bytes -> bytes) (st : bytes * bytes) : bytes * bytes :=
  let u := prf (fst st) in (u, xor_bytes (snd st) u).

(** F(P, S, c, i) for [c >= 1]. *)
Definition pbkdf2_F (prf : bytes -> bytes) (salt : bytes) (c i : N) : bytes :=
  let u1 := prf (salt ++ int32_be i) in
  snd (N.iter (c - 1) (pbkdf2_round prf) (u1, u1)).

Fixpoint pbkdf2_blocks (prf : bytes -> bytes) (salt : bytes) (c i : N) (n : nat) : bytes :=
  match n with
  | O => []
  | S n' => pbkdf2_F prf salt c i ++ pbkdf2_blocks prf salt c (i + 1) n'
  end.

Definition pbkdf2 (password salt : bytes) (c : N) (len : nat) : bytes :=
  firstn len (pbkdf2_blocks (hmac password) salt c 1 ((len + 31) / 32)).

(** ** Effects *)

(** The platform calls a run has made, oldest first. *)
Inductive Call :=
| CallGetRandomValues (n : nat)
| CallDateNow (reading : N)
| CallGenerateKey
| CallDeriveBits (sk : PrivateKey P) (pk : PublicKey P)
| CallHKDF (ikm salt info : bytes)
| CallPBKDF2 (password salt : bytes) (iterations : N)
| CallEncrypt (key iv aad : bytes) (tagLength : N) (data : bytes)
| CallDecrypt (key iv aad : bytes) (tagLength : N) (data : bytes).

(** The world a run sees: the bytes the secure random source delivers and
    how many were drawn, the successive readings of the clock and how many
    were taken, and the calls made so far. *)
Record World := {
  random : nat -> byte;
  drawn : nat;
  clock : nat -> N;
  ticks : nat;
  calls : list Call
}.

Inductive Outcome (A : Type) :=
| Return (a : A)
| Throw (e : JsError).
Arguments Return {A} a.
Arguments Throw {A} e.

(** A computation: an [async] function body run to completion.  Every
    [await] in the code is sequential, so a promise is its outcome. *)
Definition Js (A : Type) := World -> Outcome A * World.

Definition ret {A : Type} (a : A) : Js A := fun w => (Return a, w).

Definition throw {A : Type} (e : JsError) : Js A := fun w => (Throw e, w).

Definition bind {A B : Type} (c : Js A) (k : A -> Js B) : Js B :=
  fun w =>
    match c w with
    | (Return a, w') => k a w'
    | (Throw e, w') => (Throw e, w')
    end.

Definition or_throw {A : Type} (e : JsError) (o : option A) : Js A :=
  match o with
  | Some a => ret a
  | None => throw e
  end.

Definition log (c : Call) : Js unit :=
  fun w => (Return tt,
            {| random := random w; drawn := drawn w; clock := clock w;
               ticks := ticks w; calls := calls w ++ [c] |}).

End Constructions.

Arguments Return {A} a.
Arguments Throw {A} e.
Arguments CallGetRandomValues {P} n.
Arguments CallDateNow {P} reading.
Arguments CallGenerateKey {P}.
Arguments CallDeriveBits {P} sk pk.
Arguments CallHKDF {P} ikm salt info.
Arguments CallPBKDF2 {P} password salt iterations.
Arguments CallEncrypt {P} key iv aad tagLength data.
Arguments CallDecrypt {P} key iv aad tagLength data.
Arguments random {P} w.
Arguments drawn {P} w.
Arguments clock {P} w.
Arguments ticks {P} w.
Arguments calls {P} w.
Arguments log {P} c.
Arguments ret {P A} a.
Arguments throw {P A} e.
Arguments bind {P A B} c k.
Arguments or_throw {P A} e o.

Declare Scope js_scope.
Delimit Scope js_scope with js.
Notation "x <- c ;; k" := (bind c (fun x => k))
  (at level 61, c at next level, right associativity) : js_scope.
Notation "c ;;; k" := (bind c (fun _ => k))
  (at level 61, right associativity) : js_scope.

Section Calls.
Variable P : Platform.
Local Open Scope js_scope.

(** [crypto.getRandomValues] on a fresh array of [n] bytes. *)
Definition getRandomValues (n : nat) : Js P bytes :=
  fun w =>
    (Return (map (random w) (seq (drawn w) n)),
     {| random := random w; drawn := (drawn w + n)%nat; clock := clock w;
        ticks := ticks w; calls := calls w ++ [CallGetRandomValues n] |}).

(** [Date.now()]. *)
Definition Date_now : Js P N :=
  fun w =>
    let t := clock w (ticks w) in
    (Return t,
     {| random := random w; drawn := drawn w; clock := clock w;
        ticks := S (ticks w); calls := calls w ++ [CallDateNow t] |}).

(** [subtle.generateKey] for ECDH on P-256: the private scalar comes from
    the random source. *)
Definition subtle_generateKey : Js P (PublicKey P * PrivateKey P) :=
  fun w =>
    let sk := keygen P (map (random w) (seq (drawn w) 32)) in
    (Return (public_of P sk, sk),
     {| random := random w; drawn := (drawn w + 32)%nat; clock := clock w;
        ticks := ticks w; calls := calls w ++ [CallGenerateKey] |}).

(** [subtle.deriveBits({name: 'ECDH', public}, private, 256)]. *)
Definition subtle_deriveBits_ECDH (sk : PrivateKey P) (pk : PublicKey P) : Js P bytes :=
  log (CallDeriveBits sk pk) ;;; ret (ecdh_bits P sk pk).

(** [subtle.importKey('raw', ikm, 'HKDF', ...)] followed by
    [subtle.deriveKey({name: 'HKDF', hash: 'SHA-256', salt, info}, key,
    {name: 'AES-GCM', length: 256}, ...)]: 32 bytes of HKDF output are the
    AES key. *)
Definition subtle_deriveKey_HKDF (ikm salt info : bytes) : Js P bytes :=
  log (CallHKDF ikm salt info) ;;; ret (hkdf P ikm salt info 32).

(** [subtle.importKey('raw', password, 'PBKDF2', ...)] followed by
    [subtle.deriveKey({name: 'PBKDF2', salt, iterations, hash: 'SHA-256'},
    key, {name: 'AES-GCM', length: 256}, ...)]. *)
Definition subtle_deriveKey_PBKDF2 (password salt : bytes) (iterations : N) : Js P bytes :=
  log (CallPBKDF2 password salt iterations) ;;;
  ret (pbkdf2 P password salt iterations 32).

(** [AesGcmParams]: [additionalData] and [tagLength] are optional. *)
Record AesGcmParams := {
  iv : bytes;
  additionalData : option bytes;
  tagLength : option N
}.

(** The platform reads a missing [additionalData] as the empty byte string
    and a missing [tagLength] as 128. *)
Definition aad_of (p : AesGcmParams) : bytes :=
  match additionalData p with Some a => a | None => [] end.

Definition tag_of (p : AesGcmParams) : N :=
  match tagLength p with Some t => t | None => 128 end.

Definition subtle_encrypt (p : AesGcmParams) (key data : bytes) : Js P bytes :=
  log (CallEncrypt key (iv p) (aad_of p) (tag_of p) data) ;;;
  ret (gcm_encrypt P key (iv p) (aad_of p) (tag_of p) data).

Definition subtle_decrypt (p : AesGcmParams) (key data : bytes) : Js P bytes :=
  log (CallDecrypt key (iv p) (aad_of p) (tag_of p) data) ;;;
  or_throw OperationError (gcm_decrypt P key (iv p) (aad_of p) (tag_of p) data).

Definition subtle_exportKey_raw (pk : PublicKey P) : Js P bytes :=
  ret (export_raw P pk).

Definition subtle_exportKey_jwk (sk : PrivateKey P) : Js P (Json P) :=
  ret (export_jwk P sk).

Definition subtle_importKey_raw (raw : bytes) : Js P (PublicKey P) :=
  or_throw DataError (import_raw P raw).

Definition subtle_importKey_jwk (j : Json P) : Js P (PrivateKey P) :=
  or_throw DataError (import_jwk P j).

Definition JSON_stringify (j : Json P) : Js P jsstring :=
  ret (json_stringify P j).

Definition JSON_parse (s : jsstring) : Js P (Json P) :=
  or_throw SyntaxError (json_parse P s).

End Calls.

End WebCrypto.

(* ================================================================== *)
(** * constants.ts *)

Module Constants.

Definition PBKDF2_ITERATIONS : N := 310000.
Definition SALT_LENGTH : nat := 32.
Definition IV_LENGTH : nat := 12.
Definition KEY_SIZE : nat := 32.
Definition HKDF_INFO : bytes := JS.TextEncoder_encode (JS.lit "chit-chat-e2ee-v1").

End Constants.

(* ================================================================== *)
(** * utils.ts *)

Module Utils.
Import JS WebCrypto.
Local Open Scope js_scope.

(** The loop [binary += String.fromCharCode(bytes[i])]. *)
Definition binary_string (buffer : bytes) : jsstring := map b2n buffer.

(** The loop [bytes[i] = binary.charCodeAt(i)]. *)
Definition binary_bytes (binary : jsstring) : bytes := map n2b binary.

Section WithPlatform.
Variable P : Platform.

Definition arrayBufferToBase64 (buffer : bytes) : Js P jsstring :=
  or_throw InvalidCharacterError (btoa (binary_string buffer)).

Definition base64ToArrayBuffer (base64 : jsstring) : Js P bytes :=
  binary <- or_throw InvalidCharacterError (atob base64) ;;
  ret (binary_bytes binary).

Definition generateRandomBytes (length : nat) : Js P bytes :=
  getRandomValues P length.

End WithPlatform.

(** [Array.from(bytes).map(b => b.toString(16).padStart(2, '0')).join('')] *)
Definition arrayBufferToHex (buffer : bytes) : jsstring :=
  flat_map (fun b => padStart0 2 (toString16 (b2n b))) buffer.

(** The loop of [hexToArrayBuffer]: [for (i = 0; i < hex.length; i += 2)
    bytes[i / 2] = parseInt(hex.substring(i, i + 2), 16)]. *)
Fixpoint hex_loop (hex : jsstring) (arr : bytes) (i fuel : nat) : bytes :=
  match fuel with
  | O => arr
  | S fuel' =>
      if (i <? length hex)%nat then
        hex_loop hex
          (array_store arr (i / 2) (to_uint8 (parseInt16 (substring hex i (i + 2)))))
          (i + 2) fuel'
      else arr
  end.

(** [new Uint8Array(hex.length / 2)] has the integer part of the quotient
    as its length. *)
Definition hexToArrayBuffer (hex : jsstring) : bytes :=
  hex_loop hex (repeat x00 (length hex / 2)) 0 (length hex).

Definition hyphen : jsstring := [45].

Definition generateFingerprint (publicKey : bytes) : jsstring :=
  let hex := arrayBufferToHex publicKey in
  let shortened := toUpperCase (substring hex 0 16) in
  slice shortened 0 4 ++ hyphen ++ slice shortened 4 8 ++ hyphen
  ++ slice shortened 8 12 ++ hyphen ++ slice shortened 12 16.

(** The early-exit comparison: the first differing index returns. *)
Fixpoint compare_from (a b : bytes) (i : nat) (fuel : nat) : bool :=
  match fuel with
  | O => true
  | S fuel' =>
      if negb (b2n (nth i a x00) =? b2n (nth i b x00)) then false
      else compare_from a b (S i) fuel'
  end.

Definition compareArrayBuffers (a b : bytes) : bool :=
  if negb (length a =? length b)%nat then false
  else compare_from a b 0 (length a).

Definition concatUint8Arrays (arrays : list bytes) : bytes := concat arrays.

(** The body of [concatUint8Arrays] as written: a zero-filled result of the
    total length, then [result.set(arr, offset); offset += arr.length] for
    every array. *)
Definition concatUint8Arrays_loop (arrays : list bytes) : bytes :=
  let totalLength := fold_left (fun sum arr => (sum + length arr)%nat) arrays O in
  let result := repeat x00 totalLength in
  fst (fold_left
         (fun st arr => (typed_set (fst st) arr (snd st), (snd st + length arr)%nat))
         arrays (result, O)).

(** The body of the loop of [secureCompare], [result |= a[i] ^ b[i]], run
    for [i] from [0] to [a.length - 1]. *)
Definition secureCompare_loop (a b : bytes) : N :=
  fold_left
    (fun result i => N.lor result (N.lxor (b2n (nth i a x00)) (b2n (nth i b x00))))
    (seq 0 (length a)) 0.

Definition secureCompare (a b : bytes) : bool :=
  if negb (length a =? length b)%nat then false
  else secureCompare_loop a b =? 0.

End Utils.

(* ================================================================== *)
(** * aes-gcm.ts *)

Module AesGcm.
Import JS WebCrypto Constants Utils.
Local Open Scope js_scope.

Record EncryptedMessage := {
  ciphertext : jsstring;   (* base64 of iv ++ ciphertext ++ tag *)
  timestamp : N
}.

Record DecryptedMessage := {
  plaintext : jsstring;
  dm_timestamp : N
}.

Section WithPlatform.
Variable P : Platform.

(** [if (additionalData)] holds for every [Uint8Array], also an empty one:
    the parameter is set exactly when the argument was passed. *)
Definition encryptMessage (sessionKey : bytes) (plaintext : jsstring)
           (additionalData : option bytes) : Js P EncryptedMessage :=
  iv <- generateRandomBytes P IV_LENGTH ;;
  let plaintextBytes := TextEncoder_encode plaintext in
  let encryptParams :=
    {| iv := iv; additionalData := additionalData; tagLength := Some 128 |} in
  ciphertextBuffer <- subtle_encrypt P encryptParams sessionKey plaintextBytes ;;
  let combined := concatUint8Arrays [iv; ciphertextBuffer] in
  c <- arrayBufferToBase64 P combined ;;
  t <- Date_now P ;;
  ret {| ciphertext := c; timestamp := t |}.

Definition decryptMessage (sessionKey : bytes) (encryptedMessage : EncryptedMessage)
           (additionalData : option bytes) : Js P DecryptedMessage :=
  combined <- base64ToArrayBuffer P (ciphertext encryptedMessage) ;;
  let iv := firstn IV_LENGTH combined in
  let ciphertext := skipn IV_LENGTH combined in
  let decryptParams :=
    {| iv := iv; additionalData := additionalData; tagLength := Some 128 |} in
  plaintextBuffer <- subtle_decrypt P decryptParams sessionKey ciphertext ;;
  ret {| plaintext := TextDecoder_decode plaintextBuffer;
         dm_timestamp := timestamp encryptedMessage |}.

Definition encryptBinaryData (sessionKey data : bytes) : Js P bytes :=
  iv <- generateRandomBytes P IV_LENGTH ;;
  ciphertext <- subtle_encrypt P
    {| iv := iv; additionalData := None; tagLength := Some 128 |} sessionKey data ;;
  ret (concatUint8Arrays [iv; ciphertext]).

Definition decryptBinaryData (sessionKey encryptedData : bytes) : Js P bytes :=
  let iv := firstn IV_LENGTH encryptedData in
  let ciphertext := skipn IV_LENGTH encryptedData in
  subtle_decrypt P
    {| iv := iv; additionalData := None; tagLength := Some 128 |} sessionKey ciphertext.

End WithPlatform.

Definition colon : jsstring := [58].

(** [`${senderId}:${recipientId}:${timestamp}`], encoded. *)
Definition createAAD (senderId recipientId : jsstring) (timestamp : N) : bytes :=
  let data := senderId ++ colon ++ recipientId ++ colon ++ number_toString timestamp in
  TextEncoder_encode data.

End AesGcm.

(* ================================================================== *)
(** * keys.ts *)

Module Keys.
Import JS WebCrypto Constants Utils.
Local Open Scope js_scope.

Section Records.
Variable P : Platform.

Record KeyPair := {
  publicKey : PublicKey P;
  privateKey : PrivateKey P;
  publicKeyRaw : bytes;
  fingerprint : jsstring
}.

End Records.

Arguments publicKey {P} k.
Arguments privateKey {P} k.
Arguments publicKeyRaw {P} k.
Arguments fingerprint {P} k.

Record ExportedKeyPair := {
  ex_publicKey : jsstring;     (* base64 *)
  ex_privateKey : jsstring;    (* the JWK as JSON text *)
  ex_fingerprint : jsstring
}.

Record EncryptedKeyBackup := {
  encryptedPrivateKey : jsstring;   (* base64 *)
  salt : jsstring;                  (* base64 *)
  bk_iv : jsstring;                 (* base64 *)
  bk_publicKey : jsstring;          (* base64 *)
  bk_fingerprint : jsstring
}.

Section WithPlatform.
Variable P : Platform.

Definition generateIdentityKeyPair : Js P (KeyPair P) :=
  keyPair <- subtle_generateKey P ;;
  publicKeyRaw <- subtle_exportKey_raw P (fst keyPair) ;;
  let fingerprint := generateFingerprint publicKeyRaw in
  ret {| publicKey := fst keyPair; privateKey := snd keyPair;
         publicKeyRaw := publicKeyRaw; fingerprint := fingerprint |}.

Definition exportKeyPair (keyPair : KeyPair P) : Js P ExportedKeyPair :=
  publicKeyRaw <- subtle_exportKey_raw P (publicKey keyPair) ;;
  privateKeyJwk <- subtle_exportKey_jwk P (privateKey keyPair) ;;
  pub64 <- arrayBufferToBase64 P publicKeyRaw ;;
  json <- JSON_stringify P privateKeyJwk ;;
  ret {| ex_publicKey := pub64; ex_privateKey := json;
         ex_fingerprint := fingerprint keyPair |}.

Definition importKeyPair (exported : ExportedKeyPair) : Js P (KeyPair P) :=
  publicKeyRaw <- base64ToArrayBuffer P (ex_publicKey exported) ;;
  privateKeyJwk <- JSON_parse P (ex_privateKey exported) ;;
  publicKey <- subtle_importKey_raw P publicKeyRaw ;;
  privateKey <- subtle_importKey_jwk P privateKeyJwk ;;
  ret {| publicKey := publicKey; privateKey := privateKey;
         publicKeyRaw := publicKeyRaw; fingerprint := ex_fingerprint exported |}.

Definition importPublicKey (base64PublicKey : jsstring) : Js P (PublicKey P) :=
  publicKeyRaw <- base64ToArrayBuffer P base64PublicKey ;;
  subtle_importKey_raw P publicKeyRaw.

Definition derivePasswordKey (password : jsstring) (salt : bytes) : Js P bytes :=
  let passwordBuffer := TextEncoder_encode password in
  subtle_deriveKey_PBKDF2 P passwordBuffer salt PBKDF2_ITERATIONS.

Definition createKeyBackup (keyPair : KeyPair P) (password : jsstring)
  : Js P EncryptedKeyBackup :=
  salt <- generateRandomBytes P SALT_LENGTH ;;
  iv <- generateRandomBytes P 12 ;;
  passwordKey <- derivePasswordKey password salt ;;
  privateKeyJwk <- subtle_exportKey_jwk P (privateKey keyPair) ;;
  json <- JSON_stringify P privateKeyJwk ;;
  let privateKeyData := TextEncoder_encode json in
  encryptedPrivateKey <- subtle_encrypt P
    {| iv := iv; additionalData := None; tagLength := None |}
    passwordKey privateKeyData ;;
  publicKeyRaw <- subtle_exportKey_raw P (publicKey keyPair) ;;
  enc64 <- arrayBufferToBase64 P encryptedPrivateKey ;;
  salt64 <- arrayBufferToBase64 P salt ;;
  iv64 <- arrayBufferToBase64 P iv ;;
  pub64 <- arrayBufferToBase64 P publicKeyRaw ;;
  ret {| encryptedPrivateKey := enc64; salt := salt64; bk_iv := iv64;
         bk_publicKey := pub64; bk_fingerprint := fingerprint keyPair |}.

Definition restoreKeyFromBackup (backup : EncryptedKeyBackup) (password : jsstring)
  : Js P (KeyPair P) :=
  salt <- base64ToArrayBuffer P (salt backup) ;;
  iv <- base64ToArrayBuffer P (bk_iv backup) ;;
  encryptedPrivateKey <- base64ToArrayBuffer P (encryptedPrivateKey backup) ;;
  passwordKey <- derivePasswordKey password salt ;;
  decryptedData <- subtle_decrypt P
    {| iv := iv; additionalData := None; tagLength := None |}
    passwordKey encryptedPrivateKey ;;
  privateKeyJwk <- JSON_parse P (TextDecoder_decode decryptedData) ;;
  privateKey <- subtle_importKey_jwk P privateKeyJwk ;;
  publicKeyRaw <- base64ToArrayBuffer P (bk_publicKey backup) ;;
  publicKey <- subtle_importKey_raw P publicKeyRaw ;;
  ret {| publicKey := publicKey; privateKey := privateKey;
         publicKeyRaw := publicKeyRaw; fingerprint := bk_fingerprint backup |}.

End WithPlatform.
End Keys.

(* ================================================================== *)
(** * ecdh.ts *)

Module Ecdh.
Import JS WebCrypto Constants Utils Keys.
Local Open Scope js_scope.

Definition info1 : bytes := TextEncoder_encode (lit "chit-chat-session-key-1").
Definition info2 : bytes := TextEncoder_encode (lit "chit-chat-session-key-2").

Record SessionKeys := {
  sendKey : bytes;
  receiveKey : bytes
}.

Section WithPlatform.
Variable P : Platform.

Definition deriveSharedSecret (privateKey : PrivateKey P) (publicKey : PublicKey P)
  : Js P bytes :=
  subtle_deriveBits_ECDH P privateKey publicKey.

(** [salt ? salt.buffer : new ArrayBuffer(KEY_SIZE)] and [info.buffer]:
    both arrays are read through [.buffer], so what reaches HKDF is the
    whole underlying buffer, also when the array is a window on a part of
    it.  [info] defaults to [HKDF_INFO], an array that owns its buffer. *)
Definition deriveSessionKey (sharedSecret : bytes) (salt : option Uint8Array)
           (info : option Uint8Array) : Js P bytes :=
  let info := match info with Some i => i | None => fresh HKDF_INFO end in
  let hkdfSalt :=
    match salt with Some s => buffer s | None => repeat x00 KEY_SIZE end in
  subtle_deriveKey_HKDF P sharedSecret hkdfSalt (buffer info).

Definition performKeyExchange (myKeyPair : KeyPair P) (theirPublicKey : PublicKey P)
           (salt : option Uint8Array) : Js P bytes :=
  sharedSecret <- deriveSharedSecret (privateKey myKeyPair) theirPublicKey ;;
  deriveSessionKey sharedSecret salt None.

Definition deriveBidirectionalKeys (myKeyPair : KeyPair P) (theirPublicKey : PublicKey P)
           (myFingerprint theirFingerprint : jsstring) : Js P SessionKeys :=
  sharedSecret <- deriveSharedSecret (privateKey myKeyPair) theirPublicKey ;;
  let iAmLower := string_lt myFingerprint theirFingerprint in
  key1 <- deriveSessionKey sharedSecret None (Some (fresh info1)) ;;
  key2 <- deriveSessionKey sharedSecret None (Some (fresh info2)) ;;
  ret {| sendKey := if iAmLower then key1 else key2;
         receiveKey := if iAmLower then key2 else key1 |}.

End WithPlatform.
End Ecdh.

(* ================================================================== *)
(** * index.ts: the session facade *)

Module Index.
Import JS WebCrypto Constants Utils AesGcm Ecdh Keys.
Local Open Scope js_scope.

Record SecureSession := {
  sessionId : jsstring;
  ss_sendKey : bytes;
  ss_receiveKey : bytes;
  theirFingerprint : jsstring;
  createdAt : N
}.

Record SecureMessagePayload := {
  mp_sessionId : jsstring;
  senderId : jsstring;
  recipientId : jsstring;
  encrypted : EncryptedMessage
}.

Section WithPlatform.
Variable P : Platform.

Definition establishSecureSession (myKeyPair : KeyPair P)
           (theirPublicKeyBase64 theirFingerprint : jsstring) : Js P SecureSession :=
  theirPublicKey <- importPublicKey P theirPublicKeyBase64 ;;
  keys <- deriveBidirectionalKeys P myKeyPair theirPublicKey
            (fingerprint myKeyPair) theirFingerprint ;;
  t1 <- Date_now P ;;
  let sessionId :=
    fingerprint myKeyPair ++ hyphen ++ theirFingerprint ++ hyphen ++ number_toString t1 in
  t2 <- Date_now P ;;
  ret {| sessionId := sessionId; ss_sendKey := sendKey keys;
         ss_receiveKey := receiveKey keys; theirFingerprint := theirFingerprint;
         createdAt := t2 |}.

Definition encryptSessionMessage (session : SecureSession)
           (senderId recipientId message : jsstring) : Js P SecureMessagePayload :=
  timestamp <- Date_now P ;;
  let aad := createAAD senderId recipientId timestamp in
  encrypted <- encryptMessage P (ss_sendKey session) message (Some aad) ;;
  ret {| mp_sessionId := sessionId session; senderId := senderId;
         recipientId := recipientId; encrypted := encrypted |}.

Definition decryptSessionMessage (session : SecureSession)
           (payload : SecureMessagePayload) : Js P DecryptedMessage :=
  let aad := createAAD (senderId payload) (recipientId payload)
                       (timestamp (encrypted payload)) in
  decryptMessage P (ss_receiveKey session) (encrypted payload) (Some aad).

End WithPlatform.

(** ** runCryptoSelfTest *)

Record SelfTestStep := {
  name : jsstring;
  step_success : bool;
  details : option jsstring
}.

Record SelfTestResult := {
  success : bool;
  steps : list SelfTestStep
}.

(** ['Hello, this is a secret message! '] followed by U+1F510, a surrogate
    pair. *)
Definition testMessage : jsstring :=
  lit "Hello, this is a secret message! " ++ [0xD83D; 0xDD10].

Section SelfTest.
Variable P : Platform.

(** [error.message]: the text the platform gives an exception.  Every
    exception of the model is an [Error]. *)
Variable error_message : JsError -> jsstring.

(** The [catch] clause: one more step after those pushed so far. *)
Definition caught (steps : list SelfTestStep) (error : JsError) : SelfTestResult :=
  {| success := false;
     steps := steps ++ [{| name := lit "Unexpected Error"; step_success := false;
                           details := Some (error_message error) |}] |}.

(** An [await] inside the [try] block, reached with [steps] pushed. *)
Definition guarded {A : Type} (steps : list SelfTestStep) (c : Js P A)
           (k : A -> Js P SelfTestResult) : Js P SelfTestResult :=
  fun w =>
    match c w with
    | (Return a, w') => k a w'
    | (Throw error, w') => (Return (caught steps error), w')
    end.

Definition runCryptoSelfTest : Js P SelfTestResult :=
  let steps0 : list SelfTestStep := [] in
  (* Step 1 *)
  guarded steps0 (generateIdentityKeyPair P) (fun alice =>
  let steps1 := steps0 ++
    [{| name := lit "Generate Alice's identity"; step_success := true;
        details := Some (lit "Public key fingerprint: " ++ fingerprint alice) |}] in
  (* Step 2 *)
  guarded steps1 (generateIdentityKeyPair P) (fun bob =>
  let steps2 := steps1 ++
    [{| name := lit "Generate Bob's identity"; step_success := true;
        details := Some (lit "Public key fingerprint: " ++ fingerprint bob) |}] in
  (* Step 3 *)
  guarded steps2 (exportKeyPair P alice) (fun aliceExported =>
  guarded steps2 (importKeyPair P aliceExported) (fun aliceImported =>
  let steps3 := steps2 ++
    [{| name := lit "Key serialization round-trip";
        step_success := string_eqb (fingerprint aliceImported) (fingerprint alice);
        details := Some (lit "Keys can be exported and imported correctly") |}] in
  (* Step 4 *)
  guarded steps3 (deriveSharedSecret P (privateKey alice) (publicKey bob))
    (fun aliceShared =>
  guarded steps3 (deriveSharedSecret P (privateKey bob) (publicKey alice))
    (fun bobShared =>
  let sharedMatch :=
    string_eqb (arrayBufferToHex aliceShared) (arrayBufferToHex bobShared) in
  let steps4 := steps3 ++
    [{| name := lit "ECDH Key Exchange"; step_success := sharedMatch;
        details := Some (if sharedMatch
                         then lit "Both parties derived identical shared secret"
                         else lit "Shared secrets do not match!") |}] in
  (* Step 5 *)
  guarded steps4 (deriveSessionKey P aliceShared None None) (fun sessionKey =>
  let steps5 := steps4 ++
    [{| name := lit "HKDF Session Key Derivation"; step_success := true;
        details := Some (lit "AES-256-GCM key derived successfully") |}] in
  (* Step 6 *)
  guarded steps5 (encryptMessage P sessionKey testMessage None) (fun encrypted =>
  let steps6 := steps5 ++
    [{| name := lit "AES-256-GCM Encryption";
        step_success := (0 <? length (ciphertext encrypted))%nat;
        details := Some (lit "Ciphertext length: "
                         ++ number_toString (N.of_nat (length (ciphertext encrypted)))
                         ++ lit " chars") |}] in
  (* Step 7 *)
  guarded steps6 (decryptMessage P sessionKey encrypted None) (fun decrypted =>
  let decryptSuccess := string_eqb (plaintext decrypted) testMessage in
  let steps7 := steps6 ++
    [{| name := lit "AES-256-GCM Decryption"; step_success := decryptSuccess;
        details := Some (if decryptSuccess
                         then lit "Message decrypted correctly"
                         else lit "Decryption failed!") |}] in
  (* Step 8 *)
  guarded steps7 (exportKeyPair P bob) (fun e =>
  guarded steps7
    (establishSecureSession P alice
       (replace (ex_publicKey aliceExported) (ex_publicKey aliceExported) (ex_publicKey e))
       (fingerprint bob)) (fun aliceSession =>
  guarded steps7 (exportKeyPair P bob) (fun bobExported =>
  guarded steps7
    (establishSecureSession P alice (ex_publicKey bobExported) (fingerprint bob))
    (fun realAliceSession =>
  guarded steps7
    (establishSecureSession P bob (ex_publicKey aliceExported) (fingerprint alice))
    (fun realBobSession =>
  guarded steps7
    (encryptSessionMessage P realAliceSession (lit "alice") (lit "bob")
       (lit "Secret session message!")) (fun sessionMessage =>
  guarded steps7 (decryptSessionMessage P realBobSession sessionMessage)
    (fun decryptedSession =>
  let steps8 := steps7 ++
    [{| name := lit "Full E2EE Session Test";
        step_success :=
          string_eqb (plaintext decryptedSession) (lit "Secret session message!");
        details := Some (lit "Alice successfully sent encrypted message to Bob") |}] in
  ret {| success := forallb step_success steps8; steps := steps8 |}
  )))))))))))))))).

End SelfTest.
End Index.

(* ================================================================== *)
(** * A small executable platform

    Diffie-Hellman over the natural numbers with generator 3, a
    polynomial checksum for the hash, and a cipher that shifts every byte by
    one keystream byte, with a checksum tag.  It gives no security; it
    satisfies the functional laws
    and lets the code above run on concrete inputs. *)

Module Toy.
Import JS WebCrypto.

(** [len] bytes of [n], least significant first. *)
Fixpoint le_bytes (len : nat) (n : N) : bytes :=
  match len with
  | O => []
  | S len' => n2b n :: le_bytes len' (n / 256)
  end.

Fixpoint le_value (bs : bytes) : N :=
  match bs with
  | [] => 0
  | b :: rest => b2n b + 256 * le_value rest
  end.

Definition checksum (m : bytes) : N :=
  fold_left (fun acc b => (acc * 257 + b2n b + 1) mod 2 ^ 256) m 0.

Definition digest (len : nat) (m : bytes) : bytes := le_bytes len (checksum m).

Definition toy_keygen (seed : bytes) : N := le_value seed.
Definition toy_public_of (sk : N) : N := 3 ^ sk.
Definition toy_ecdh (sk pk : N) : bytes := le_bytes 32 (pk ^ sk).

(** The raw form: the marker byte 4, then the number in at least 64
    bytes. *)
Definition toy_export_raw (pk : N) : bytes :=
  x04 :: le_bytes (Nat.max 64 (N.to_nat (N.size pk))) pk.

Definition toy_import_raw (raw : bytes) : option N :=
  match raw with
  | x04 :: rest => if (64 <=? length rest)%nat then Some (le_value rest) else None
  | _ => None
  end.

(** JSON text of a key: the number between braces. *)
Definition toy_stringify (j : N) : jsstring :=
  [123] ++ number_toString j ++ [125].

Definition unlit (s : jsstring) : string :=
  string_of_list_ascii (map ascii_of_N s).

Definition toy_parse (s : jsstring) : option N :=
  match s with
  | 123 :: rest =>
      match rev rest with
      | 125 :: digits =>
          option_map N.of_uint (NilZero.uint_of_string (unlit (rev digits)))
      | _ => None
      end
  | _ => None
  end.

Definition keystream (key iv : bytes) : N := b2n (hd x00 (digest 1 (key ++ iv))).

(** The cipher adds the keystream byte to every byte, modulo 256. *)
Definition shift_with (c : N) (l : bytes) : bytes :=
  map (fun b => n2b (b2n b + c)) l.

Definition unshift_with (c : N) (l : bytes) : bytes :=
  map (fun b => n2b (b2n b + 256 - c)) l.

Definition toy_tag (key iv aad : bytes) (t : N) (pt : bytes) : bytes :=
  digest (N.to_nat (t / 8))
         (key ++ iv ++ le_bytes 8 (N.of_nat (length aad)) ++ aad ++ pt).

Definition toy_gcm_encrypt (key iv aad : bytes) (t : N) (pt : bytes) : bytes :=
  shift_with (keystream key iv) pt ++ toy_tag key iv aad t pt.

Definition bytes_eqb (a b : bytes) : bool :=
  (length a =? length b)%nat
  && forallb (fun p => b2n (fst p) =? b2n (snd p)) (combine a b).

Definition toy_gcm_decrypt (key iv aad : bytes) (t : N) (data : bytes) : option bytes :=
  let n := N.to_nat (t / 8) in
  if (length data <? n)%nat then None
  else
    let ct := firstn (length data - n) data in
    let tag := skipn (length data - n) data in
    let pt := unshift_with (keystream key iv) ct in
    if bytes_eqb tag (toy_tag key iv aad t pt) then Some pt else None.

Definition platform : Platform := {|
  PrivateKey := N;
  PublicKey := N;
  Json := N;
  keygen := toy_keygen;
  public_of := toy_public_of;
  ecdh_bits := toy_ecdh;
  export_raw := toy_export_raw;
  import_raw := toy_import_raw;
  export_jwk := fun sk => sk;
  import_jwk := fun j => Some j;
  json_stringify := toy_stringify;
  json_parse := toy_parse;
  sha256 := digest 32;
  gcm_encrypt := toy_gcm_encrypt;
  gcm_decrypt := toy_gcm_decrypt
|}.

(** A world for test runs: the random source counts upwards from 1, the
    clock reads [t0], [t0 + step], [t0 + 2 * step] and so on. *)
Definition world (t0 step : N) : World platform := {|
  random := fun i => n2b (N.of_nat i + 1);
  drawn := 0;
  clock := fun i => t0 + step * N.of_nat i;
  ticks := 0;
  calls := []
|}.

(** Two identities. *)
Definition identity (sk : N) : Keys.KeyPair platform :=
  let raw := toy_export_raw (toy_public_of sk) in
  {| Keys.publicKey := toy_public_of sk : PublicKey platform;
     Keys.privateKey := sk : PrivateKey platform;
     Keys.publicKeyRaw := raw;
     Keys.fingerprint := Utils.generateFingerprint raw |}.

Definition alice := identity 5.
Definition bob := identity 11.

(** What a run returned, the world dropped. *)
Definition result {A : Type} (c : Js platform A) (w : World platform) : Outcome A :=
  fst (c w).

End Toy.

(* ================================================================== *)
(** * A second executable platform

    The platform of [Toy] with another hash, the sum of the bytes modulo
    256.  Under it the rounds of PBKDF2 repeat after at most 512 steps, so
    the 310000 rounds of a key backup can be evaluated on concrete
    passwords. *)

Module Plain.
Import JS WebCrypto.

Definition byte_sum (m : bytes) : bytes :=
  n2b (fold_left (fun acc b => acc + b2n b) m 0) :: repeat x00 31.

Definition platform : Platform := {|
  PrivateKey := N;
  PublicKey := N;
  Json := N;
  keygen := Toy.toy_keygen;
  public_of := Toy.toy_public_of;
  ecdh_bits := Toy.toy_ecdh;
  export_raw := Toy.toy_export_raw;
  import_raw := Toy.toy_import_raw;
  export_jwk := fun sk => sk;
  import_jwk := fun j => Some j;
  json_stringify := Toy.toy_stringify;
  json_parse := Toy.toy_parse;
  sha256 := byte_sum;
  gcm_encrypt := Toy.toy_gcm_encrypt;
  gcm_decrypt := Toy.toy_gcm_decrypt
|}.

(** The random source counts upwards from 1, the clock stands at 1000. *)
Definition world : World platform := {|
  random := fun i => n2b (N.of_nat i + 1);
  drawn := 0;
  clock := fun _ => 1000;
  ticks := 0;
  calls := []
|}.

Definition alice : Keys.KeyPair platform :=
  let raw := Toy.toy_export_raw (Toy.toy_public_of 5) in
  {| Keys.publicKey := Toy.toy_public_of 5 : PublicKey platform;
     Keys.privateKey := 5 : PrivateKey platform;
     Keys.publicKeyRaw := raw;
     Keys.fingerprint := Utils.generateFingerprint raw |}.

End Plain.

(* ================================================================== *)
(** * Notions used to state the theorems *)

Module Notions.
Import JS WebCrypto Constants Utils AesGcm Keys Ecdh Index.
Local Open Scope js_scope.

(** [/^[0-9A-F]$/] on one code unit. *)
Definition is_upper_hex (c : code_unit) : bool :=
  ((48 <=? c) && (c <=? 57)) || ((65 <=? c) && (c <=? 70)).

(** [/^[0-9A-F]{4}-[0-9A-F]{4}-[0-9A-F]{4}-[0-9A-F]{4}$/]. *)
Definition fingerprint_format (s : jsstring) : bool :=
  match s with
  | [p0; p1; p2; p3; h1; q0; q1; q2; q3; h2; r0; r1; r2; r3; h3; s0; s1; s2; s3] =>
      forallb is_upper_hex [p0; p1; p2; p3; q0; q1; q2; q3; r0; r1; r2; r3; s0; s1; s2; s3]
      && forallb (N.eqb 45) [h1; h2; h3]
  | _ => false
  end.

(** The two upper-case hexadecimal digits of a byte. *)
Definition hx (b : byte) : jsstring :=
  [upper_unit (hex_digit (b2n b / 16)); upper_unit (hex_digit (b2n b mod 16))].

(** The sextets [b64_encode] writes, before they become characters. *)
Fixpoint b64_sextets (l : list N) : list N :=
  match l with
  | [] => []
  | [a] => [a / 4; (a mod 4) * 16]
  | [a; b] => [a / 4; (a mod 4) * 16 + b / 16; (b mod 16) * 4]
  | a :: b :: c :: rest =>
      a / 4 :: ((a mod 4) * 16 + b / 16) :: ((b mod 16) * 4 + c / 64)
      :: c mod 64 :: b64_sextets rest
  end.

Fixpoint b64_padding (l : list N) : jsstring :=
  match l with
  | [] => []
  | [_] => [pad_char; pad_char]
  | [_; _] => [pad_char]
  | _ :: _ :: _ :: rest => b64_padding rest
  end.

(** A Unicode scalar value. *)
Definition scalar_ok (cp : N) : Prop :=
  cp < 0x110000 /\ ~ (0xD800 <= cp <= 0xDFFF).

(** The decoder's state after a lead byte. *)
Definition open_state (cp needed lo hi : N) : utf8_state :=
  {| code_point := cp; bytes_seen := 0; bytes_needed := needed;
     lower_boundary := lo; upper_boundary := hi |}.

(** The world after [d] more random bytes, [t] more clock readings and the
    calls [cs]. *)
Definition advance {P : Platform} (w : World P) (d t : nat) (cs : list (Call P)) : World P :=
  {| random := random w; drawn := (drawn w + d)%nat; clock := clock w;
     ticks := (ticks w + t)%nat; calls := calls w ++ cs |}.

(** [c] is what the cipher makes of some plaintext under this key, nonce
    and associated data, with a 128-bit tag. *)
Definition genuine (P : Platform) (k iv aad c : bytes) : Prop :=
  exists pt, gcm_encrypt P k iv aad 128 pt = c.

(** Authenticated decryption: the platform releases a plaintext only for
    bytes that are its own encryption of that plaintext under the same key,
    nonce and associated data.  AES-GCM does: it recomputes the tag over the
    ciphertext and the associated data, and its keystream is the one of the
    encryption. *)
Definition authenticated (P : Platform) : Prop :=
  forall k iv aad t c pt,
    gcm_decrypt P k iv aad t c = Some pt -> gcm_encrypt P k iv aad t pt = c.

(** [c] with the lowest bit of its first byte flipped. *)
Definition flip_first (c : bytes) : bytes :=
  match c with
  | b :: rest => n2b (N.lxor (b2n b) 1) :: rest
  | [] => []
  end.

(** The bytes the platform reads as associated data. *)
Definition aad_bytes (aad : option bytes) : bytes :=
  match aad with Some a => a | None => [] end.

(** The next [n] bytes of the random source, and the next clock reading. *)
Definition next_random {P : Platform} (w : World P) (n : nat) : bytes :=
  map (random w) (seq (drawn w) n).

Definition now {P : Platform} (w : World P) : N := clock w (ticks w).

(** What a run returned, if it returned. *)
Definition returned {A : Type} (o : Outcome A) : option A :=
  match o with Return a => Some a | Throw _ => None end.

(** The two directional keys of a shared secret. *)
Definition zero_salt : bytes := repeat x00 32.

Definition key1 (P : Platform) (secret : bytes) : bytes :=
  hkdf P secret zero_salt info1 32.

Definition key2 (P : Platform) (secret : bytes) : bytes :=
  hkdf P secret zero_salt info2 32.

(** The parts of a key backup made of [kp] with [password] in world [w]. *)
Definition backup_key (P : Platform) (password : jsstring) (salt : bytes) : bytes :=
  pbkdf2 P (TextEncoder_encode password) salt 310000 32.

Definition private_json (P : Platform) (kp : KeyPair P) : jsstring :=
  json_stringify P (export_jwk P (privateKey kp)).

Definition backup_salt {P : Platform} (w : World P) : bytes :=
  map (random w) (seq (drawn w) 32).

Definition backup_iv {P : Platform} (w : World P) : bytes :=
  map (random w) (seq (drawn w + 32) 12).

Definition backup_ciphertext (P : Platform) (kp : KeyPair P) (password : jsstring)
           (w : World P) : bytes :=
  gcm_encrypt P (backup_key P password (backup_salt w)) (backup_iv w) [] 128
              (TextEncoder_encode (private_json P kp)).

(** The key pair a restore gives back. *)
Definition restored {P : Platform} (kp : KeyPair P) : KeyPair P :=
  {| publicKey := publicKey kp; privateKey := privateKey kp;
     publicKeyRaw := export_raw P (publicKey kp); fingerprint := fingerprint kp |}.

(** A record with Alice's keys and a fingerprint that is not theirs. *)
Definition mislabelled : ExportedKeyPair :=
  {| ex_publicKey := b64_encode (binary_string (publicKeyRaw Toy.alice));
     ex_privateKey := Toy.toy_stringify (privateKey Toy.alice);
     ex_fingerprint := lit "0000-0000-0000-0000" |}.

(** The session exchange of the self test: both sides establish their
    session from the other's exported public key and fingerprint, Alice
    encrypts, Bob decrypts. *)
Definition exchange (P : Platform) (alice bob : KeyPair P) (message : jsstring)
  : Js P DecryptedMessage :=
  aliceExported <- exportKeyPair P alice ;;
  bobExported <- exportKeyPair P bob ;;
  realAliceSession <-
    establishSecureSession P alice (ex_publicKey bobExported) (fingerprint bob) ;;
  realBobSession <-
    establishSecureSession P bob (ex_publicKey aliceExported) (fingerprint alice) ;;
  sessionMessage <-
    encryptSessionMessage P realAliceSession (lit "alice") (lit "bob") message ;;
  decryptSessionMessage P realBobSession sessionMessage.

(** The identity [generateIdentityKeyPair] makes from the 32 random bytes
    that start [offset] positions after those already drawn in [w]. *)
Definition identity_at (P : Platform) (w : World P) (offset : nat) : KeyPair P :=
  let sk := keygen P (map (random w) (seq (drawn w + offset) 32)) in
  {| publicKey := public_of P sk; privateKey := sk;
     publicKeyRaw := export_raw P (public_of P sk);
     fingerprint := generateFingerprint (export_raw P (public_of P sk)) |}.

(** The names of the eight steps of the self test, in order. *)
Definition step_names : list jsstring :=
  [lit "Generate Alice's identity"; lit "Generate Bob's identity";
   lit "Key serialization round-trip"; lit "ECDH Key Exchange";
   lit "HKDF Session Key Derivation"; lit "AES-256-GCM Encryption";
   lit "AES-256-GCM Decryption"; lit "Full E2EE Session Test"].

(** What every run of the self test satisfies: it returns a report whose
    overall flag is the conjunction of the flags of its steps, with at
    least one step and at most eight. *)
Definition well_reported {P : Platform} (out : Outcome SelfTestResult * World P) : Prop :=
  exists r w1,
    out = (Return r, w1)
    /\ success r = forallb step_success (steps r)
    /\ (1 <= length (steps r) <= 8)%nat.

(** A run of the self test that passed all eight steps. *)
Definition all_passed {P : Platform} (out : Outcome SelfTestResult * World P) : Prop :=
  exists r w1,
    out = (Return r, w1)
    /\ success r = true
    /\ map name (steps r) = step_names
    /\ forallb step_success (steps r) = true.

(** A world of the toy platform whose random source makes the private
    keys 5 and 11 of the first two identities, and whose clock stands
    still. *)
Definition small_world : World Toy.platform :=
  {| random := fun i => if (i =? 0)%nat then x05
                        else if (i =? 32)%nat then x0b else x00;
     drawn := 0; clock := fun _ => 1000; ticks := 0; calls := [] |}.

End Notions.

(* ================================================================== *)
(** * Facts *)

Module BytesFacts.

Lemma b2n_lt (b : byte) : b2n b < 256.
Proof. unfold b2n. pose proof (Byte.to_N_bounded b). lia. Qed.

Lemma n2b_b2n (b : byte) : n2b (b2n b) = b.
Proof.
  unfold n2b. rewrite N.mod_small by apply b2n_lt.
  unfold b2n. now rewrite Byte.of_to_N.
Qed.

Lemma b2n_n2b (n : N) : n < 256 -> b2n (n2b n) = n.
Proof.
  intros H. unfold n2b, b2n. rewrite N.mod_small by exact H.
  destruct (Byte.of_N n) as [b|] eqn:E.
  - now apply Byte.to_of_N.
  - apply Byte.of_N_None_iff in E. lia.
Qed.

Lemma b2n_inj (a b : byte) : b2n a = b2n b -> a = b.
Proof. intros H. rewrite <- (n2b_b2n a), <- (n2b_b2n b). now rewrite H. Qed.

Lemma map_n2b_b2n (l : bytes) : map n2b (map b2n l) = l.
Proof. induction l as [|b l IH]; simpl; [reflexivity|]. now rewrite n2b_b2n, IH. Qed.

End BytesFacts.

Module UtilsFacts.
Import JS Utils Notions BytesFacts.

Lemma lor_fold_zero (f : nat -> N) (l : list nat) (r0 : N) :
  fold_left (fun r i => N.lor r (f i)) l r0 = 0 <->
  r0 = 0 /\ forall i, In i l -> f i = 0.
Proof.
  revert r0. induction l as [|i l IH]; intros r0; simpl.
  - split; [intros ->; split; [reflexivity | intros ? []] | intros [-> _]; reflexivity].
  - rewrite IH, N.lor_eq_0_iff. split.
    + intros [[-> Hi] Hl]. split; [reflexivity|]. intros j [<-|Hj]; auto.
    + intros [-> H]. repeat split; auto.
Qed.

Lemma secureCompare_loop_zero (a b : bytes) :
  secureCompare_loop a b = 0 <->
  forall i, (i < length a)%nat -> nth i a x00 = nth i b x00.
Proof.
  unfold secureCompare_loop.
  rewrite (lor_fold_zero (fun i => N.lxor (b2n (nth i a x00)) (b2n (nth i b x00)))).
  split.
  - intros [_ H] i Hi. apply b2n_inj, N.lxor_eq. apply H, in_seq. lia.
  - intros H. split; [reflexivity|]. intros i Hi. apply in_seq in Hi.
    rewrite H by lia. apply N.lxor_nilpotent.
Qed.

(** C9: [secureCompare] returns [true] exactly when the two arrays have the
    same length and the same byte at every index, that is, when they are
    equal; unless the lengths differ, its result is the test that the
    exclusive-or of every pair of bytes, or-ed together over the whole
    length, is zero. *)
Theorem secureCompare_correct (a b : bytes) :
  (secureCompare a b = true <->
   length a = length b /\ forall i, (i < length a)%nat -> nth i a x00 = nth i b x00)
  /\ (secureCompare a b = true <-> a = b)
  /\ secureCompare a b = ((length a =? length b)%nat && (secureCompare_loop a b =? 0)).
Proof.
  assert (E : secureCompare a b = ((length a =? length b)%nat && (secureCompare_loop a b =? 0))).
  { unfold secureCompare. destruct (length a =? length b)%nat; reflexivity. }
  assert (H1 : secureCompare a b = true <->
   length a = length b /\ forall i, (i < length a)%nat -> nth i a x00 = nth i b x00).
  { rewrite E, andb_true_iff, Nat.eqb_eq, N.eqb_eq, secureCompare_loop_zero. reflexivity. }
  split; [exact H1|]. split; [|exact E].
  rewrite H1. split.
  - intros [Hl Hn]. apply (nth_ext a b x00 x00 Hl Hn).
  - intros ->. split; reflexivity.
Qed.

Lemma hex_pair (b : byte) :
  padStart0 2 (toString16 (b2n b)) =
  [hex_digit (b2n b / 16); hex_digit (b2n b mod 16)].
Proof. destruct b; reflexivity. Qed.

Lemma upper_hex_digit (b : byte) :
  is_upper_hex (upper_unit (hex_digit (b2n b / 16))) = true /\
  is_upper_hex (upper_unit (hex_digit (b2n b mod 16))) = true.
Proof. destruct b; split; reflexivity. Qed.


Lemma generateFingerprint_8 b0 b1 b2 b3 b4 b5 b6 b7 rest :
  generateFingerprint (b0 :: b1 :: b2 :: b3 :: b4 :: b5 :: b6 :: b7 :: rest) =
  hx b0 ++ hx b1 ++ hyphen ++ hx b2 ++ hx b3 ++ hyphen
  ++ hx b4 ++ hx b5 ++ hyphen ++ hx b6 ++ hx b7.
Proof.
  unfold generateFingerprint, arrayBufferToHex.
  cbn [flat_map]. rewrite !hex_pair. reflexivity.
Qed.

Lemma hx_inj (b b' : byte) : hx b = hx b' -> b = b'.
Proof.
  assert (H : forall x, to_uint8 (parseInt16 (hx x)) = x) by (intros x; destruct x; reflexivity).
  intros E. rewrite <- (H b), <- (H b'), E. reflexivity.
Qed.

Lemma hex_of_two (b c : byte) (rest : bytes) :
  toUpperCase (arrayBufferToHex (firstn 2 (b :: c :: rest))) = hx b ++ hx c.
Proof.
  cbn [firstn]. unfold arrayBufferToHex. cbn [flat_map]. rewrite !hex_pair. reflexivity.
Qed.

(** C7, as the code has it: the fingerprint of a raw public key of at
    least 8 bytes is made of the upper-case hexadecimal digits of its first
    8 bytes, two for each byte in order, in four blocks of four separated
    by hyphens.  So it has the form of four groups of four upper-case
    hexadecimal digits, depends on no byte after the eighth, and two keys
    have the same fingerprint exactly when their first 8 bytes agree. *)
Theorem generateFingerprint_format (raw : bytes) :
  (8 <= length raw)%nat ->
  let block i := toUpperCase (arrayBufferToHex (firstn 2 (skipn i raw))) in
  generateFingerprint raw
  = block 0%nat ++ hyphen ++ block 2%nat ++ hyphen ++ block 4%nat ++ hyphen ++ block 6%nat
  /\ generateFingerprint raw = generateFingerprint (firstn 8 raw)
  /\ fingerprint_format (generateFingerprint raw) = true
  /\ forall raw', (8 <= length raw')%nat ->
       (generateFingerprint raw' = generateFingerprint raw
        <-> firstn 8 raw' = firstn 8 raw).
Proof.
  intros H block.
  destruct raw as [|b0 [|b1 [|b2 [|b3 [|b4 [|b5 [|b6 [|b7 rest]]]]]]]];
    simpl in H; try lia.
  subst block. cbv beta. cbn [skipn]. rewrite !hex_of_two.
  cbn [firstn]. rewrite !generateFingerprint_8.
  split; [now rewrite <- !app_assoc|]. split; [reflexivity|]. split.
  - unfold hx, hyphen. cbn [app fingerprint_format forallb].
    repeat match goal with
           | |- context [is_upper_hex (upper_unit (hex_digit (b2n ?b / 16)))] =>
               let Ha := fresh in let Hb := fresh in
               destruct (upper_hex_digit b) as [Ha Hb]; rewrite Ha, Hb; clear Ha Hb
           end.
    reflexivity.
  - intros raw' H'.
    destruct raw' as [|c0 [|c1 [|c2 [|c3 [|c4 [|c5 [|c6 [|c7 rest']]]]]]]];
      simpl in H'; try lia.
    cbn [firstn]. rewrite !generateFingerprint_8. split.
    + intros E.
      assert (E' : hx c0 ++ hx c1 ++ hx c2 ++ hx c3 ++ hx c4 ++ hx c5 ++ hx c6 ++ hx c7
                   = hx b0 ++ hx b1 ++ hx b2 ++ hx b3 ++ hx b4 ++ hx b5 ++ hx b6 ++ hx b7).
      { unfold hx, hyphen in *. cbn [app] in *. injection E as E.
        repeat match goal with Hx : _ = _ |- _ => rewrite Hx; clear Hx end.
        reflexivity. }
      assert (Hcut : forall (x y : byte) (r s : jsstring),
                hx x ++ r = hx y ++ s -> x = y /\ r = s).
      { intros x y r s Hxy. unfold hx in Hxy. cbn [app] in Hxy.
        injection Hxy as H1 H2 H3. split; [|exact H3].
        apply hx_inj. unfold hx. now rewrite H1, H2. }
      repeat match goal with
             | Hx : hx _ ++ _ = hx _ ++ _ |- _ =>
                 apply Hcut in Hx; let Hb := fresh in destruct Hx as [Hb Hx]; subst
             end.
      rewrite <- (app_nil_r (hx c7)), <- (app_nil_r (hx b7)) in E'.
      apply Hcut in E'. destruct E' as [-> _]. reflexivity.
    + intros E. injection E as -> -> -> -> -> -> -> ->. reflexivity.
Qed.

Lemma generateFingerprint_format_witness :
  (8 <= length (Toy.toy_export_raw 243))%nat
  /\ generateFingerprint (Toy.toy_export_raw 243) = lit "04F3-0000-0000-0000"
  /\ generateFingerprint (Toy.toy_export_raw 243)
     = generateFingerprint (firstn 8 (Toy.toy_export_raw 243))
  /\ fingerprint_format (generateFingerprint (Toy.toy_export_raw 243)) = true
  /\ (generateFingerprint (Toy.toy_export_raw 177147)
      = generateFingerprint (Toy.toy_export_raw 243)
      <-> firstn 8 (Toy.toy_export_raw 177147) = firstn 8 (Toy.toy_export_raw 243)).
Proof.
  assert (H : (8 <= length (Toy.toy_export_raw 243))%nat) by (vm_compute; lia).
  assert (H' : (8 <= length (Toy.toy_export_raw 177147))%nat) by (vm_compute; lia).
  destruct (generateFingerprint_format (Toy.toy_export_raw 243) H) as (H1 & H2 & H3 & H4).
  split; [exact H|]. split; [rewrite H1; vm_compute; reflexivity|].
  split; [exact H2|]. split; [exact H3|]. exact (H4 _ H').
Defined.

(** C7, counterexample: a byte string of two bytes gets a fingerprint of
    four digits and three hyphens, which is not of the form. *)
Lemma short_key_fingerprint :
  generateFingerprint [x2a; xff] = lit "2AFF---"
  /\ fingerprint_format (generateFingerprint [x2a; xff]) = false.
Proof. split; vm_compute; reflexivity. Qed.

End UtilsFacts.

Module ArithFacts.

Lemma div_add_small q r m : r < m -> (q * m + r) / m = q.
Proof. intros H. symmetry. apply (N.div_unique _ m q r); lia. Qed.

Lemma mod_add_small q r m : r < m -> (q * m + r) mod m = r.
Proof. intros H. symmetry. apply (N.mod_unique _ m q r); lia. Qed.

Lemma div_mod_eq a m : m <> 0 -> a / m * m + a mod m = a.
Proof. intros H. pose proof (N.div_mod a m H). lia. Qed.

Lemma div_lt_bound a m k : m <> 0 -> a < k * m -> a / m < k.
Proof. intros Hm H. apply N.Div0.div_lt_upper_bound. lia. Qed.

End ArithFacts.

Module Base64Facts.
Import JS BytesFacts ArithFacts Notions.



(** Induction three elements at a time. *)
Lemma list_ind3 (A : Type) (Q : list A -> Prop) :
  Q [] -> (forall a, Q [a]) -> (forall a b, Q [a; b]) ->
  (forall a b c rest, Q rest -> Q (a :: b :: c :: rest)) ->
  forall l, Q l.
Proof.
  intros H0 H1 H2 H3.
  fix IH 1. intros [|a [|b [|c rest]]];
    [apply H0 | apply H1 | apply H2 | apply H3, IH].
Qed.

Lemma b64_encode_split (l : list N) :
  b64_encode l = map b64_char (b64_sextets l) ++ b64_padding l.
Proof.
  induction l as [| | |a b c rest IH] using list_ind3; try reflexivity.
  cbn [b64_encode b64_sextets b64_padding map app]. now rewrite IH.
Qed.

Lemma b64_char_cases (v : N) :
  (65 <= b64_char v <= 90) \/ (97 <= b64_char v <= 122) \/
  (48 <= b64_char v <= 57) \/ b64_char v = 43 \/ b64_char v = 47.
Proof.
  unfold b64_char.
  destruct (N.ltb_spec v 26); [lia|].
  destruct (N.ltb_spec v 52); [lia|].
  destruct (N.ltb_spec v 62); [lia|].
  destruct (N.eqb_spec v 62); lia.
Qed.

Lemma b64_char_not_space (v : N) : is_ascii_whitespace (b64_char v) = false.
Proof.
  unfold is_ascii_whitespace.
  pose proof (b64_char_cases v) as H.
  repeat rewrite orb_false_iff. repeat split; apply N.eqb_neq; lia.
Qed.

Lemma b64_char_not_pad (v : N) : (b64_char v =? pad_char) = false.
Proof. pose proof (b64_char_cases v). apply N.eqb_neq. unfold pad_char. lia. Qed.

Lemma in_range (lo hi c : N) : lo <= c <= hi -> (lo <=? c) && (c <=? hi) = true.
Proof. intros H. apply andb_true_iff; split; apply N.leb_le; lia. Qed.

Lemma out_of_range (lo hi c : N) : c < lo \/ hi < c -> (lo <=? c) && (c <=? hi) = false.
Proof. intros H. apply andb_false_iff. destruct H; [left|right]; apply N.leb_gt; lia. Qed.

Lemma b64_value_char (v : N) : v < 64 -> b64_value (b64_char v) = Some v.
Proof.
  intros H. unfold b64_char, b64_value.
  destruct (N.ltb_spec v 26).
  { rewrite in_range by lia. f_equal. lia. }
  destruct (N.ltb_spec v 52).
  { rewrite out_of_range, in_range by lia. f_equal. lia. }
  destruct (N.ltb_spec v 62).
  { rewrite !out_of_range, in_range by lia. f_equal. lia. }
  destruct (N.eqb_spec v 62) as [->|Hne]; [reflexivity|].
  assert (v = 63) as -> by lia. reflexivity.
Qed.

Lemma filter_encode (l : list N) :
  filter (fun c => negb (is_ascii_whitespace c)) (b64_encode l) = b64_encode l.
Proof.
  induction l as [| | |a b c rest IH] using list_ind3;
    cbn [b64_encode filter]; rewrite ?b64_char_not_space; cbn [negb];
    try reflexivity.
  now rewrite IH.
Qed.

Lemma sextets_length (l : list N) :
  ((length (b64_sextets l) + length (b64_padding l)) mod 4 = 0)%nat /\
  (length (b64_sextets l) mod 4 <> 1)%nat /\
  (b64_padding l = [] \/ b64_padding l = [pad_char] \/ b64_padding l = [pad_char; pad_char]).
Proof.
  induction l as [| | |a b c rest IH] using list_ind3; cbn [b64_sextets b64_padding length].
  - repeat split; auto; cbn; lia.
  - repeat split; auto; cbn; lia.
  - repeat split; auto; cbn; lia.
  - destruct IH as (H1 & H2 & H3). repeat split; auto.
    + replace (S (S (S (S (length (b64_sextets rest))))) + length (b64_padding rest))%nat
        with (length (b64_sextets rest) + length (b64_padding rest) + 1 * 4)%nat by lia.
      now rewrite Nat.Div0.mod_add.
    + replace (S (S (S (S (length (b64_sextets rest))))))
        with (length (b64_sextets rest) + 1 * 4)%nat by lia.
      now rewrite Nat.Div0.mod_add.
Qed.

Lemma strip_padding_chars (vs : list N) (pad : jsstring) :
  (pad = [] \/ pad = [pad_char] \/ pad = [pad_char; pad_char]) ->
  (length (map b64_char vs ++ pad) mod 4 = 0)%nat ->
  strip_padding (map b64_char vs ++ pad) = map b64_char vs.
Proof.
  intros Hpad Hlen. unfold strip_padding. rewrite Hlen. cbn [Nat.eqb].
  rewrite rev_app_distr.
  assert (Hrev : forall r, rev (map b64_char vs) = r ->
             match r with
             | c :: _ => (c =? pad_char) = false
             | [] => vs = []
             end).
  { intros r <-. destruct vs as [|v vs'] using rev_ind; [reflexivity|].
    rewrite map_app, rev_app_distr. cbn. apply b64_char_not_pad. }
  destruct Hpad as [-> | [-> | ->]]; cbn [rev app].
  - rewrite app_nil_r.
    specialize (Hrev _ eq_refl).
    destruct (rev (map b64_char vs)) as [|c r] eqn:E.
    + reflexivity.
    + now rewrite Hrev.
  - rewrite N.eqb_refl.
    specialize (Hrev _ eq_refl).
    destruct (rev (map b64_char vs)) as [|c r] eqn:E.
    + subst vs. reflexivity.
    + rewrite Hrev, <- E. apply rev_involutive.
  - rewrite !N.eqb_refl. apply rev_involutive.
Qed.

Lemma b64_values_chars (vs : list N) :
  Forall (fun v => v < 64) vs -> b64_values (map b64_char vs) = Some vs.
Proof.
  induction 1 as [|v vs Hv _ IH]; cbn [map b64_values]; [reflexivity|].
  now rewrite (b64_value_char _ Hv), IH.
Qed.

Lemma sextets_bounded (l : list N) :
  Forall (fun a => a < 256) l -> Forall (fun v => v < 64) (b64_sextets l).
Proof.
  induction l as [| | |a b c rest IH] using list_ind3; intros H;
    cbn [b64_sextets].
  - constructor.
  - inversion_clear H as [|? ? Ha _].
    pose proof (div_lt_bound a 4 64).
    pose proof (N.mod_lt a 4).
    repeat constructor; lia.
  - inversion_clear H as [|? ? Ha H']. inversion_clear H' as [|? ? Hb _].
    pose proof (div_lt_bound a 4 64).
    pose proof (div_lt_bound b 16 16).
    pose proof (N.mod_lt a 4). pose proof (N.mod_lt b 16).
    repeat constructor; lia.
  - inversion_clear H as [|? ? Ha H']. inversion_clear H' as [|? ? Hb H''].
    inversion_clear H'' as [|? ? Hc Hrest].
    pose proof (div_lt_bound a 4 64).
    pose proof (div_lt_bound b 16 16).
    pose proof (div_lt_bound c 64 4).
    pose proof (N.mod_lt a 4). pose proof (N.mod_lt b 16). pose proof (N.mod_lt c 64).
    repeat (constructor; [lia|]). auto.
Qed.

Lemma group_1 a b : b < 256 -> a / 4 * 4 + (a mod 4 * 16 + b / 16) / 16 = a.
Proof.
  intros Hb. rewrite div_add_small by (apply div_lt_bound; lia).
  apply div_mod_eq; lia.
Qed.

Lemma group_2 a b c : b < 256 -> c < 256 ->
  (a mod 4 * 16 + b / 16) mod 16 * 16 + (b mod 16 * 4 + c / 64) / 4 = b.
Proof.
  intros Hb Hc.
  rewrite mod_add_small by (apply div_lt_bound; lia).
  rewrite div_add_small by (apply div_lt_bound; lia).
  apply div_mod_eq; lia.
Qed.

Lemma group_3 b c : c < 256 -> (b mod 16 * 4 + c / 64) mod 4 * 64 + c mod 64 = c.
Proof.
  intros Hc. rewrite mod_add_small by (apply div_lt_bound; lia).
  apply div_mod_eq; lia.
Qed.

Lemma groups_sextets (l : list N) :
  Forall (fun a => a < 256) l -> b64_groups (b64_sextets l) = l.
Proof.
  induction l as [| | |a b c rest IH] using list_ind3; intros H;
    cbn [b64_sextets b64_groups].
  - reflexivity.
  - f_equal. replace (a mod 4 * 16) with (a mod 4 * 16 + 0 / 16) by (cbn; lia).
    apply group_1. lia.
  - inversion_clear H as [|? ? Ha H']. inversion_clear H' as [|? ? Hb _].
    f_equal; [apply group_1; assumption|]. f_equal.
    replace (b mod 16 * 4) with (b mod 16 * 4 + 0 / 64) by (cbn; lia).
    apply group_2; lia.
  - inversion_clear H as [|? ? Ha H']. inversion_clear H' as [|? ? Hb H''].
    inversion_clear H'' as [|? ? Hc Hrest].
    rewrite group_1, group_2, group_3, IH by assumption. reflexivity.
Qed.

(** [atob] undoes [btoa] on every binary string. *)
Lemma atob_encode (l : list N) :
  Forall (fun a => a < 256) l -> atob (b64_encode l) = Some l.
Proof.
  intros H. unfold atob. rewrite filter_encode, b64_encode_split.
  destruct (sextets_length l) as (H1 & H2 & H3).
  rewrite strip_padding_chars; [| assumption | now rewrite length_app, length_map].
  rewrite length_map.
  destruct (length (b64_sextets l) mod 4 =? 1)%nat eqn:E;
    [apply Nat.eqb_eq in E; contradiction|].
  rewrite b64_values_chars by now apply sextets_bounded.
  cbn [option_map]. now rewrite groups_sextets.
Qed.

Lemma btoa_binary (bs : bytes) :
  btoa (Utils.binary_string bs) = Some (b64_encode (Utils.binary_string bs)).
Proof.
  unfold btoa, Utils.binary_string.
  replace (forallb (fun c => c <=? 255) (map b2n bs)) with true; [reflexivity|].
  symmetry. apply forallb_forall. intros c Hc. apply in_map_iff in Hc.
  destruct Hc as (b & <- & _). apply N.leb_le. pose proof (b2n_lt b). lia.
Qed.

Lemma binary_string_bounded (bs : bytes) :
  Forall (fun a => a < 256) (Utils.binary_string bs).
Proof.
  apply Forall_forall. intros c Hc. apply in_map_iff in Hc.
  destruct Hc as (b & <- & _). apply b2n_lt.
Qed.

End Base64Facts.

Module Utf8Facts.
Import JS BytesFacts Notions.


(** ** Bit operations as arithmetic *)

Lemma land_shiftl_low (x k y : N) : y < 2 ^ k -> N.land (x * 2 ^ k) y = 0.
Proof.
  intros Hy. apply N.bits_inj. intros n.
  rewrite N.land_spec, N.bits_0.
  destruct (N.lt_ge_cases n k) as [Hn|Hn].
  - now rewrite N.mul_pow2_bits_low.
  - rewrite <- (N.mod_small y (2 ^ k)) by exact Hy.
    rewrite N.mod_pow2_bits_high by exact Hn. apply andb_false_r.
Qed.

Lemma lor_disjoint (a b : N) : N.land a b = 0 -> N.lor a b = a + b.
Proof.
  intros H. rewrite (N.add_nocarry_lxor _ _ H).
  apply N.bits_inj. intros n. rewrite N.lor_spec, N.lxor_spec.
  assert (Hn : N.testbit (N.land a b) n = false) by (rewrite H; apply N.bits_0).
  rewrite N.land_spec in Hn.
  destruct (N.testbit a n), (N.testbit b n); try reflexivity; discriminate.
Qed.

Lemma lor_high (x k y : N) : y < 2 ^ k -> N.lor (x * 2 ^ k) y = x * 2 ^ k + y.
Proof. intros H. apply lor_disjoint, land_shiftl_low, H. Qed.

Lemma lor_C0 (y : N) : y < 64 -> N.lor 0xC0 y = 192 + y.
Proof. intros H. apply (lor_high 3 6 y H). Qed.

Lemma lor_80 (y : N) : y < 64 -> N.lor 0x80 y = 128 + y.
Proof. intros H. apply (lor_high 1 7 y). change (2 ^ 7) with 128. lia. Qed.

Lemma lor_E0 (y : N) : y < 16 -> N.lor 0xE0 y = 224 + y.
Proof. intros H. apply (lor_high 7 5 y). change (2 ^ 5) with 32. lia. Qed.

Lemma lor_F0 (y : N) : y < 8 -> N.lor 0xF0 y = 240 + y.
Proof. intros H. apply (lor_high 15 4 y). change (2 ^ 4) with 16. lia. Qed.

Lemma land_3F (b : N) : N.land b 0x3F = b mod 64.
Proof. apply (N.land_ones b 6). Qed.

Lemma land_1F (b : N) : N.land b 0x1F = b mod 32.
Proof. apply (N.land_ones b 5). Qed.

Lemma land_F (b : N) : N.land b 0xF = b mod 16.
Proof. apply (N.land_ones b 4). Qed.

Lemma land_7 (b : N) : N.land b 0x7 = b mod 8.
Proof. apply (N.land_ones b 3). Qed.

Lemma shiftr_6 (a : N) : N.shiftr a 6 = a / 64.
Proof. apply (N.shiftr_div_pow2 a 6). Qed.

Lemma shiftr_12 (a : N) : N.shiftr a 12 = a / 4096.
Proof. apply (N.shiftr_div_pow2 a 12). Qed.

Lemma shiftr_18 (a : N) : N.shiftr a 18 = a / 262144.
Proof. apply (N.shiftr_div_pow2 a 18). Qed.

Lemma shift_in (cp b : N) :
  N.lor (N.shiftl cp 6) (N.land b 0x3F) = cp * 64 + b mod 64.
Proof.
  rewrite land_3F, N.shiftl_mul_pow2. apply (lor_high cp 6).
  change (2 ^ 6) with 64. apply N.mod_lt. lia.
Qed.

(** ** The encoder in arithmetic form *)

Lemma encode_1 (cp : N) : cp < 0x80 -> utf8_encode_scalar cp = [n2b cp].
Proof. intros H. unfold utf8_encode_scalar. destruct (N.ltb_spec cp 0x80); [reflexivity|lia]. Qed.

Lemma encode_2 (cp : N) :
  0x80 <= cp < 0x800 ->
  utf8_encode_scalar cp = [n2b (192 + cp / 64); n2b (128 + cp mod 64)].
Proof.
  intros H. unfold utf8_encode_scalar.
  destruct (N.ltb_spec cp 0x80); [lia|].
  destruct (N.ltb_spec cp 0x800); [|lia].
  rewrite land_3F, shiftr_6, lor_C0, lor_80 by lia. reflexivity.
Qed.

Lemma encode_3 (cp : N) :
  0x800 <= cp < 0x10000 ->
  utf8_encode_scalar cp =
  [n2b (224 + cp / 4096); n2b (128 + (cp / 64) mod 64); n2b (128 + cp mod 64)].
Proof.
  intros H. unfold utf8_encode_scalar.
  destruct (N.ltb_spec cp 0x80); [lia|].
  destruct (N.ltb_spec cp 0x800); [lia|].
  destruct (N.ltb_spec cp 0x10000); [|lia].
  rewrite !land_3F, shiftr_6, shiftr_12, lor_E0, !lor_80 by lia. reflexivity.
Qed.

Lemma encode_4 (cp : N) :
  0x10000 <= cp < 0x110000 ->
  utf8_encode_scalar cp =
  [n2b (240 + cp / 262144); n2b (128 + (cp / 4096) mod 64);
   n2b (128 + (cp / 64) mod 64); n2b (128 + cp mod 64)].
Proof.
  intros H. unfold utf8_encode_scalar.
  destruct (N.ltb_spec cp 0x80); [lia|].
  destruct (N.ltb_spec cp 0x800); [lia|].
  destruct (N.ltb_spec cp 0x10000); [lia|].
  rewrite !land_3F, shiftr_6, shiftr_12, shiftr_18, lor_F0, !lor_80 by lia.
  reflexivity.
Qed.

(** ** The decoder on one encoded scalar value *)

Ltac cmp :=
  repeat match goal with
    | |- context [?a <=? ?b] => destruct (N.leb_spec a b); try lia
    | |- context [?a <? ?b] => destruct (N.ltb_spec a b); try lia
    | |- context [?a =? ?b] => destruct (N.eqb_spec a b); try lia
    end.


Lemma lead_1 (x : N) : x < 128 -> utf8_lead x = ([x], utf8_init).
Proof. intros H. unfold utf8_lead. cmp. reflexivity. Qed.

Lemma lead_2 (x : N) :
  2 <= x < 32 -> utf8_lead (192 + x) = ([], open_state x 1 0x80 0xBF).
Proof.
  intros H. unfold utf8_lead. rewrite land_1F.
  replace ((192 + x) mod 32) with x by lia. cmp. reflexivity.
Qed.

Lemma lead_3 (x : N) :
  x < 16 ->
  utf8_lead (224 + x) =
  ([], open_state x 2 (if x =? 0 then 0xA0 else 0x80) (if x =? 13 then 0x9F else 0xBF)).
Proof.
  intros H. unfold utf8_lead. rewrite land_F.
  replace ((224 + x) mod 16) with x by lia.
  replace (224 + x =? 224) with (x =? 0)
    by (destruct (N.eqb_spec x 0), (N.eqb_spec (224 + x) 224); lia || reflexivity).
  replace (224 + x =? 237) with (x =? 13)
    by (destruct (N.eqb_spec x 13), (N.eqb_spec (224 + x) 237); lia || reflexivity).
  destruct (N.leb_spec (224 + x) 127); [lia|].
  destruct (N.leb_spec (224 + x) 223); [lia|].
  rewrite andb_false_r.
  destruct (N.leb_spec 224 (224 + x)); [|lia].
  destruct (N.leb_spec (224 + x) 239); [|lia].
  reflexivity.
Qed.

Lemma lead_4 (x : N) :
  x < 5 ->
  utf8_lead (240 + x) =
  ([], open_state x 3 (if x =? 0 then 0x90 else 0x80) (if x =? 4 then 0x8F else 0xBF)).
Proof.
  intros H. unfold utf8_lead. rewrite land_7.
  replace ((240 + x) mod 8) with x by lia.
  replace (240 + x =? 240) with (x =? 0)
    by (destruct (N.eqb_spec x 0), (N.eqb_spec (240 + x) 240); lia || reflexivity).
  replace (240 + x =? 244) with (x =? 4)
    by (destruct (N.eqb_spec x 4), (N.eqb_spec (240 + x) 244); lia || reflexivity).
  destruct (N.leb_spec (240 + x) 127); [lia|].
  destruct (N.leb_spec (240 + x) 223); [lia|].
  rewrite andb_false_r.
  destruct (N.leb_spec (240 + x) 239); [lia|].
  rewrite andb_false_r.
  destruct (N.leb_spec 240 (240 + x)); [|lia].
  destruct (N.leb_spec (240 + x) 244); [|lia].
  reflexivity.
Qed.

(** A continuation byte inside the boundaries. *)
Lemma continue (st : utf8_state) (y : N) :
  bytes_needed st <> 0 -> y < 64 ->
  lower_boundary st <= 128 + y <= upper_boundary st ->
  utf8_step st (128 + y) =
  (if bytes_seen st + 1 =? bytes_needed st
   then ([code_point st * 64 + y], utf8_init)
   else ([], {| code_point := code_point st * 64 + y;
                bytes_seen := bytes_seen st + 1;
                bytes_needed := bytes_needed st;
                lower_boundary := 0x80; upper_boundary := 0xBF |})).
Proof.
  intros Hn Hy Hb. unfold utf8_step. rewrite shift_in.
  replace ((128 + y) mod 64) with y by lia.
  destruct (N.eqb_spec (bytes_needed st) 0); [contradiction|].
  destruct (N.leb_spec (lower_boundary st) (128 + y)); [|lia].
  destruct (N.leb_spec (128 + y) (upper_boundary st)); [|lia].
  reflexivity.
Qed.

Lemma run_cons (st : utf8_state) (n : N) (rest : bytes) :
  n < 256 ->
  utf8_run st (n2b n :: rest) =
  (let (out, st') := utf8_step st n in out ++ utf8_run st' rest).
Proof. intros H. cbn [utf8_run]. now rewrite b2n_n2b. Qed.

Lemma step_init (n : N) : utf8_step utf8_init n = utf8_lead n.
Proof. reflexivity. Qed.

Ltac side :=
  cbn [open_state bytes_needed lower_boundary upper_boundary bytes_seen code_point];
  lia.

Lemma run_1 (x : N) (rest : bytes) :
  x < 128 -> utf8_run utf8_init (n2b x :: rest) = x :: utf8_run utf8_init rest.
Proof. intros H. rewrite run_cons, step_init, lead_1 by lia. reflexivity. Qed.

Lemma run_2 (x y : N) (rest : bytes) :
  2 <= x < 32 -> y < 64 ->
  utf8_run utf8_init (n2b (192 + x) :: n2b (128 + y) :: rest) =
  (x * 64 + y) :: utf8_run utf8_init rest.
Proof.
  intros Hx Hy. rewrite run_cons, step_init, lead_2 by lia. cbn [app].
  rewrite run_cons, continue by side. reflexivity.
Qed.

Lemma run_3 (x y z : N) (rest : bytes) :
  x < 16 -> y < 64 -> z < 64 -> (x = 0 -> 32 <= y) -> (x = 13 -> y < 32) ->
  utf8_run utf8_init (n2b (224 + x) :: n2b (128 + y) :: n2b (128 + z) :: rest) =
  ((x * 64 + y) * 64 + z) :: utf8_run utf8_init rest.
Proof.
  intros Hx Hy Hz H0 H13. rewrite run_cons, step_init, lead_3 by lia. cbn [app].
  rewrite run_cons by lia.
  rewrite continue;
    [| side | assumption
     | cbn [open_state bytes_needed lower_boundary upper_boundary];
       destruct (N.eqb_spec x 0), (N.eqb_spec x 13); cbv iota; lia].
  cbn [open_state bytes_seen bytes_needed code_point].
  change (0 + 1 =? 2) with false. cbv iota. cbn [app].
  rewrite run_cons, continue by side. reflexivity.
Qed.

Lemma run_4 (w x y z : N) (rest : bytes) :
  w < 5 -> x < 64 -> y < 64 -> z < 64 -> (w = 0 -> 16 <= x) -> (w = 4 -> x < 16) ->
  utf8_run utf8_init
    (n2b (240 + w) :: n2b (128 + x) :: n2b (128 + y) :: n2b (128 + z) :: rest) =
  (((w * 64 + x) * 64 + y) * 64 + z) :: utf8_run utf8_init rest.
Proof.
  intros Hw Hx Hy Hz H0 H4. rewrite run_cons, step_init, lead_4 by lia. cbn [app].
  rewrite run_cons by lia.
  rewrite continue;
    [| side | assumption
     | cbn [open_state bytes_needed lower_boundary upper_boundary];
       destruct (N.eqb_spec w 0), (N.eqb_spec w 4); cbv iota; lia].
  cbn [open_state bytes_seen bytes_needed code_point].
  change (0 + 1 =? 3) with false. cbv iota. cbn [app].
  rewrite run_cons, continue by side.
  cbn [bytes_seen bytes_needed code_point].
  change (0 + 1 + 1 =? 3) with false. cbv iota. cbn [app].
  rewrite run_cons, continue by side. reflexivity.
Qed.

Lemma run_scalar (cp : N) (rest : bytes) :
  scalar_ok cp ->
  utf8_run utf8_init (utf8_encode_scalar cp ++ rest) = cp :: utf8_run utf8_init rest.
Proof.
  intros [Hmax Hsur].
  destruct (N.lt_ge_cases cp 0x80) as [H1|H1].
  { rewrite encode_1 by exact H1. apply run_1, H1. }
  destruct (N.lt_ge_cases cp 0x800) as [H2|H2].
  { rewrite encode_2 by lia. cbn [app]. rewrite run_2 by lia. f_equal. lia. }
  destruct (N.lt_ge_cases cp 0x10000) as [H3|H3].
  { rewrite encode_3 by lia. cbn [app]. rewrite run_3 by lia. f_equal. lia. }
  rewrite encode_4 by lia. cbn [app]. rewrite run_4 by lia. f_equal. lia.
Qed.

Lemma utf8_decode_encode (l : list N) :
  Forall scalar_ok l -> utf8_decode (utf8_encode l) = l.
Proof.
  unfold utf8_decode, utf8_encode.
  induction 1 as [|cp l Hcp _ IH]; [reflexivity|].
  cbn [flat_map]. rewrite run_scalar by exact Hcp. now rewrite IH.
Qed.

End Utf8Facts.

Module TextFacts.
Import JS BytesFacts Utf8Facts Notions.

Lemma is_lead_spec (c : N) : is_lead c = true <-> 0xD800 <= c <= 0xDBFF.
Proof. unfold is_lead. rewrite andb_true_iff, !N.leb_le. reflexivity. Qed.

Lemma is_trail_spec (c : N) : is_trail c = true <-> 0xDC00 <= c <= 0xDFFF.
Proof. unfold is_trail. rewrite andb_true_iff, !N.leb_le. reflexivity. Qed.

Lemma is_lead_false (c : N) : is_lead c = false <-> ~ (0xD800 <= c <= 0xDBFF).
Proof. rewrite <- is_lead_spec. destruct (is_lead c); intuition congruence. Qed.

Lemma is_trail_false (c : N) : is_trail c = false <-> ~ (0xDC00 <= c <= 0xDFFF).
Proof. rewrite <- is_trail_spec. destruct (is_trail c); intuition congruence. Qed.

Lemma from_scalar_pair (c d : N) :
  0xD800 <= c <= 0xDBFF -> 0xDC00 <= d <= 0xDFFF ->
  from_scalar (0x10000 + (c - 0xD800) * 1024 + (d - 0xDC00)) = [c; d]
  /\ scalar_ok (0x10000 + (c - 0xD800) * 1024 + (d - 0xDC00)).
Proof.
  intros Hc Hd. unfold from_scalar, scalar_ok.
  destruct (N.ltb_spec (0x10000 + (c - 0xD800) * 1024 + (d - 0xDC00)) 0x10000); [lia|].
  split; [|lia]. f_equal; [|f_equal]; lia.
Qed.

Lemma from_scalar_unit (c : N) :
  c < 0x10000 -> ~ (0xD800 <= c <= 0xDBFF) -> ~ (0xDC00 <= c <= 0xDFFF) ->
  from_scalar c = [c] /\ scalar_ok c.
Proof.
  intros H Hl Ht. unfold from_scalar, scalar_ok.
  destruct (N.ltb_spec c 0x10000); [|lia]. split; [reflexivity | lia].
Qed.

(** On a well-formed string the conversion to scalar values loses
    nothing. *)
Lemma scalars_well_formed (n : nat) :
  forall s, (length s <= n)%nat -> well_formed s = true ->
            Forall scalar_ok (to_scalars s) /\ from_scalars (to_scalars s) = s.
Proof.
  induction n as [|n IH]; intros s Hlen Hwf.
  - destruct s; [split; [constructor | reflexivity] | simpl in Hlen; lia].
  - destruct s as [|c rest]; [split; [constructor | reflexivity]|].
    cbn [well_formed to_scalars] in *.
    destruct (is_lead c) eqn:Hlead.
    + destruct rest as [|d rest']; [discriminate|].
      apply andb_true_iff in Hwf. destruct Hwf as [Htrail Hwf].
      rewrite Htrail.
      apply is_lead_spec in Hlead. apply is_trail_spec in Htrail.
      destruct (from_scalar_pair c d Hlead Htrail) as [Hf Hok].
      destruct (IH rest') as [IH1 IH2]; [simpl in Hlen; lia | exact Hwf |].
      split; [constructor; assumption|].
      unfold from_scalars in *. cbn [flat_map]. rewrite Hf, IH2. reflexivity.
    + apply andb_true_iff in Hwf. destruct Hwf as [Hwf Hrest].
      apply andb_true_iff in Hwf. destruct Hwf as [Htrail Hlt].
      apply negb_true_iff in Htrail. rewrite Htrail.
      apply is_lead_false in Hlead. apply is_trail_false in Htrail.
      apply N.ltb_lt in Hlt.
      destruct (from_scalar_unit c Hlt Hlead Htrail) as [Hf Hok].
      destruct (IH rest) as [IH1 IH2]; [simpl in Hlen; lia | exact Hrest |].
      split; [constructor; assumption|].
      unfold from_scalars in *. cbn [flat_map]. rewrite Hf, IH2. reflexivity.
Qed.

(** The head of the scalar values is U+FEFF exactly when the string's
    first code unit is. *)
Lemma scalars_head (s : jsstring) :
  hd 0 s <> 0xFEFF -> strip_bom (to_scalars s) = to_scalars s.
Proof.
  destruct s as [|c rest]; [reflexivity|]. cbn [hd to_scalars]. intros Hc.
  destruct (is_lead c) eqn:Hlead.
  - apply is_lead_spec in Hlead.
    destruct rest as [|d rest']; [reflexivity|].
    destruct (is_trail d) eqn:Htrail; [|reflexivity].
    apply is_trail_spec in Htrail.
    unfold strip_bom.
    destruct (N.eqb_spec (0x10000 + (c - 0xD800) * 1024 + (d - 0xDC00)) 0xFEFF) as [E|E];
      [lia|].
    destruct (0x10000 + (c - 0xD800) * 1024 + (d - 0xDC00)) as [|p] eqn:Ecp; [reflexivity|].
    do 16 (destruct p as [p|p|]; try reflexivity); congruence.
  - destruct (is_trail c) eqn:Htrail; [reflexivity|].
    unfold strip_bom. destruct c as [|p]; [reflexivity|].
    do 16 (destruct p as [p|p|]; try reflexivity); congruence.
Qed.

(** What a decode of an encode returns, for every string. *)
Lemma decode_encode_scalars (s : jsstring) :
  well_formed s = true ->
  TextDecoder_decode (TextEncoder_encode s) = from_scalars (strip_bom (to_scalars s)).
Proof.
  intros Hwf. unfold TextDecoder_decode, TextEncoder_encode.
  destruct (scalars_well_formed (length s) s (le_n _) Hwf) as [Hok _].
  now rewrite utf8_decode_encode.
Qed.

(** [TextDecoder] undoes [TextEncoder] on a well-formed string that does
    not begin with U+FEFF. *)
Theorem decode_encode (s : jsstring) :
  well_formed s = true -> hd 0 s <> 0xFEFF ->
  TextDecoder_decode (TextEncoder_encode s) = s.
Proof.
  intros Hwf Hbom. rewrite decode_encode_scalars by exact Hwf.
  rewrite scalars_head by exact Hbom.
  apply (scalars_well_formed (length s) s (le_n _) Hwf).
Qed.

(** A leading U+FEFF does not survive. *)
Theorem decode_encode_bom (s : jsstring) :
  well_formed s = true ->
  TextDecoder_decode (TextEncoder_encode (0xFEFF :: s)) = s.
Proof.
  intros Hwf.
  assert (Hwf' : well_formed (0xFEFF :: s) = true) by (cbn; exact Hwf).
  rewrite decode_encode_scalars by exact Hwf'.
  change (to_scalars (0xFEFF :: s)) with (0xFEFF :: to_scalars s).
  cbn [strip_bom].
  apply (scalars_well_formed (length s) s (le_n _) Hwf).
Qed.

End TextFacts.

Module RunFacts.
Import JS WebCrypto Constants Utils BytesFacts Base64Facts Notions.





Ltac js_run :=
  cbv beta iota zeta delta
    [bind ret throw or_throw log getRandomValues Date_now subtle_generateKey
     subtle_deriveBits_ECDH subtle_deriveKey_HKDF subtle_deriveKey_PBKDF2
     subtle_encrypt subtle_decrypt subtle_exportKey_raw subtle_exportKey_jwk
     subtle_importKey_raw subtle_importKey_jwk JSON_stringify JSON_parse
     generateRandomBytes aad_of tag_of IV_LENGTH SALT_LENGTH KEY_SIZE PBKDF2_ITERATIONS];
  cbn [random drawn clock ticks calls fst snd iv additionalData tagLength].

Ltac js_run_in H :=
  cbv beta iota zeta delta
    [bind ret throw or_throw log getRandomValues Date_now subtle_generateKey
     subtle_deriveBits_ECDH subtle_deriveKey_HKDF subtle_deriveKey_PBKDF2
     subtle_encrypt subtle_decrypt subtle_exportKey_raw subtle_exportKey_jwk
     subtle_importKey_raw subtle_importKey_jwk JSON_stringify JSON_parse
     generateRandomBytes aad_of tag_of IV_LENGTH SALT_LENGTH KEY_SIZE PBKDF2_ITERATIONS] in H;
  cbn [random drawn clock ticks calls fst snd iv additionalData tagLength] in H.

Lemma world_eq {P : Platform} (w : World P) (r : nat -> byte) (d : nat)
      (c : nat -> N) (t : nat) (cs : list (Call P)) (d' t' : nat) (cs' : list (Call P)) :
  r = random w -> d = (drawn w + d')%nat -> c = clock w -> t = (ticks w + t')%nat ->
  cs = calls w ++ cs' ->
  {| random := r; drawn := d; clock := c; ticks := t; calls := cs |} = advance w d' t' cs'.
Proof. intros -> -> -> -> ->. reflexivity. Qed.

Ltac world :=
  apply world_eq;
  [ reflexivity
  | cbn [drawn advance]; lia
  | reflexivity
  | cbn [ticks advance]; lia
  | cbn [calls advance]; rewrite <- ?app_assoc; cbn [app]; rewrite ?app_nil_r; reflexivity ].

Lemma advance_advance {P : Platform} (w : World P) d t cs d' t' cs' :
  advance (advance w d t cs) d' t' cs' = advance w (d + d') (t + t') (cs ++ cs').
Proof. unfold advance. cbn. f_equal; try lia. now rewrite app_assoc. Qed.

Lemma advance_0 {P : Platform} (w : World P) : advance w 0 0 [] = w.
Proof.
  destruct w. unfold advance. cbn. rewrite !Nat.add_0_r, app_nil_r. reflexivity.
Qed.

Section WithPlatform.
Variable P : Platform.

Lemma bind_return {A B : Type} (c : Js P A) (k : A -> Js P B) (w w' : World P) (a : A) :
  c w = (Return a, w') -> bind c k w = k a w'.
Proof. intros H. unfold bind. now rewrite H. Qed.

Lemma bind_throw {A B : Type} (c : Js P A) (k : A -> Js P B) (w w' : World P) (e : JsError) :
  c w = (Throw e, w') -> bind c k w = (Throw e, w').
Proof. intros H. unfold bind. now rewrite H. Qed.

Lemma arrayBufferToBase64_run (bs : bytes) (w : World P) :
  arrayBufferToBase64 P bs w = (Return (b64_encode (binary_string bs)), w).
Proof. unfold arrayBufferToBase64. now rewrite btoa_binary. Qed.

Lemma base64ToArrayBuffer_run (bs : bytes) (w : World P) :
  base64ToArrayBuffer P (b64_encode (binary_string bs)) w = (Return bs, w).
Proof.
  unfold base64ToArrayBuffer, bind.
  rewrite atob_encode by apply binary_string_bounded.
  cbn. unfold binary_bytes, binary_string. now rewrite map_n2b_b2n.
Qed.

(** A string that [atob] rejects makes [base64ToArrayBuffer] throw. *)
Lemma base64ToArrayBuffer_invalid (s : jsstring) (w : World P) :
  atob s = None -> base64ToArrayBuffer P s w = (Throw InvalidCharacterError, w).
Proof. intros H. unfold base64ToArrayBuffer, bind. now rewrite H. Qed.

End WithPlatform.
End RunFacts.

Module AesGcmFacts.
Import JS WebCrypto Constants Utils AesGcm BytesFacts Base64Facts RunFacts TextFacts Notions.

Section WithPlatform.
Variable P : Platform.

Lemma next_random_length (w : World P) (n : nat) : length (next_random w n) = n.
Proof. unfold next_random. now rewrite length_map, length_seq. Qed.

(** What [encryptMessage] returns and what it does to the world. *)
Lemma encryptMessage_run (k : bytes) (m : jsstring) (aad : option bytes) (w : World P) :
  let iv := next_random w 12 in
  let ct := gcm_encrypt P k iv (aad_bytes aad) 128 (TextEncoder_encode m) in
  encryptMessage P k m aad w =
    (Return {| ciphertext := b64_encode (binary_string (iv ++ ct));
               timestamp := now w |},
     advance w 12 1
       [CallGetRandomValues 12;
        CallEncrypt k iv (aad_bytes aad) 128 (TextEncoder_encode m);
        CallDateNow (now w)]).
Proof.
  intros iv ct. unfold encryptMessage. js_run.
  rewrite arrayBufferToBase64_run. js_run.
  unfold concatUint8Arrays. cbn [concat]. rewrite app_nil_r.
  f_equal. world.
Qed.

(** What [decryptMessage] does with the base64 form of any bytes [c]. *)
Lemma decryptMessage_run (k c : bytes) (t : N) (aad : option bytes) (w : World P) :
  decryptMessage P k {| ciphertext := b64_encode (binary_string c); timestamp := t |} aad w =
    (match gcm_decrypt P k (firstn 12 c) (aad_bytes aad) 128 (skipn 12 c) with
     | Some pt => Return {| plaintext := TextDecoder_decode pt; dm_timestamp := t |}
     | None => Throw OperationError
     end,
     advance w 0 0 [CallDecrypt k (firstn 12 c) (aad_bytes aad) 128 (skipn 12 c)]).
Proof.
  unfold decryptMessage. cbn [ciphertext timestamp].
  erewrite bind_return by apply base64ToArrayBuffer_run.
  js_run. fold (aad_bytes aad). unfold IV_LENGTH.
  destruct (gcm_decrypt P k (firstn 12 c) (aad_bytes aad) 128 (skipn 12 c));
    (f_equal; world).
Qed.

Lemma split_iv (iv ct : bytes) :
  length iv = 12%nat -> firstn 12 (iv ++ ct) = iv /\ skipn 12 (iv ++ ct) = ct.
Proof.
  intros H. split.
  - rewrite <- H, firstn_app, Nat.sub_diag, firstn_all. cbn. apply app_nil_r.
  - rewrite <- H, skipn_app, Nat.sub_diag, skipn_all. reflexivity.
Qed.

End WithPlatform.
End AesGcmFacts.

Module ToyFacts.
Import JS WebCrypto Toy BytesFacts Notions.

Lemma b2n_n2b_mod (n : N) : b2n (n2b n) = n mod 256.
Proof.
  unfold n2b. destruct (Byte.of_N (n mod 256)) as [b|] eqn:E.
  - now apply Byte.to_of_N.
  - apply Byte.of_N_None_iff in E. pose proof (N.mod_lt n 256). lia.
Qed.

Lemma le_bytes_length (len : nat) (n : N) : length (le_bytes len n) = len.
Proof. revert n. induction len as [|len IH]; intros n; cbn; [reflexivity | now rewrite IH]. Qed.

Lemma le_value_le_bytes (len : nat) (n : N) :
  le_value (le_bytes len n) = n mod 256 ^ N.of_nat len.
Proof.
  revert n. induction len as [|len IH]; intros n.
  - cbn. now rewrite N.mod_1_r.
  - cbn [le_bytes le_value]. rewrite IH, b2n_n2b_mod.
    rewrite Nat2N.inj_succ, N.pow_succ_r'.
    now rewrite N.Div0.mod_mul_r.
Qed.

Lemma le_value_small (len : nat) (n : N) :
  N.size n <= 8 * N.of_nat len -> le_value (le_bytes len n) = n.
Proof.
  intros H. rewrite le_value_le_bytes. apply N.mod_small.
  apply N.lt_le_trans with (2 ^ N.size n); [apply N.size_gt|].
  change 256 with (2 ^ 8). rewrite <- N.pow_mul_r.
  apply N.pow_le_mono_r; [lia | exact H].
Qed.

Lemma toy_ecdh_agree (a b : N) : toy_ecdh a (toy_public_of b) = toy_ecdh b (toy_public_of a).
Proof.
  unfold toy_ecdh, toy_public_of. rewrite <- !N.pow_mul_r. now rewrite N.mul_comm.
Qed.

Lemma toy_raw_roundtrip (pk : N) : toy_import_raw (toy_export_raw pk) = Some pk.
Proof.
  unfold toy_export_raw, toy_import_raw.
  rewrite le_bytes_length.
  destruct (Nat.leb_spec 64 (Nat.max 64 (N.to_nat (N.size pk)))); [|lia].
  f_equal. apply le_value_small. lia.
Qed.

Lemma unlit_lit (s : string) : unlit (lit s) = s.
Proof.
  unfold unlit, lit. rewrite map_map.
  rewrite (map_ext _ (fun a => a)) by apply ascii_N_embedding.
  rewrite map_id. apply string_of_list_ascii_of_string.
Qed.

Lemma to_uint_nonnil (n : N) : N.to_uint n <> Decimal.Nil.
Proof. destruct n; [discriminate | apply DecimalPos.Unsigned.to_uint_nonnil]. Qed.

Lemma toy_json_roundtrip (j : N) : toy_parse (toy_stringify j) = Some j.
Proof.
  unfold toy_stringify, toy_parse, number_toString. cbn [app].
  rewrite rev_app_distr. cbn [rev app]. rewrite rev_involutive, unlit_lit.
  rewrite NilZero.usu by apply to_uint_nonnil.
  cbn [option_map]. now rewrite DecimalN.Unsigned.of_to.
Qed.

(** A string without surrogates is well formed. *)
Lemma low_units_well_formed (s : jsstring) :
  Forall (fun c => c < 0xD800) s -> well_formed s = true.
Proof.
  induction 1 as [|c s Hc _ IH]; [reflexivity|].
  cbn [well_formed]. unfold is_lead, is_trail.
  destruct (N.leb_spec 0xD800 c); [lia|]. cbn [andb].
  destruct (N.leb_spec 0xDC00 c); [lia|]. cbn [andb negb].
  destruct (N.ltb_spec c 0x10000); [|lia]. exact IH.
Qed.

Lemma lit_low (s : string) : Forall (fun c => c < 0xD800) (lit s).
Proof.
  apply Forall_forall. intros c Hc. apply in_map_iff in Hc.
  destruct Hc as (a & <- & _). pose proof (N_ascii_bounded a). lia.
Qed.

Lemma toy_json_text (j : N) :
  well_formed (toy_stringify j) = true /\ hd 0 (toy_stringify j) <> 0xFEFF.
Proof.
  split; [|cbn; discriminate].
  apply low_units_well_formed. unfold toy_stringify, number_toString.
  apply Forall_app. split; [repeat constructor; lia|].
  apply Forall_app. split; [apply lit_low | repeat constructor; lia].
Qed.

Lemma unshift_shift (c : N) (l : bytes) : c < 256 -> unshift_with c (shift_with c l) = l.
Proof.
  intros Hc. unfold unshift_with, shift_with. rewrite map_map.
  rewrite <- (map_id l) at 2. apply map_ext. intros b.
  rewrite b2n_n2b_mod. rewrite <- (n2b_b2n b) at 2.
  pose proof (b2n_lt b). unfold n2b at 1 2.
  replace (((b2n b + c) mod 256 + 256 - c) mod 256) with (b2n b mod 256) by lia.
  reflexivity.
Qed.

Lemma bytes_eqb_refl (a : bytes) : bytes_eqb a a = true.
Proof.
  unfold bytes_eqb. rewrite Nat.eqb_refl. cbn [andb].
  induction a as [|b a IH]; cbn; [reflexivity|]. now rewrite N.eqb_refl.
Qed.

Lemma shift_length (c : N) (l : bytes) : length (shift_with c l) = length l.
Proof. apply length_map. Qed.

Lemma toy_gcm_length k iv aad t pt :
  length (toy_gcm_encrypt k iv aad t pt) = (length pt + N.to_nat (t / 8))%nat.
Proof.
  unfold toy_gcm_encrypt, toy_tag, digest.
  now rewrite length_app, shift_length, le_bytes_length.
Qed.

Lemma toy_gcm_correct k iv aad t pt :
  toy_gcm_decrypt k iv aad t (toy_gcm_encrypt k iv aad t pt) = Some pt.
Proof.
  unfold toy_gcm_decrypt. rewrite toy_gcm_length.
  destruct (Nat.ltb_spec (length pt + N.to_nat (t / 8)) (N.to_nat (t / 8))); [lia|].
  replace (length pt + N.to_nat (t / 8) - N.to_nat (t / 8))%nat
    with (length (shift_with (keystream k iv) pt))
    by (rewrite shift_length; lia).
  unfold toy_gcm_encrypt.
  rewrite firstn_app, Nat.sub_diag, firstn_all, skipn_app, Nat.sub_diag, skipn_all.
  cbn [firstn skipn app]. rewrite app_nil_r.
  rewrite unshift_shift by apply b2n_lt.
  now rewrite bytes_eqb_refl.
Qed.

(** The small platform satisfies the laws. *)
Lemma laws : Laws platform.
Proof.
  constructor; cbn [platform PrivateKey PublicKey Json public_of ecdh_bits export_raw
                      import_raw export_jwk import_jwk json_stringify json_parse
                      sha256 gcm_encrypt gcm_decrypt].
  - apply toy_ecdh_agree.
  - apply toy_raw_roundtrip.
  - reflexivity.
  - apply toy_json_roundtrip.
  - apply toy_json_text.
  - intros m. apply le_bytes_length.
  - apply toy_gcm_correct.
  - apply toy_gcm_length.
Qed.

Lemma shift_unshift (c : N) (l : bytes) : c < 256 -> shift_with c (unshift_with c l) = l.
Proof.
  intros Hc. unfold unshift_with, shift_with. rewrite map_map.
  rewrite <- (map_id l) at 2. apply map_ext. intros b.
  rewrite b2n_n2b_mod. rewrite <- (n2b_b2n b) at 2.
  pose proof (b2n_lt b). unfold n2b at 1 2.
  replace (((b2n b + 256 - c) mod 256 + c) mod 256) with (b2n b mod 256) by lia.
  reflexivity.
Qed.

Lemma bytes_eqb_eq (a b : bytes) : bytes_eqb a b = true -> a = b.
Proof.
  unfold bytes_eqb. intros H. apply andb_true_iff in H. destruct H as [Hl H].
  apply Nat.eqb_eq in Hl. revert b Hl H.
  induction a as [|x a IH]; intros [|y b] Hl H; try discriminate; [reflexivity|].
  cbn [combine forallb fst snd] in H. apply andb_true_iff in H. destruct H as [Hx H].
  apply N.eqb_eq, b2n_inj in Hx. subst y. f_equal.
  apply IH; [cbn [length] in Hl; lia | exact H].
Qed.

(** The toy cipher releases a plaintext only for its own encryption of
    it. *)
Lemma toy_authenticated k iv aad t data pt :
  toy_gcm_decrypt k iv aad t data = Some pt -> toy_gcm_encrypt k iv aad t pt = data.
Proof.
  unfold toy_gcm_decrypt, toy_gcm_encrypt.
  destruct (length data <? N.to_nat (t / 8))%nat; [discriminate|].
  destruct (bytes_eqb _ _) eqn:E; [|discriminate].
  intros H. injection H as <-. apply bytes_eqb_eq in E.
  rewrite shift_unshift by apply b2n_lt. rewrite <- E.
  apply firstn_skipn.
Qed.

Lemma authentic : authenticated platform.
Proof. intros k iv aad t c pt. apply toy_authenticated. Qed.

End ToyFacts.

Module PlainFacts.
Import JS WebCrypto Toy BytesFacts ToyFacts Notions.

Lemma plain_laws : Laws Plain.platform.
Proof.
  constructor; cbn [Plain.platform PrivateKey PublicKey Json public_of ecdh_bits export_raw
                      import_raw export_jwk import_jwk json_stringify json_parse
                      sha256 gcm_encrypt gcm_decrypt].
  - apply toy_ecdh_agree.
  - apply toy_raw_roundtrip.
  - reflexivity.
  - apply toy_json_roundtrip.
  - apply toy_json_text.
  - intros m. reflexivity.
  - apply toy_gcm_correct.
  - apply toy_gcm_length.
Qed.

Lemma plain_authentic : authenticated Plain.platform.
Proof. intros k iv aad t c pt. apply toy_authenticated. Qed.

(** A state that recurs after [p] steps is reached again after any
    multiple of [p]. *)
Lemma iter_period {A : Type} (f : A -> A) (x : A) (p q r : N) :
  N.iter p f x = x -> N.iter (p * q + r) f x = N.iter r f x.
Proof.
  intros Hp. rewrite N.add_comm, N.iter_add. f_equal.
  induction q as [|q IH] using N.peano_ind.
  - now rewrite N.mul_0_r.
  - rewrite N.mul_succ_r, N.add_comm, N.iter_add, IH. exact Hp.
Qed.

(** The backup keys of two passwords on this platform, with the salt of
    [Plain.world]: the rounds of PBKDF2 recur after 512 steps, and
    309999 = 512 * 605 + 239. *)
Lemma key_of_correct_horse :
  backup_key Plain.platform (lit "correct horse") (backup_salt Plain.world)
  = xc0 :: repeat x00 31.
Proof.
  unfold backup_key, pbkdf2. change ((32 + 31) / 32)%nat with 1%nat.
  cbn [pbkdf2_blocks]. unfold pbkdf2_F.
  replace (310000 - 1) with (512 * 605 + 239) by reflexivity.
  rewrite iter_period by (vm_compute; reflexivity).
  vm_compute. reflexivity.
Qed.

Lemma key_of_wrong :
  backup_key Plain.platform (lit "wrong") (backup_salt Plain.world)
  = x40 :: repeat x00 31.
Proof.
  unfold backup_key, pbkdf2. change ((32 + 31) / 32)%nat with 1%nat.
  cbn [pbkdf2_blocks]. unfold pbkdf2_F.
  replace (310000 - 1) with (512 * 605 + 239) by reflexivity.
  rewrite iter_period by (vm_compute; reflexivity).
  vm_compute. reflexivity.
Qed.

End PlainFacts.

Module EcdhFacts.
Import JS WebCrypto Constants Utils Keys Ecdh BytesFacts RunFacts Notions.

Lemma string_lt_irrefl (a : jsstring) : string_lt a a = false.
Proof.
  induction a as [|x a IH]; [reflexivity|]. cbn [string_lt].
  now rewrite N.ltb_irrefl.
Qed.

(** On two different strings exactly one of [a < b] and [b < a] holds. *)
Lemma string_lt_total (a b : jsstring) :
  a <> b -> string_lt a b = negb (string_lt b a).
Proof.
  revert b. induction a as [|x a IH]; intros [|y b] Hne; cbn [string_lt negb];
    try reflexivity; [congruence|].
  destruct (N.ltb_spec x y), (N.ltb_spec y x); try lia; try reflexivity.
  assert (x = y) by lia. subst y. apply IH. congruence.
Qed.


Section WithPlatform.
Variable P : Platform.


Lemma deriveBidirectionalKeys_run (kp : KeyPair P) (pk : PublicKey P)
      (mine theirs : jsstring) (w : World P) :
  let secret := ecdh_bits P (privateKey kp) pk in
  deriveBidirectionalKeys P kp pk mine theirs w =
    (Return {| sendKey := if string_lt mine theirs then key1 P secret else key2 P secret;
               receiveKey := if string_lt mine theirs then key2 P secret else key1 P secret |},
     advance w 0 0
       [CallDeriveBits (privateKey kp) pk;
        CallHKDF secret zero_salt info1;
        CallHKDF secret zero_salt info2]).
Proof.
  intros secret. unfold deriveBidirectionalKeys, deriveSessionKey, deriveSharedSecret.
  js_run. cbn [buffer fresh]. f_equal. world.
Qed.

End WithPlatform.

(** C3, as the code has it: one ECDH agreement, then two HKDF derivations
    from that one secret with the zero salt and the labels
    [chit-chat-session-key-1] and [chit-chat-session-key-2]; the party whose
    fingerprint is the smaller string takes the first key for sending and the
    second for receiving, any other party the opposite. *)
Theorem deriveBidirectionalKeys_labels (P : Platform) (kp : KeyPair P) (pk : PublicKey P)
        (mine theirs : jsstring) (w : World P) :
  let secret := ecdh_bits P (privateKey kp) pk in
  let k1 := hkdf P secret (repeat x00 32)
                 (TextEncoder_encode (lit "chit-chat-session-key-1")) 32 in
  let k2 := hkdf P secret (repeat x00 32)
                 (TextEncoder_encode (lit "chit-chat-session-key-2")) 32 in
  fst (deriveBidirectionalKeys P kp pk mine theirs w) =
    Return (if string_lt mine theirs
            then {| sendKey := k1; receiveKey := k2 |}
            else {| sendKey := k2; receiveKey := k1 |})
  /\ calls (snd (deriveBidirectionalKeys P kp pk mine theirs w)) =
     calls w ++
       [CallDeriveBits (privateKey kp) pk;
        CallHKDF secret (repeat x00 32) (TextEncoder_encode (lit "chit-chat-session-key-1"));
        CallHKDF secret (repeat x00 32) (TextEncoder_encode (lit "chit-chat-session-key-2"))]
  /\ TextEncoder_encode (lit "chit-chat-session-key-1")
     <> TextEncoder_encode (lit "chit-chat-session-key-2").
Proof.
  intros secret k1 k2. rewrite deriveBidirectionalKeys_run. cbn [fst snd calls advance].
  split; [|split].
  - destruct (string_lt mine theirs); reflexivity.
  - reflexivity.
  - vm_compute. discriminate.
Qed.

(** C3, counterexample: Alice's fingerprint is the smaller one, and the key
    she sends with is not the key HKDF gives under the label
    [session-key-1]; the labels of the two derivations are the prefixed
    ones. *)
Lemma labels_are_prefixed :
  let run := deriveBidirectionalKeys Toy.platform Toy.alice (publicKey Toy.bob)
               (fingerprint Toy.alice) (fingerprint Toy.bob) (Toy.world 1000 1) in
  let secret := ecdh_bits Toy.platform (privateKey Toy.alice) (publicKey Toy.bob) in
  string_lt (fingerprint Toy.alice) (fingerprint Toy.bob) = true
  /\ option_map sendKey (match fst run with Return k => Some k | Throw _ => None end)
     <> Some (hkdf Toy.platform secret (repeat x00 32)
                   (TextEncoder_encode (lit "session-key-1")) 32)
  /\ calls (snd run) =
     [CallDeriveBits (privateKey Toy.alice) (publicKey Toy.bob);
      CallHKDF secret (repeat x00 32) (TextEncoder_encode (lit "chit-chat-session-key-1"));
      CallHKDF secret (repeat x00 32) (TextEncoder_encode (lit "chit-chat-session-key-2"))].
Proof.
  intros run secret. subst run. rewrite deriveBidirectionalKeys_run.
  cbn [fst snd calls advance Toy.world app option_map].
  split; [vm_compute; reflexivity|]. split; [|reflexivity].
  vm_compute. discriminate.
Qed.

(** C2, as the code has it: two parties holding each other's public key
    agree on the directional keys whenever their fingerprints differ; with
    equal fingerprints neither fails and both take the second key for
    sending and the first for receiving. *)
Theorem deriveBidirectionalKeys_symmetric (P : Platform) (L : Laws P)
        (a b : KeyPair P) (fa fb : jsstring) (wa wb : World P) :
  publicKey a = public_of P (privateKey a) ->
  publicKey b = public_of P (privateKey b) ->
  exists ka kb,
    fst (deriveBidirectionalKeys P a (publicKey b) fa fb wa) = Return ka /\
    fst (deriveBidirectionalKeys P b (publicKey a) fb fa wb) = Return kb /\
    (fa <> fb -> sendKey ka = receiveKey kb /\ receiveKey ka = sendKey kb) /\
    (fa = fb -> sendKey ka = sendKey kb /\ receiveKey ka = receiveKey kb).
Proof.
  intros Ha Hb. rewrite !deriveBidirectionalKeys_run. cbn [fst].
  do 2 eexists. split; [reflexivity|]. split; [reflexivity|].
  cbn [sendKey receiveKey].
  assert (E : ecdh_bits P (privateKey b) (publicKey a)
              = ecdh_bits P (privateKey a) (publicKey b)).
  { rewrite Ha, Hb. apply (ecdh_agree P L). }
  rewrite E. split.
  - intros Hne. rewrite (string_lt_total fa fb Hne).
    destruct (string_lt fb fa); split; reflexivity.
  - intros ->. rewrite string_lt_irrefl. split; reflexivity.
Qed.

Lemma deriveBidirectionalKeys_symmetric_witness :
  exists ka kb,
    fst (deriveBidirectionalKeys Toy.platform Toy.alice (publicKey Toy.bob)
           (fingerprint Toy.alice) (fingerprint Toy.bob) (Toy.world 1000 1)) = Return ka /\
    fst (deriveBidirectionalKeys Toy.platform Toy.bob (publicKey Toy.alice)
           (fingerprint Toy.bob) (fingerprint Toy.alice) (Toy.world 2000 1)) = Return kb /\
    (fingerprint Toy.alice <> fingerprint Toy.bob ->
     sendKey ka = receiveKey kb /\ receiveKey ka = sendKey kb) /\
    (fingerprint Toy.alice = fingerprint Toy.bob ->
     sendKey ka = sendKey kb /\ receiveKey ka = receiveKey kb).
Proof.
  apply (deriveBidirectionalKeys_symmetric Toy.platform ToyFacts.laws Toy.alice Toy.bob);
    reflexivity.
Defined.

(** C2, counterexample: with equal fingerprint strings the key Alice sends
    with is not the key Bob receives with. *)
Lemma equal_fingerprints_disagree :
  let f := lit "04AB-CDEF-0123-4567" in
  exists ka kb,
    fst (deriveBidirectionalKeys Toy.platform Toy.alice (publicKey Toy.bob) f f
           (Toy.world 1000 1)) = Return ka /\
    fst (deriveBidirectionalKeys Toy.platform Toy.bob (publicKey Toy.alice) f f
           (Toy.world 1000 1)) = Return kb /\
    sendKey ka <> receiveKey kb.
Proof.
  intros f. rewrite !deriveBidirectionalKeys_run. cbn [fst].
  do 2 eexists. split; [reflexivity|]. split; [reflexivity|].
  subst f. rewrite string_lt_irrefl. cbn [sendKey receiveKey].
  vm_compute. discriminate.
Qed.

End EcdhFacts.

Module MessageFacts.
Import JS WebCrypto Constants Utils AesGcm BytesFacts Base64Facts RunFacts TextFacts AesGcmFacts Notions.

Section WithPlatform.
Variable P : Platform.
Hypothesis L : Laws P.

Lemma decrypt_encrypted (k : bytes) (m : jsstring) (aad aad' : option bytes)
      (w w' : World P) :
  aad_bytes aad' = aad_bytes aad ->
  fst (decryptMessage P k
         {| ciphertext :=
              b64_encode (binary_string
                (next_random w 12 ++
                 gcm_encrypt P k (next_random w 12) (aad_bytes aad) 128
                             (TextEncoder_encode m)));
            timestamp := now w |} aad' w') =
  Return {| plaintext := TextDecoder_decode (TextEncoder_encode m);
            dm_timestamp := now w |}.
Proof.
  intros Haad. rewrite decryptMessage_run. cbn [fst].
  destruct (split_iv (next_random w 12)
              (gcm_encrypt P k (next_random w 12) (aad_bytes aad) 128 (TextEncoder_encode m))
              (next_random_length P w 12)) as [-> ->].
  rewrite Haad. now rewrite (gcm_correct P L).
Qed.

End WithPlatform.

(** Encrypting and then decrypting with the same key and the same
    associated data returns the message and the time of encryption, for
    every well-formed string that does not begin with U+FEFF. *)
Theorem encrypt_decrypt_roundtrip (P : Platform) (L : Laws P) (k : bytes) (m : jsstring)
        (aad : option bytes) (w : World P) :
  well_formed m = true -> hd 0 m <> 0xFEFF ->
  exists e w1,
    encryptMessage P k m aad w = (Return e, w1) /\
    timestamp e = clock w (ticks w) /\
    fst (decryptMessage P k e aad w1) =
      Return {| plaintext := m; dm_timestamp := timestamp e |}.
Proof.
  intros Hwf Hbom. rewrite encryptMessage_run. do 2 eexists.
  split; [reflexivity|]. cbn [timestamp]. split; [reflexivity|].
  rewrite (decrypt_encrypted P L) by reflexivity.
  now rewrite decode_encode.
Qed.

Lemma encrypt_decrypt_roundtrip_witness :
  exists e w1,
    encryptMessage Toy.platform [x01; x02] (lit "Hello") (Some [x07]) (Toy.world 1000 1)
      = (Return e, w1) /\
    timestamp e = 1000 /\
    fst (decryptMessage Toy.platform [x01; x02] e (Some [x07]) w1) =
      Return {| plaintext := lit "Hello"; dm_timestamp := timestamp e |}.
Proof.
  apply (encrypt_decrypt_roundtrip Toy.platform ToyFacts.laws [x01; x02] (lit "Hello")
           (Some [x07]) (Toy.world 1000 1)).
  - reflexivity.
  - cbn. discriminate.
Defined.

(** C4, where the code falls short: a message that begins with U+FEFF
    comes back without it. *)
Theorem roundtrip_drops_leading_bom (P : Platform) (L : Laws P) (k : bytes) (m : jsstring)
        (aad : option bytes) (w : World P) :
  well_formed m = true ->
  exists e w1,
    encryptMessage P k (0xFEFF :: m) aad w = (Return e, w1) /\
    fst (decryptMessage P k e aad w1) =
      Return {| plaintext := m; dm_timestamp := timestamp e |}.
Proof.
  intros Hwf. rewrite encryptMessage_run. do 2 eexists.
  split; [reflexivity|]. cbn [timestamp].
  rewrite (decrypt_encrypted P L) by reflexivity.
  now rewrite decode_encode_bom.
Qed.

Lemma roundtrip_drops_leading_bom_witness :
  exists e w1,
    encryptMessage Toy.platform [x01; x02] (0xFEFF :: lit "Hi") None (Toy.world 1000 1)
      = (Return e, w1) /\
    fst (decryptMessage Toy.platform [x01; x02] e None w1) =
      Return {| plaintext := lit "Hi"; dm_timestamp := timestamp e |}.
Proof.
  apply (roundtrip_drops_leading_bom Toy.platform ToyFacts.laws [x01; x02] (lit "Hi")
           None (Toy.world 1000 1)).
  reflexivity.
Defined.

Section Decryption.
Variable P : Platform.
Hypothesis L : Laws P.
Hypothesis A : authenticated P.

(** Bytes the platform rejects are not an encryption under the key, nonce
    and associated data tried, and conversely. *)
Lemma rejected_iff_not_genuine (k iv aad c : bytes) :
  gcm_decrypt P k iv aad 128 c = None <-> ~ genuine P k iv aad c.
Proof.
  split.
  - intros Hnone [pt Hpt]. rewrite <- Hpt, (gcm_correct P L) in Hnone. discriminate.
  - intros Hng. destruct (gcm_decrypt P k iv aad 128 c) as [pt|] eqn:E; [|reflexivity].
    exfalso. apply Hng. exists pt. now apply A.
Qed.

(** What [decryptMessage] does with a text that is base64. *)
Lemma decryptMessage_decoded (k : bytes) (text binary : jsstring) (t : N)
      (aad : option bytes) (w : World P) :
  atob text = Some binary ->
  fst (decryptMessage P k {| ciphertext := text; timestamp := t |} aad w) =
  match gcm_decrypt P k (firstn 12 (binary_bytes binary)) (aad_bytes aad) 128
                    (skipn 12 (binary_bytes binary)) with
  | Some pt => Return {| plaintext := TextDecoder_decode pt; dm_timestamp := t |}
  | None => Throw OperationError
  end.
Proof.
  intros H. unfold decryptMessage, base64ToArrayBuffer. cbn [ciphertext timestamp].
  rewrite H. js_run. fold (aad_bytes aad). unfold IV_LENGTH.
  destruct (gcm_decrypt P k (firstn 12 (binary_bytes binary)) (aad_bytes aad) 128
                        (skipn 12 (binary_bytes binary))); reflexivity.
Qed.

Lemma decryptMessage_outcome (k : bytes) (text binary : jsstring) (t : N)
      (aad : option bytes) (w : World P) :
  atob text = Some binary ->
  let c := binary_bytes binary in
  let r := fst (decryptMessage P k {| ciphertext := text; timestamp := t |} aad w) in
  (~ genuine P k (firstn 12 c) (aad_bytes aad) (skipn 12 c)
   <-> r = Throw AuthenticationFailure)
  /\ (forall pt,
        gcm_encrypt P k (firstn 12 c) (aad_bytes aad) 128 pt = skipn 12 c ->
        r = Return {| plaintext := TextDecoder_decode pt; dm_timestamp := t |})
  /\ (r = Throw AuthenticationFailure \/ exists d, r = Return d).
Proof.
  intros H c r. subst r. rewrite (decryptMessage_decoded k text binary t aad w H).
  fold c. rewrite <- rejected_iff_not_genuine.
  destruct (gcm_decrypt P k (firstn 12 c) (aad_bytes aad) 128 (skipn 12 c)) as [pt|] eqn:E.
  - split; [split; discriminate|]. split.
    + intros pt' Hpt'. rewrite <- Hpt', (gcm_correct P L) in E. now injection E as ->.
    + right. eexists. reflexivity.
  - split; [split; reflexivity|]. split.
    + intros pt' Hpt'. rewrite <- Hpt', (gcm_correct P L) in E. discriminate.
    + left. reflexivity.
Qed.

End Decryption.




End MessageFacts.

Module KdfFacts.
Import JS WebCrypto BytesFacts Notions.

Section WithPlatform.
Variable P : Platform.

(** A key shorter than the block and the same key followed by a zero byte
    pad to the same block. *)
Lemma hmac_key_block_zero (K : bytes) :
  (length K < 64)%nat -> hmac_key_block P (K ++ [x00]) = hmac_key_block P K.
Proof.
  intros H. unfold hmac_key_block. rewrite length_app. cbn [length].
  destruct (Nat.leb_spec (length K + 1) 64); [|lia].
  destruct (Nat.leb_spec (length K) 64); [|lia].
  rewrite length_app. cbn [length]. rewrite <- app_assoc. f_equal.
  replace (64 - length K)%nat with (S (64 - (length K + 1))) by lia.
  reflexivity.
Qed.

Lemma pbkdf2_trailing_zero (pw salt : bytes) (c : N) (len : nat) :
  (length pw < 64)%nat -> pbkdf2 P (pw ++ [x00]) salt c len = pbkdf2 P pw salt c len.
Proof.
  intros H. unfold pbkdf2, hmac. now rewrite hmac_key_block_zero.
Qed.

Hypothesis L : Laws P.

Lemma hmac_length (K m : bytes) : length (hmac P K m) = 32%nat.
Proof. unfold hmac. apply (sha256_length P L). Qed.

Lemma xor_bytes_length (a b : bytes) :
  length a = 32%nat -> length b = 32%nat -> length (xor_bytes a b) = 32%nat.
Proof.
  intros Ha Hb. unfold xor_bytes. rewrite length_map, length_combine. lia.
Qed.

Lemma pbkdf2_F_length (K salt : bytes) (c i : N) :
  length (pbkdf2_F (hmac P K) salt c i) = 32%nat.
Proof.
  unfold pbkdf2_F.
  set (u1 := hmac P K (salt ++ int32_be i)).
  assert (Inv : forall st : bytes * bytes,
             length (fst st) = 32%nat /\ length (snd st) = 32%nat ->
             length (fst (pbkdf2_round (hmac P K) st)) = 32%nat /\
             length (snd (pbkdf2_round (hmac P K) st)) = 32%nat).
  { intros [u t] [Hu Ht]. cbn [pbkdf2_round fst snd]. split.
    - apply hmac_length.
    - apply xor_bytes_length; [exact Ht | apply hmac_length]. }
  apply (N.iter_invariant (c - 1) _ (pbkdf2_round (hmac P K))
           (fun st => length (fst st) = 32%nat /\ length (snd st) = 32%nat)).
  - intros st Hst. now apply Inv.
  - cbn [fst snd]. split; apply hmac_length.
Qed.

(** The derived key has 32 bytes: an AES-256 key. *)
Lemma pbkdf2_length (pw salt : bytes) (c : N) : length (pbkdf2 P pw salt c 32) = 32%nat.
Proof.
  unfold pbkdf2. change ((32 + 31) / 32)%nat with 1%nat. cbn [pbkdf2_blocks].
  rewrite app_nil_r, firstn_all2; [apply pbkdf2_F_length|].
  rewrite pbkdf2_F_length. lia.
Qed.

Lemma hkdf_length (ikm salt info : bytes) : length (hkdf P ikm salt info 32) = 32%nat.
Proof.
  unfold hkdf, hkdf_expand. change ((32 + 31) / 32)%nat with 1%nat. cbn [hkdf_blocks].
  rewrite app_nil_r, firstn_all2; [apply hmac_length|].
  rewrite hmac_length. lia.
Qed.

End WithPlatform.
End KdfFacts.

Module KeysFacts.
Import JS WebCrypto Constants Utils Keys BytesFacts Base64Facts RunFacts TextFacts KdfFacts Notions.

#[local] Opaque pbkdf2 hkdf.

Lemma run_eq {A : Type} {P : Platform} (a a' : Outcome A) (w w' : World P) :
  a = a' -> w = w' -> (a, w) = (a', w').
Proof. intros -> ->. reflexivity. Qed.

Section WithPlatform.
Variable P : Platform.





Lemma derivePasswordKey_run (password : jsstring) (salt : bytes) (w : World P) :
  derivePasswordKey P password salt w =
    (Return (backup_key P password salt),
     advance w 0 0 [CallPBKDF2 (TextEncoder_encode password) salt 310000]).
Proof.
  unfold derivePasswordKey, backup_key. js_run. apply run_eq; [reflexivity | world].
Qed.

Lemma createKeyBackup_run (kp : KeyPair P) (password : jsstring) (w : World P) :
  createKeyBackup P kp password w =
    (Return {| encryptedPrivateKey :=
                 b64_encode (binary_string (backup_ciphertext P kp password w));
               salt := b64_encode (binary_string (backup_salt w));
               bk_iv := b64_encode (binary_string (backup_iv w));
               bk_publicKey := b64_encode (binary_string (export_raw P (publicKey kp)));
               bk_fingerprint := fingerprint kp |},
     advance w 44 0
       [CallGetRandomValues 32; CallGetRandomValues 12;
        CallPBKDF2 (TextEncoder_encode password) (backup_salt w) 310000;
        CallEncrypt (backup_key P password (backup_salt w)) (backup_iv w) [] 128
                    (TextEncoder_encode (private_json P kp))]).
Proof.
  unfold createKeyBackup, derivePasswordKey, backup_ciphertext, backup_key,
    backup_salt, backup_iv, private_json.
  js_run. rewrite !arrayBufferToBase64_run. js_run.
  apply run_eq; [reflexivity | world].
Qed.

(** What [restoreKeyFromBackup] does with a backup whose fields are the
    base64 forms of any bytes. *)
Lemma restoreKeyFromBackup_run (ct saltb ivb pub : bytes) (f password : jsstring)
      (w : World P) :
  fst (restoreKeyFromBackup P
         {| encryptedPrivateKey := b64_encode (binary_string ct);
            salt := b64_encode (binary_string saltb);
            bk_iv := b64_encode (binary_string ivb);
            bk_publicKey := b64_encode (binary_string pub);
            bk_fingerprint := f |} password w) =
  match gcm_decrypt P (backup_key P password saltb) ivb [] 128 ct with
  | None => Throw OperationError
  | Some pt =>
      match json_parse P (TextDecoder_decode pt) with
      | None => Throw SyntaxError
      | Some j =>
          match import_jwk P j with
          | None => Throw DataError
          | Some sk =>
              match import_raw P pub with
              | None => Throw DataError
              | Some pk =>
                  Return {| publicKey := pk; privateKey := sk;
                            publicKeyRaw := pub; fingerprint := f |}
              end
          end
      end
  end.
Proof.
  unfold restoreKeyFromBackup, derivePasswordKey.
  cbn [encryptedPrivateKey salt bk_iv bk_publicKey bk_fingerprint].
  erewrite bind_return by apply base64ToArrayBuffer_run.
  erewrite bind_return by apply base64ToArrayBuffer_run.
  erewrite bind_return by apply base64ToArrayBuffer_run.
  js_run. fold (backup_key P password saltb).
  destruct (gcm_decrypt P (backup_key P password saltb) ivb [] 128 ct) as [pt|];
    [|reflexivity].
  destruct (json_parse P (TextDecoder_decode pt)) as [j|]; [|reflexivity].
  destruct (import_jwk P j) as [sk|]; [|reflexivity].
  unfold bind. rewrite base64ToArrayBuffer_run.
  destruct (import_raw P pub) as [pk|]; reflexivity.
Qed.

End WithPlatform.


End KeysFacts.

Module BackupFacts.
Import JS WebCrypto Constants Utils Keys BytesFacts Base64Facts RunFacts TextFacts
       KdfFacts KeysFacts MessageFacts Notions.

#[local] Opaque pbkdf2 hkdf.


Section WithPlatform.
Variable P : Platform.
Hypothesis L : Laws P.

Lemma restore_backup (kp : KeyPair P) (pw pw' : jsstring) (w w' : World P) :
  fst (restoreKeyFromBackup P
         {| encryptedPrivateKey := b64_encode (binary_string (backup_ciphertext P kp pw w));
            salt := b64_encode (binary_string (backup_salt w));
            bk_iv := b64_encode (binary_string (backup_iv w));
            bk_publicKey := b64_encode (binary_string (export_raw P (publicKey kp)));
            bk_fingerprint := fingerprint kp |} pw' w') =
  match gcm_decrypt P (backup_key P pw' (backup_salt w)) (backup_iv w) [] 128
                    (backup_ciphertext P kp pw w) with
  | None => Throw OperationError
  | Some pt =>
      match json_parse P (TextDecoder_decode pt) with
      | None => Throw SyntaxError
      | Some j =>
          match import_jwk P j with
          | None => Throw DataError
          | Some sk =>
              Return {| publicKey := publicKey kp; privateKey := sk;
                        publicKeyRaw := export_raw P (publicKey kp);
                        fingerprint := fingerprint kp |}
          end
      end
  end.
Proof.
  rewrite restoreKeyFromBackup_run. now rewrite (raw_roundtrip P L).
Qed.

Lemma restore_same_key (kp : KeyPair P) (pw pw' : jsstring) (w w' : World P) :
  backup_key P pw' (backup_salt w) = backup_key P pw (backup_salt w) ->
  fst (restoreKeyFromBackup P
         {| encryptedPrivateKey := b64_encode (binary_string (backup_ciphertext P kp pw w));
            salt := b64_encode (binary_string (backup_salt w));
            bk_iv := b64_encode (binary_string (backup_iv w));
            bk_publicKey := b64_encode (binary_string (export_raw P (publicKey kp)));
            bk_fingerprint := fingerprint kp |} pw' w') = Return (restored kp).
Proof.
  intros Hk. rewrite restore_backup, Hk. unfold backup_ciphertext.
  rewrite (gcm_correct P L).
  destruct (json_text P L (export_jwk P (privateKey kp))) as [Hwf Hbom].
  unfold private_json. rewrite decode_encode by assumption.
  now rewrite (json_roundtrip P L), (jwk_roundtrip P L).
Qed.

End WithPlatform.



(** A password and the same password followed by U+0000 derive the same
    backup key, as long as the password is shorter than 64 bytes. *)
Lemma backup_key_trailing_nul (P : Platform) (pw : jsstring) (salt : bytes) :
  (length (TextEncoder_encode pw) < 64)%nat ->
  TextEncoder_encode (pw ++ [0]) = TextEncoder_encode pw ++ [x00] ->
  backup_key P (pw ++ [0]) salt = backup_key P pw salt.
Proof.
  intros Hlen Henc. unfold backup_key. rewrite Henc.
  now apply pbkdf2_trailing_zero.
Qed.


(** C8: the backup key is PBKDF2 with HMAC-SHA-256 over the UTF-8 bytes of
    the password, 310000 rounds, 32 bytes of output (an AES-256 key), the
    same in every world; [createKeyBackup] takes the next 32 bytes of the
    random source as salt and the following 12 as nonce. *)
Theorem backup_key_derivation (P : Platform) (L : Laws P) (kp : KeyPair P)
        (pw : jsstring) (salt : bytes) (w w' : World P) :
  fst (derivePasswordKey P pw salt w) =
    Return (pbkdf2 P (TextEncoder_encode pw) salt PBKDF2_ITERATIONS 32)
  /\ fst (derivePasswordKey P pw salt w') = fst (derivePasswordKey P pw salt w)
  /\ calls (snd (derivePasswordKey P pw salt w)) =
     calls w ++ [CallPBKDF2 (TextEncoder_encode pw) salt PBKDF2_ITERATIONS]
  /\ 300000 <= PBKDF2_ITERATIONS
  /\ length (pbkdf2 P (TextEncoder_encode pw) salt PBKDF2_ITERATIONS 32) = 32%nat
  /\ exists b w1,
       createKeyBackup P kp pw w = (Return b, w1) /\
       atob (Keys.salt b) = Some (binary_string (map (random w) (seq (drawn w) 32))) /\
       atob (bk_iv b) = Some (binary_string (map (random w) (seq (drawn w + 32) 12))) /\
       (32 <= length (map (random w) (seq (drawn w) 32)))%nat /\
       length (map (random w) (seq (drawn w + 32) 12)) = 12%nat /\
       drawn w1 = (drawn w + 44)%nat.
Proof.
  rewrite !derivePasswordKey_run. cbn [fst snd calls advance].
  unfold PBKDF2_ITERATIONS.
  split; [reflexivity|]. split; [reflexivity|]. split; [reflexivity|].
  split; [lia|]. split; [apply (pbkdf2_length P L)|].
  rewrite createKeyBackup_run. do 2 eexists. split; [reflexivity|].
  cbn [Keys.salt bk_iv drawn advance].
  rewrite !atob_encode by apply binary_string_bounded.
  rewrite !length_map, !length_seq.
  repeat split; reflexivity || lia.
Qed.

Lemma backup_key_derivation_witness :
  fst (derivePasswordKey Toy.platform (lit "abc") [x01; x02] (Toy.world 1000 1)) =
    Return (pbkdf2 Toy.platform (TextEncoder_encode (lit "abc")) [x01; x02]
                   PBKDF2_ITERATIONS 32)
  /\ fst (derivePasswordKey Toy.platform (lit "abc") [x01; x02] (Toy.world 5 0))
     = fst (derivePasswordKey Toy.platform (lit "abc") [x01; x02] (Toy.world 1000 1))
  /\ calls (snd (derivePasswordKey Toy.platform (lit "abc") [x01; x02] (Toy.world 1000 1))) =
     calls (Toy.world 1000 1) ++
       [CallPBKDF2 (TextEncoder_encode (lit "abc")) [x01; x02] PBKDF2_ITERATIONS]
  /\ 300000 <= PBKDF2_ITERATIONS
  /\ length (pbkdf2 Toy.platform (TextEncoder_encode (lit "abc")) [x01; x02]
                    PBKDF2_ITERATIONS 32) = 32%nat
  /\ exists b w1,
       createKeyBackup Toy.platform Toy.alice (lit "abc") (Toy.world 1000 1)
         = (Return b, w1) /\
       atob (Keys.salt b) =
         Some (binary_string (map (random (Toy.world 1000 1))
                                 (seq (drawn (Toy.world 1000 1)) 32))) /\
       atob (bk_iv b) =
         Some (binary_string (map (random (Toy.world 1000 1))
                                 (seq (drawn (Toy.world 1000 1) + 32) 12))) /\
       (32 <= length (map (random (Toy.world 1000 1))
                          (seq (drawn (Toy.world 1000 1)) 32)))%nat /\
       length (map (random (Toy.world 1000 1))
                   (seq (drawn (Toy.world 1000 1) + 32) 12)) = 12%nat /\
       drawn w1 = (drawn (Toy.world 1000 1) + 44)%nat.
Proof.
  exact (backup_key_derivation Toy.platform ToyFacts.laws Toy.alice (lit "abc")
           [x01; x02] (Toy.world 1000 1) (Toy.world 5 0)).
Defined.

End BackupFacts.

Module ImportFacts.
Import JS WebCrypto Constants Utils Keys BytesFacts RunFacts Notions.

#[local] Opaque pbkdf2 hkdf.

Lemma bind_inv {P : Platform} {A B : Type} (c : Js P A) (k : A -> Js P B)
      (w w' : World P) (b : B) :
  bind c k w = (Return b, w') ->
  exists a w1, c w = (Return a, w1) /\ k a w1 = (Return b, w').
Proof.
  unfold bind. destruct (c w) as [[a|e] w1]; [|discriminate].
  intros H. now exists a, w1.
Qed.

Ltac bind_inv H :=
  repeat (let a := fresh "a" in let w1 := fresh "w" in let H1 := fresh "H" in
          apply bind_inv in H; destruct H as (a & w1 & H1 & H); clear H1).





End ImportFacts.

Module SessionFacts.
Import JS WebCrypto Constants Utils AesGcm Keys Ecdh Index Notions.
Import BytesFacts Base64Facts RunFacts TextFacts AesGcmFacts MessageFacts EcdhFacts.

#[local] Opaque pbkdf2 hkdf.
Local Open Scope js_scope.

Section WithPlatform.
Variable P : Platform.

(** What [encryptSessionMessage] returns: the associated data carries the
    first clock reading, the payload the second. *)
Lemma encryptSessionMessage_run (session : SecureSession) (s r m : jsstring) (w : World P) :
  let t1 := clock w (ticks w) in
  let t2 := clock w (S (ticks w)) in
  let iv := next_random w 12 in
  let aad := createAAD s r t1 in
  let ct := gcm_encrypt P (ss_sendKey session) iv aad 128 (TextEncoder_encode m) in
  encryptSessionMessage P session s r m w =
    (Return {| mp_sessionId := sessionId session; senderId := s; recipientId := r;
               encrypted := {| ciphertext := b64_encode (binary_string (iv ++ ct));
                               timestamp := t2 |} |},
     advance w 12 2
       [CallDateNow t1; CallGetRandomValues 12;
        CallEncrypt (ss_sendKey session) iv aad 128 (TextEncoder_encode m);
        CallDateNow t2]).
Proof.
  intros t1 t2 iv aad ct. unfold encryptSessionMessage.
  unfold bind at 1. unfold Date_now at 1. cbv beta iota zeta.
  erewrite bind_return by apply encryptMessage_run.
  unfold ret, next_random, now, aad_bytes.
  cbn [random drawn clock ticks calls advance].
  apply KeysFacts.run_eq; [reflexivity | world].
Qed.

(** What [decryptSessionMessage] hands to the platform. *)
Lemma decryptSessionMessage_run (session : SecureSession) (sid s r : jsstring)
      (c : bytes) (t : N) (w : World P) :
  decryptSessionMessage P session
    {| mp_sessionId := sid; senderId := s; recipientId := r;
       encrypted := {| ciphertext := b64_encode (binary_string c); timestamp := t |} |} w =
    (match gcm_decrypt P (ss_receiveKey session) (firstn 12 c) (createAAD s r t) 128
                       (skipn 12 c) with
     | Some pt => Return {| plaintext := TextDecoder_decode pt; dm_timestamp := t |}
     | None => Throw OperationError
     end,
     advance w 0 0
       [CallDecrypt (ss_receiveKey session) (firstn 12 c) (createAAD s r t) 128 (skipn 12 c)]).
Proof.
  unfold decryptSessionMessage. cbn [senderId recipientId encrypted timestamp].
  now rewrite decryptMessage_run.
Qed.

End WithPlatform.

(** The session round trip holds when the clock does not advance between
    the two readings of [encryptSessionMessage]. *)
Theorem session_roundtrip (P : Platform) (L : Laws P) (sa sb : SecureSession)
        (s r m : jsstring) (w : World P) :
  ss_sendKey sa = ss_receiveKey sb ->
  well_formed m = true -> hd 0 m <> 0xFEFF ->
  clock w (S (ticks w)) = clock w (ticks w) ->
  exists p w1,
    encryptSessionMessage P sa s r m w = (Return p, w1) /\
    fst (decryptSessionMessage P sb p w1) =
      Return {| plaintext := m; dm_timestamp := clock w (ticks w) |}.
Proof.
  intros Hk Hwf Hbom Hclock. rewrite encryptSessionMessage_run. do 2 eexists.
  split; [reflexivity|].
  rewrite decryptSessionMessage_run. cbn [fst].
  destruct (split_iv (next_random w 12)
              (gcm_encrypt P (ss_sendKey sa) (next_random w 12)
                 (createAAD s r (clock w (ticks w))) 128 (TextEncoder_encode m))
              (next_random_length P w 12)) as [-> ->].
  rewrite Hclock, <- Hk, (gcm_correct P L), decode_encode by assumption.
  reflexivity.
Qed.

(** The associated data of the two sides: the sender binds the first
    reading of the clock, the receiver the timestamp of the payload, which is
    the second reading. *)
Theorem session_aad_two_readings (P : Platform) (sa sb : SecureSession)
        (s r m : jsstring) (w : World P) :
  exists p w1 key iv pt ct,
    encryptSessionMessage P sa s r m w = (Return p, w1) /\
    timestamp (encrypted p) = clock w (S (ticks w)) /\
    calls w1 = calls w ++
      [CallDateNow (clock w (ticks w)); CallGetRandomValues 12;
       CallEncrypt key iv (createAAD s r (clock w (ticks w))) 128 pt;
       CallDateNow (clock w (S (ticks w)))] /\
    calls (snd (decryptSessionMessage P sb p w1)) = calls w1 ++
      [CallDecrypt (ss_receiveKey sb) iv (createAAD s r (clock w (S (ticks w)))) 128 ct].
Proof.
  rewrite encryptSessionMessage_run. do 6 eexists.
  split; [reflexivity|]. cbn [encrypted timestamp]. split; [reflexivity|].
  split; [reflexivity|].
  rewrite decryptSessionMessage_run. cbn [snd calls advance].
  destruct (split_iv (next_random w 12)
              (gcm_encrypt P (ss_sendKey sa) (next_random w 12)
                 (createAAD s r (clock w (ticks w))) 128 (TextEncoder_encode m))
              (next_random_length P w 12)) as [-> ->].
  reflexivity.
Qed.


(** C1, where the code falls short: with a clock that advances by one
    millisecond per reading the exchange of the self test fails with
    [OperationError]; with a clock that stands still it succeeds. *)
Theorem session_fails_when_clock_ticks :
  Toy.result (exchange Toy.platform Toy.alice Toy.bob (lit "Secret session message!"))
             (Toy.world 1000 1)
    = Throw OperationError
  /\ Toy.result (exchange Toy.platform Toy.alice Toy.bob (lit "Secret session message!"))
                (Toy.world 1000 0)
     = Return {| plaintext := lit "Secret session message!"; dm_timestamp := 1000 |}.
Proof. split; vm_compute; reflexivity. Qed.

End SessionFacts.

Module UtilsMore.
Import JS WebCrypto Utils Notions BytesFacts ArithFacts Base64Facts RunFacts UtilsFacts.

(** Decoding what [arrayBufferToBase64] wrote gives the bytes back, and
    neither step fails or touches the world. *)
Theorem base64_roundtrip (P : Platform) (buffer : bytes) (w : World P) :
  bind (arrayBufferToBase64 P buffer) (base64ToArrayBuffer P) w = (Return buffer, w).
Proof.
  erewrite bind_return by apply arrayBufferToBase64_run.
  apply base64ToArrayBuffer_run.
Qed.

Lemma b64_encode_length (l : list N) :
  length (b64_encode l) = (4 * ((length l + 2) / 3))%nat.
Proof.
  induction l as [| | |a b c rest IH] using list_ind3; try reflexivity.
  cbn [b64_encode length]. rewrite IH.
  replace (S (S (S (length rest))) + 2)%nat with ((length rest + 2) + 1 * 3)%nat by lia.
  rewrite Nat.div_add by lia. lia.
Qed.

Lemma b64_encode_alphabet (l : list N) :
  Forall (fun c => b64_value c <> None \/ c = pad_char) (b64_encode l).
Proof.
  assert (Hc : forall v, v < 64 -> b64_value (b64_char v) <> None)
    by (intros v Hv; rewrite b64_value_char by exact Hv; discriminate).
  assert (Hb : forall v, b64_value (b64_char v) <> None \/ b64_char v = pad_char).
  { intros v. left. destruct (N.lt_ge_cases v 64) as [Hv|Hv]; [now apply Hc|].
    unfold b64_char.
    destruct (N.ltb_spec v 26); [lia|]. destruct (N.ltb_spec v 52); [lia|].
    destruct (N.ltb_spec v 62); [lia|]. destruct (N.eqb_spec v 62); [lia|].
    discriminate. }
  induction l as [| | |a b c rest IH] using list_ind3; cbn [b64_encode];
    repeat (constructor; [apply Hb || (right; reflexivity)|]); auto.
Qed.

(** [arrayBufferToBase64] always returns, and returns four characters of
    the base64 alphabet or padding for every three bytes begun. *)
Theorem arrayBufferToBase64_shape (P : Platform) (buffer : bytes) (w : World P) :
  exists s,
    arrayBufferToBase64 P buffer w = (Return s, w) /\
    length s = (4 * ((length buffer + 2) / 3))%nat /\
    Forall (fun c => b64_value c <> None \/ c = pad_char) s.
Proof.
  rewrite arrayBufferToBase64_run. eexists. split; [reflexivity|]. split.
  - rewrite b64_encode_length. unfold binary_string. now rewrite length_map.
  - apply b64_encode_alphabet.
Qed.

Lemma b64_values_bad (s : jsstring) (c : code_unit) :
  In c s -> b64_value c = None -> b64_values s = None.
Proof.
  induction s as [|x s IH]; intros Hin Hc; [contradiction|].
  cbn [b64_values]. destruct Hin as [->|Hin].
  - now rewrite Hc.
  - rewrite (IH Hin Hc). now destruct (b64_value x).
Qed.

Lemma strip_padding_keeps (s : jsstring) (c : code_unit) :
  In c s -> c <> pad_char -> In c (strip_padding s).
Proof.
  intros Hin Hc. unfold strip_padding.
  destruct (length s mod 4 =? 0)%nat; [|exact Hin].
  assert (Hrev : In c (rev s)) by now apply in_rev in Hin.
  destruct (rev s) as [|c1 r1] eqn:E; [exact Hin|].
  destruct (N.eqb_spec c1 pad_char) as [->|_]; [|exact Hin].
  destruct Hrev as [<-|Hrev]; [contradiction|].
  destruct r1 as [|c2 r2]; [contradiction|].
  destruct (N.eqb_spec c2 pad_char) as [->|_].
  - destruct Hrev as [<-|Hrev]; [contradiction|]. now apply in_rev in Hrev.
  - now apply in_rev in Hrev.
Qed.

Lemma bad_character (P : Platform) (base64 : jsstring) (c : code_unit)
        (w : World P) :
  In c base64 -> b64_value c = None -> c <> pad_char -> is_ascii_whitespace c = false ->
  base64ToArrayBuffer P base64 w = (Throw InvalidCharacterError, w).
Proof.
  intros Hin Hval Hpad Hws. apply base64ToArrayBuffer_invalid. unfold atob.
  assert (Hdata : In c (strip_padding
                          (filter (fun c => negb (is_ascii_whitespace c)) base64))).
  { apply strip_padding_keeps; [|exact Hpad].
    apply filter_In. split; [exact Hin | now rewrite Hws]. }
  rewrite (b64_values_bad _ c Hdata Hval).
  now destruct (_ =? 1)%nat.
Qed.

(** A character that is neither of the alphabet nor padding nor white
    space makes [base64ToArrayBuffer] throw, wherever it stands. *)
Theorem base64ToArrayBuffer_rejects (P : Platform) (base64 : jsstring) (c : code_unit)
        (w : World P) :
  In c base64 -> b64_value c = None -> c <> pad_char -> is_ascii_whitespace c = false ->
  base64ToArrayBuffer P base64 w = (Throw InvalidCharacterError, w).
Proof. apply bad_character. Qed.

Lemma base64ToArrayBuffer_rejects_witness :
  base64ToArrayBuffer Toy.platform (lit "QUJD*A==") (Toy.world 0 0)
  = (Throw InvalidCharacterError, Toy.world 0 0).
Proof.
  apply (base64ToArrayBuffer_rejects Toy.platform (lit "QUJD*A==") 42 (Toy.world 0 0)).
  - cbn. tauto.
  - reflexivity.
  - discriminate.
  - reflexivity.
Defined.

Lemma compare_from_spec (a b : bytes) (fuel i : nat) :
  compare_from a b i fuel = true <->
  forall j, (i <= j < i + fuel)%nat -> nth j a x00 = nth j b x00.
Proof.
  revert i. induction fuel as [|fuel IH]; intros i; cbn [compare_from].
  - split; [intros _ j Hj; lia | reflexivity].
  - destruct (N.eqb_spec (b2n (nth i a x00)) (b2n (nth i b x00))) as [E|E]; cbn [negb].
    + rewrite IH. apply b2n_inj in E. split.
      * intros H j Hj. destruct (Nat.eq_dec j i) as [->|Hne]; [exact E | apply H; lia].
      * intros H j Hj. apply H. lia.
    + split; [discriminate|]. intros H. exfalso. apply E. f_equal. apply H. lia.
Qed.

(** The early-exit comparison decides equality, and the comparison meant
    for secrets returns the same answer on every pair of arrays. *)
Theorem compareArrayBuffers_correct (a b : bytes) :
  (compareArrayBuffers a b = true <-> a = b)
  /\ compareArrayBuffers a b = secureCompare a b.
Proof.
  assert (H : compareArrayBuffers a b = true <-> a = b).
  { unfold compareArrayBuffers.
    destruct (Nat.eqb_spec (length a) (length b)) as [El|El]; cbn [negb].
    - rewrite compare_from_spec. split.
      + intros Hn. apply (nth_ext a b x00 x00 El). intros j Hj. apply Hn. lia.
      + intros -> j _. reflexivity.
    - split; [discriminate | intros ->; contradiction]. }
  split; [exact H|].
  assert (Hs : secureCompare a b = true <-> a = b).
  { unfold secureCompare.
    destruct (Nat.eqb_spec (length a) (length b)) as [El|El]; cbn [negb].
    - rewrite N.eqb_eq, secureCompare_loop_zero. split.
      + intros Hn. exact (nth_ext a b x00 x00 El Hn).
      + intros -> j _. reflexivity.
    - split; [discriminate | intros ->; contradiction]. }
  destruct (compareArrayBuffers a b), (secureCompare a b); try reflexivity.
  - pose proof (proj2 Hs (proj1 H eq_refl)). discriminate.
  - pose proof (proj2 H (proj1 Hs eq_refl)). discriminate.
Qed.

End UtilsMore.

Module ConcatFacts.
Import JS Utils Notions BytesFacts.

Lemma total_length (arrays : list bytes) (n : nat) :
  fold_left (fun sum arr => (sum + length arr)%nat) arrays n
  = (n + length (concat arrays))%nat.
Proof.
  revert n. induction arrays as [|a arrays IH]; intros n; cbn [fold_left concat].
  - cbn [length]. lia.
  - rewrite IH, length_app. lia.
Qed.

(** A write at the end of the part already filled. *)
Lemma typed_set_at_end (filled source : bytes) (k : nat) :
  typed_set (filled ++ repeat x00 (length source + k)) source (length filled)
  = (filled ++ source) ++ repeat x00 k.
Proof.
  unfold typed_set.
  rewrite firstn_app, Nat.sub_diag, firstn_all. cbn [firstn]. rewrite app_nil_r.
  rewrite skipn_app, skipn_all2 by lia.
  replace (length filled + length source - length filled)%nat with (length source) by lia.
  rewrite repeat_app, skipn_app, repeat_length, Nat.sub_diag.
  rewrite skipn_all2 by (rewrite repeat_length; lia).
  cbn [skipn app]. now rewrite <- app_assoc.
Qed.

Lemma concat_loop (arrays : list bytes) (filled : bytes) :
  fold_left
    (fun st arr => (typed_set (fst st) arr (snd st), (snd st + length arr)%nat))
    arrays (filled ++ repeat x00 (length (concat arrays)), length filled)
  = (filled ++ concat arrays, (length filled + length (concat arrays))%nat).
Proof.
  revert filled. induction arrays as [|a arrays IH]; intros filled; cbn [fold_left concat].
  - cbn. now rewrite Nat.add_0_r.
  - cbn [fst snd]. rewrite length_app, typed_set_at_end.
    replace (length filled + length a)%nat with (length (filled ++ a))
      by (rewrite length_app; reflexivity).
    rewrite IH. rewrite <- app_assoc, length_app. f_equal. lia.
Qed.

(** The loop of [concatUint8Arrays] writes the arrays one after the other
    into the zero-filled result: what it returns is their concatenation,
    in order, and no zero of the initial fill is left. *)
Theorem concatUint8Arrays_concat (arrays : list bytes) :
  concatUint8Arrays_loop arrays = concatUint8Arrays arrays.
Proof.
  unfold concatUint8Arrays_loop, concatUint8Arrays. rewrite total_length. cbn [Nat.add].
  exact (f_equal fst (concat_loop arrays [])).
Qed.

End ConcatFacts.

Module HexFacts.
Import JS Utils Notions BytesFacts UtilsFacts.

Lemma hex_pair_parse (b : byte) :
  to_uint8 (parseInt16 (padStart0 2 (toString16 (b2n b)))) = b
  /\ to_uint8 (parseInt16 (toUpperCase (padStart0 2 (toString16 (b2n b))))) = b.
Proof. destruct b; split; reflexivity. Qed.

Lemma hex_pair_lower_bool (b : byte) :
  forallb (fun c => ((48 <=? c) && (c <=? 57)) || ((97 <=? c) && (c <=? 102)))
          (padStart0 2 (toString16 (b2n b))) = true.
Proof. destruct b; reflexivity. Qed.

Lemma hex_pair_lower (b : byte) :
  Forall (fun c => 48 <= c <= 57 \/ 97 <= c <= 102) (padStart0 2 (toString16 (b2n b))).
Proof.
  apply Forall_forall. intros c Hc.
  pose proof (proj1 (forallb_forall _ _) (hex_pair_lower_bool b) c Hc) as H.
  cbv beta in H. apply orb_prop in H.
  destruct H as [H|H]; apply andb_prop in H; destruct H as [H1 H2];
    apply N.leb_le in H1, H2; [left | right]; split; assumption.
Qed.

Lemma firstn_snoc (bs : bytes) (k : nat) :
  (k < length bs)%nat -> firstn (S k) bs = firstn k bs ++ [nth k bs x00].
Proof.
  revert k. induction bs as [|b bs IH]; intros k Hk; [cbn in Hk; lia|].
  destruct k as [|k]; [reflexivity|]. cbn [length] in Hk.
  cbn [firstn nth app]. f_equal. apply IH. lia.
Qed.

Section Pairs.
Variable enc : byte -> jsstring.
Hypothesis enc_length : forall b, length (enc b) = 2%nat.
Hypothesis enc_parse : forall b, to_uint8 (parseInt16 (enc b)) = b.

Lemma pairs_length (bs : bytes) : length (flat_map enc bs) = (2 * length bs)%nat.
Proof.
  induction bs as [|b bs IH]; [reflexivity|].
  cbn [flat_map length]. rewrite length_app, enc_length, IH. lia.
Qed.

Lemma pairs_skipn (bs : bytes) (k : nat) :
  skipn (2 * k) (flat_map enc bs) = flat_map enc (skipn k bs).
Proof.
  revert k. induction bs as [|b bs IH]; intros k.
  - now rewrite !skipn_nil.
  - destruct k as [|k]; [reflexivity|].
    cbn [flat_map]. change (skipn (S k) (b :: bs)) with (skipn k bs).
    rewrite skipn_app, enc_length, <- IH.
    rewrite skipn_all2 by (rewrite enc_length; lia).
    cbn [app]. f_equal. lia.
Qed.

Lemma pairs_slice (bs : bytes) (k : nat) :
  (k < length bs)%nat ->
  substring (flat_map enc bs) (2 * k) (2 * k + 2) = enc (nth k bs x00).
Proof.
  intros Hk. unfold substring, slice.
  replace (2 * k + 2 - 2 * k)%nat with 2%nat by lia.
  rewrite pairs_skipn.
  assert (E : skipn k bs = nth k bs x00 :: skipn (S k) bs).
  { clear -Hk. revert k Hk. induction bs as [|b bs IH]; intros k Hk; [cbn in Hk; lia|].
    destruct k as [|k]; [reflexivity|]. cbn [length] in Hk.
    change (skipn (S k) (b :: bs)) with (skipn k bs). rewrite (IH k) by lia. reflexivity. }
  rewrite E. cbn [flat_map].
  rewrite firstn_app, enc_length, Nat.sub_diag, firstn_O, app_nil_r.
  apply firstn_all2. rewrite enc_length. lia.
Qed.

Lemma store_next (bs : bytes) (k : nat) :
  (k < length bs)%nat ->
  array_store (firstn k bs ++ repeat x00 (length bs - k)) k (nth k bs x00)
  = firstn (S k) bs ++ repeat x00 (length bs - S k).
Proof.
  intros Hk. unfold array_store.
  assert (Hl : length (firstn k bs) = k) by (rewrite length_firstn; lia).
  rewrite length_app, repeat_length, Hl.
  destruct (Nat.ltb_spec k (k + (length bs - k))) as [_|?]; [|lia].
  rewrite firstn_app, Hl, Nat.sub_diag, firstn_O, app_nil_r.
  rewrite firstn_firstn, Nat.min_id.
  rewrite skipn_app, Hl, skipn_all2 by lia.
  replace (S k - k)%nat with 1%nat by lia.
  replace (length bs - k)%nat with (S (length bs - S k)) by lia.
  rewrite (firstn_snoc bs k Hk), <- app_assoc. reflexivity.
Qed.

Lemma hex_loop_pairs (bs : bytes) (fuel k : nat) :
  (k <= length bs)%nat -> (length bs - k <= fuel)%nat ->
  hex_loop (flat_map enc bs) (firstn k bs ++ repeat x00 (length bs - k)) (2 * k) fuel = bs.
Proof.
  revert k. induction fuel as [|fuel IH]; intros k Hk Hf; cbn [hex_loop].
  - replace (length bs - k)%nat with O by lia. cbn [repeat].
    rewrite app_nil_r. apply firstn_all2. lia.
  - rewrite pairs_length.
    destruct (Nat.ltb_spec (2 * k) (2 * length bs)) as [Hlt|Hge].
    + assert (Hk' : (k < length bs)%nat) by lia.
      rewrite pairs_slice by exact Hk'. rewrite enc_parse.
      replace (2 * k / 2)%nat with k by (rewrite Nat.mul_comm, Nat.div_mul; lia).
      rewrite store_next by exact Hk'.
      replace (2 * k + 2)%nat with (2 * S k)%nat by lia.
      apply IH; lia.
    + replace (length bs - k)%nat with O by lia. cbn [repeat].
      rewrite app_nil_r. apply firstn_all2. lia.
Qed.

Lemma hexToArrayBuffer_pairs (bs : bytes) : hexToArrayBuffer (flat_map enc bs) = bs.
Proof.
  unfold hexToArrayBuffer. rewrite pairs_length.
  replace (2 * length bs / 2)%nat with (length bs)
    by (rewrite Nat.mul_comm, Nat.div_mul; lia).
  pose proof (hex_loop_pairs bs (2 * length bs) 0 ltac:(lia) ltac:(lia)) as H.
  rewrite Nat.sub_0_r in H. exact H.
Qed.

End Pairs.

Lemma toUpperCase_flat_map (f : byte -> jsstring) (bs : bytes) :
  toUpperCase (flat_map f bs) = flat_map (fun b => toUpperCase (f b)) bs.
Proof.
  unfold toUpperCase. induction bs as [|b bs IH]; [reflexivity|].
  cbn [flat_map]. now rewrite map_app, IH.
Qed.

(** [hexToArrayBuffer] reads back what [arrayBufferToHex] wrote, also
    after the text was put in upper case; so two buffers with the same
    hexadecimal text are the same buffer. *)
Theorem hex_roundtrip (buffer : bytes) :
  hexToArrayBuffer (arrayBufferToHex buffer) = buffer
  /\ hexToArrayBuffer (toUpperCase (arrayBufferToHex buffer)) = buffer
  /\ forall other, arrayBufferToHex other = arrayBufferToHex buffer -> other = buffer.
Proof.
  assert (H1 : forall bs, hexToArrayBuffer (arrayBufferToHex bs) = bs).
  { intros bs. apply hexToArrayBuffer_pairs.
    - intros b. now rewrite hex_pair.
    - intros b. apply hex_pair_parse. }
  split; [apply H1|]. split.
  - unfold arrayBufferToHex. rewrite toUpperCase_flat_map.
    apply hexToArrayBuffer_pairs.
    + intros b. rewrite hex_pair. reflexivity.
    + intros b. apply hex_pair_parse.
  - intros other E. rewrite <- (H1 other), E. apply H1.
Qed.

Lemma hex_roundtrip_witness :
  hexToArrayBuffer (arrayBufferToHex [x00; x2a; xff]) = [x00; x2a; xff]
  /\ [x00; x2a; xff] = [x00; x2a; xff].
Proof.
  split.
  - exact (proj1 (hex_roundtrip [x00; x2a; xff])).
  - exact (proj2 (proj2 (hex_roundtrip [x00; x2a; xff])) [x00; x2a; xff] eq_refl).
Defined.

(** [arrayBufferToHex] writes two characters for every byte, each a digit
    or a lower-case letter from a to f. *)
Theorem arrayBufferToHex_shape (buffer : bytes) :
  length (arrayBufferToHex buffer) = (2 * length buffer)%nat
  /\ Forall (fun c => 48 <= c <= 57 \/ 97 <= c <= 102) (arrayBufferToHex buffer).
Proof.
  split.
  - apply pairs_length. intros b. now rewrite hex_pair.
  - unfold arrayBufferToHex. induction buffer as [|b bs IH]; [constructor|].
    cbn [flat_map]. apply Forall_app. split; [apply hex_pair_lower | exact IH].
Qed.

Lemma array_store_length (bs : bytes) (i : nat) (v : byte) :
  length (array_store bs i v) = length bs.
Proof.
  unfold array_store. destruct (Nat.ltb_spec i (length bs)) as [Hi|_]; [|reflexivity].
  rewrite length_app, length_firstn. cbn [length]. rewrite length_skipn. lia.
Qed.

Lemma hex_loop_length (hex : jsstring) (fuel : nat) (arr : bytes) (i : nat) :
  length (hex_loop hex arr i fuel) = length arr.
Proof.
  revert arr i. induction fuel as [|fuel IH]; intros arr i; cbn [hex_loop]; [reflexivity|].
  destruct (i <? length hex)%nat; [|reflexivity].
  now rewrite IH, array_store_length.
Qed.

(** On every text, [hexToArrayBuffer] returns half as many bytes as there
    are characters, rounded down: the last character of a text of odd
    length is dropped. *)
Theorem hexToArrayBuffer_length (hex : jsstring) :
  length (hexToArrayBuffer hex) = (length hex / 2)%nat.
Proof.
  unfold hexToArrayBuffer. now rewrite hex_loop_length, repeat_length.
Qed.

(** A raw key shorter than 8 bytes gets a fingerprint that is too short
    for the format: its hexadecimal digits and the three hyphens. *)
Theorem generateFingerprint_short (raw : bytes) :
  (length raw < 8)%nat ->
  length (generateFingerprint raw) = (2 * length raw + 3)%nat
  /\ fingerprint_format (generateFingerprint raw) = false.
Proof.
  intros H.
  destruct raw as [|b0 [|b1 [|b2 [|b3 [|b4 [|b5 [|b6 [|b7 rest]]]]]]]];
    cbn [length] in H; try lia;
    unfold generateFingerprint, arrayBufferToHex; cbn [flat_map];
    rewrite ?hex_pair; split; reflexivity.
Qed.

Lemma generateFingerprint_short_witness :
  length (generateFingerprint [x2a; xff]) = 7%nat
  /\ fingerprint_format (generateFingerprint [x2a; xff]) = false.
Proof.
  apply (generateFingerprint_short [x2a; xff]). cbn [length]. lia.
Defined.

End HexFacts.

Module AesGcmMore.
Import JS WebCrypto Constants Utils AesGcm Index Notions.
Import BytesFacts Base64Facts RunFacts TextFacts AesGcmFacts MessageFacts UtilsMore.

(** [encryptMessage] always returns.  Its text decodes to the nonce, the
    next 12 bytes of the random source, followed by the platform's
    ciphertext and tag; the text has four characters for every three of
    these bytes; the next call draws its nonce from later positions of the
    random source. *)
Theorem encryptMessage_layout (P : Platform) (L : Laws P) (k : bytes) (m : jsstring)
        (aad : option bytes) (w : World P) :
  exists e w1,
    encryptMessage P k m aad w = (Return e, w1)
    /\ (forall w2, base64ToArrayBuffer P (ciphertext e) w2 =
          (Return (next_random w 12
                   ++ gcm_encrypt P k (next_random w 12) (aad_bytes aad) 128
                                  (TextEncoder_encode m)), w2))
    /\ length (ciphertext e) = (4 * ((length (TextEncoder_encode m) + 30) / 3))%nat
    /\ drawn w1 = (drawn w + 12)%nat.
Proof.
  rewrite encryptMessage_run. do 2 eexists. split; [reflexivity|].
  cbn [ciphertext]. split; [|split].
  - intros w2. apply base64ToArrayBuffer_run.
  - rewrite b64_encode_length. unfold binary_string.
    rewrite length_map, length_app, next_random_length, (gcm_length P L).
    change (N.to_nat (128 / 8)) with 16%nat. f_equal. f_equal. lia.
  - reflexivity.
Qed.

Lemma encryptMessage_layout_witness :
  exists e w1,
    encryptMessage Toy.platform [x01; x02] (lit "Hello") None (Toy.world 1000 1)
      = (Return e, w1)
    /\ (forall w2, base64ToArrayBuffer Toy.platform (ciphertext e) w2 =
          (Return (next_random (Toy.world 1000 1) 12
                   ++ gcm_encrypt Toy.platform [x01; x02]
                        (next_random (Toy.world 1000 1) 12) (aad_bytes None) 128
                        (TextEncoder_encode (lit "Hello"))), w2))
    /\ length (ciphertext e)
       = (4 * ((length (TextEncoder_encode (lit "Hello")) + 30) / 3))%nat
    /\ drawn w1 = (drawn (Toy.world 1000 1) + 12)%nat.
Proof.
  exact (encryptMessage_layout Toy.platform ToyFacts.laws [x01; x02] (lit "Hello") None
           (Toy.world 1000 1)).
Defined.

(** [decryptBinaryData] gives back the data [encryptBinaryData] was given;
    the encrypted form is 28 bytes longer, the nonce and the tag. *)
Theorem binary_roundtrip (P : Platform) (L : Laws P) (k data : bytes) (w : World P) :
  exists c w1,
    encryptBinaryData P k data w = (Return c, w1)
    /\ length c = (length data + 28)%nat
    /\ forall w2, fst (decryptBinaryData P k c w2) = Return data.
Proof.
  unfold encryptBinaryData. js_run. do 2 eexists. split; [reflexivity|].
  unfold concatUint8Arrays. cbn [concat]. rewrite app_nil_r.
  fold (next_random w 12). split.
  - rewrite length_app, next_random_length, (gcm_length P L).
    change (N.to_nat (128 / 8)) with 16%nat. lia.
  - intros w2. unfold decryptBinaryData. js_run.
    destruct (split_iv (next_random w 12)
                (gcm_encrypt P k (next_random w 12) [] 128 data)
                (next_random_length P w 12)) as [-> ->].
    now rewrite (gcm_correct P L).
Qed.

Lemma binary_roundtrip_witness :
  exists c w1,
    encryptBinaryData Toy.platform [x01; x02] [x0a; x0b; x0c] (Toy.world 1000 1)
      = (Return c, w1)
    /\ length c = (length [x0a; x0b; x0c] + 28)%nat
    /\ forall w2, fst (decryptBinaryData Toy.platform [x01; x02] c w2)
                  = Return [x0a; x0b; x0c].
Proof.
  exact (binary_roundtrip Toy.platform ToyFacts.laws [x01; x02] [x0a; x0b; x0c]
           (Toy.world 1000 1)).
Defined.



(** [decryptMessage] does not check the timestamp of the message it is
    given: with another timestamp the same text decrypts in the same way,
    and the result carries the other timestamp. *)
Theorem decryptMessage_timestamp_unchecked (P : Platform) (k : bytes) (c : jsstring)
        (t t' : N) (aad : option bytes) (w : World P) :
  fst (decryptMessage P k {| ciphertext := c; timestamp := t' |} aad w) =
  match fst (decryptMessage P k {| ciphertext := c; timestamp := t |} aad w) with
  | Return d => Return {| plaintext := plaintext d; dm_timestamp := t' |}
  | Throw e => Throw e
  end.
Proof.
  unfold decryptMessage. cbn [ciphertext timestamp]. unfold bind at 1 3.
  destruct (base64ToArrayBuffer P c w) as [[combined|e] w1]; [|reflexivity].
  js_run.
  destruct (gcm_decrypt P k (firstn 12 combined) _ 128 (skipn 12 combined));
    reflexivity.
Qed.

(** [createAAD] joins the two identifiers and the time with colons and
    does not escape a colon inside an identifier; [decryptSessionMessage]
    reads sender and recipient only through that joined text and never
    reads the session identifier of the payload.  So a payload whose
    colon has moved from the sender to the recipient, under any session
    identifier, is treated as the original one. *)
Theorem session_ids_not_delimited (P : Platform) (session : SecureSession)
        (sid sid' a b c : jsstring) (e : EncryptedMessage) (w : World P) :
  createAAD (a ++ colon ++ b) c (timestamp e) = createAAD a (b ++ colon ++ c) (timestamp e)
  /\ decryptSessionMessage P session
       {| mp_sessionId := sid; senderId := a ++ colon ++ b; recipientId := c;
          encrypted := e |} w
     = decryptSessionMessage P session
         {| mp_sessionId := sid'; senderId := a; recipientId := b ++ colon ++ c;
            encrypted := e |} w.
Proof.
  assert (H : createAAD (a ++ colon ++ b) c (timestamp e)
              = createAAD a (b ++ colon ++ c) (timestamp e)).
  { unfold createAAD. now rewrite <- !app_assoc. }
  split; [exact H|].
  unfold decryptSessionMessage. cbn [senderId recipientId encrypted]. now rewrite H.
Qed.

End AesGcmMore.

Module EcdhMore.
Import JS WebCrypto Constants Utils Keys Ecdh Notions.
Import BytesFacts RunFacts KdfFacts EcdhFacts.

Lemma hmac_key_block_zeros (P : Platform) (s : bytes) (n : nat) :
  (length s + n <= 64)%nat -> hmac_key_block P (s ++ repeat x00 n) = hmac_key_block P s.
Proof.
  induction n as [|n IH]; intros H.
  - cbn [repeat]. now rewrite app_nil_r.
  - replace (S n) with (n + 1)%nat by lia.
    rewrite repeat_app, app_assoc. cbn [repeat].
    rewrite hmac_key_block_zero by (rewrite length_app, repeat_length; lia).
    apply IH. lia.
Qed.

Lemma hkdf_salt_zeros (P : Platform) (ikm s info : bytes) (n len : nat) :
  (length s + n <= 64)%nat ->
  hkdf P ikm (s ++ repeat x00 n) info len = hkdf P ikm s info len.
Proof.
  intros H. unfold hkdf, hkdf_extract, hmac. now rewrite hmac_key_block_zeros.
Qed.



(** Two parties who hold each other's public key get the same session key
    from [performKeyExchange], 32 bytes long, when their salt arrays lie on
    equal buffers (or both pass none): each makes one ECDH agreement and one
    HKDF derivation under the label [chit-chat-e2ee-v1], with the whole
    buffer of the salt array as salt. *)
Theorem performKeyExchange_agree (P : Platform) (L : Laws P) (a b : KeyPair P)
        (salta saltb : option Uint8Array) (wa wb : World P) :
  publicKey a = public_of P (privateKey a) ->
  publicKey b = public_of P (privateKey b) ->
  option_map buffer salta = option_map buffer saltb ->
  exists key secret,
    fst (performKeyExchange P a (publicKey b) salta wa) = Return key
    /\ fst (performKeyExchange P b (publicKey a) saltb wb) = Return key
    /\ length key = 32%nat
    /\ calls (snd (performKeyExchange P a (publicKey b) salta wa)) =
       calls wa ++ [CallDeriveBits (privateKey a) (publicKey b);
                    CallHKDF secret
                             (match salta with
                              | Some s => buffer s
                              | None => repeat x00 32
                              end)
                             (TextEncoder_encode (lit "chit-chat-e2ee-v1"))].
Proof.
  intros Ha Hb Hs. unfold performKeyExchange, deriveSessionKey, deriveSharedSecret.
  js_run. cbn [buffer fresh].
  assert (E : ecdh_bits P (privateKey b) (publicKey a)
              = ecdh_bits P (privateKey a) (publicKey b)).
  { rewrite Ha, Hb. apply (ecdh_agree P L). }
  rewrite E.
  assert (Es : match saltb with Some s => buffer s | None => repeat x00 32 end
               = match salta with Some s => buffer s | None => repeat x00 32 end).
  { destruct salta, saltb; cbn [option_map] in Hs; try discriminate;
      [injection Hs as ->|]; reflexivity. }
  rewrite Es. do 2 eexists. split; [reflexivity|]. split; [reflexivity|].
  split; [apply (hkdf_length P L)|].
  rewrite <- app_assoc. reflexivity.
Qed.

Lemma performKeyExchange_agree_witness :
  exists key secret,
    fst (performKeyExchange Toy.platform Toy.alice (publicKey Toy.bob)
           (Some (fresh [x01; x02])) (Toy.world 0 0)) = Return key
    /\ fst (performKeyExchange Toy.platform Toy.bob (publicKey Toy.alice)
              (Some (subarray (fresh [x01; x02]) 1 2)) (Toy.world 5 1)) = Return key
    /\ length key = 32%nat
    /\ calls (snd (performKeyExchange Toy.platform Toy.alice (publicKey Toy.bob)
                     (Some (fresh [x01; x02])) (Toy.world 0 0))) =
       calls (Toy.world 0 0)
       ++ [CallDeriveBits (privateKey Toy.alice) (publicKey Toy.bob);
           CallHKDF secret [x01; x02] (TextEncoder_encode (lit "chit-chat-e2ee-v1"))].
Proof.
  apply (performKeyExchange_agree Toy.platform ToyFacts.laws Toy.alice Toy.bob
           (Some (fresh [x01; x02])) (Some (subarray (fresh [x01; x02]) 1 2))
           (Toy.world 0 0) (Toy.world 5 1)); reflexivity.
Defined.

End EcdhMore.

Module KeysMore.
Import JS WebCrypto Constants Utils Keys Notions.
Import BytesFacts Base64Facts RunFacts TextFacts KdfFacts KeysFacts BackupFacts UtilsMore.

#[local] Opaque pbkdf2 hkdf.

(** [base64ToArrayBuffer] returns or throws [InvalidCharacterError], and
    leaves the world as it was. *)
Lemma base64ToArrayBuffer_cases (P : Platform) (s : jsstring) (w : World P) :
  (exists bs, base64ToArrayBuffer P s w = (Return bs, w))
  \/ base64ToArrayBuffer P s w = (Throw InvalidCharacterError, w).
Proof.
  unfold base64ToArrayBuffer. destruct (atob s) as [bin|]; js_run.
  - left. eexists. reflexivity.
  - right. reflexivity.
Qed.

Lemma exportKeyPair_run (P : Platform) (kp : KeyPair P) (w : World P) :
  exportKeyPair P kp w =
    (Return {| ex_publicKey := b64_encode (binary_string (export_raw P (publicKey kp)));
               ex_privateKey := json_stringify P (export_jwk P (privateKey kp));
               ex_fingerprint := fingerprint kp |}, w).
Proof.
  unfold exportKeyPair. js_run. rewrite arrayBufferToBase64_run. reflexivity.
Qed.

Lemma importKeyPair_exported (P : Platform) (L : Laws P) (kp : KeyPair P) (w : World P) :
  importKeyPair P
    {| ex_publicKey := b64_encode (binary_string (export_raw P (publicKey kp)));
       ex_privateKey := json_stringify P (export_jwk P (privateKey kp));
       ex_fingerprint := fingerprint kp |} w = (Return (restored kp), w).
Proof.
  unfold importKeyPair. cbn [ex_publicKey ex_privateKey ex_fingerprint].
  erewrite bind_return by apply base64ToArrayBuffer_run.
  js_run. rewrite (json_roundtrip P L). cbv iota beta.
  rewrite (raw_roundtrip P L). cbv iota beta.
  rewrite (jwk_roundtrip P L). reflexivity.
Qed.

Lemma importPublicKey_exported (P : Platform) (L : Laws P) (pk : PublicKey P) (w : World P) :
  importPublicKey P (b64_encode (binary_string (export_raw P pk))) w = (Return pk, w).
Proof.
  unfold importPublicKey.
  erewrite bind_return by apply base64ToArrayBuffer_run.
  js_run. rewrite (raw_roundtrip P L). reflexivity.
Qed.

(** An exported key pair imports to the same keys and fingerprint, with
    the raw public key exported anew; the exported public key alone imports
    to the public key.  Neither step draws random bytes, reads the clock or
    logs a call. *)
Theorem export_import_roundtrip (P : Platform) (L : Laws P) (kp : KeyPair P) (w : World P) :
  exists ex,
    exportKeyPair P kp w = (Return ex, w)
    /\ (forall w2, importKeyPair P ex w2 = (Return (restored kp), w2))
    /\ (forall w2, importPublicKey P (ex_publicKey ex) w2 = (Return (publicKey kp), w2)).
Proof.
  rewrite exportKeyPair_run. eexists. split; [reflexivity|]. split; intros w2.
  - apply (importKeyPair_exported P L).
  - apply (importPublicKey_exported P L).
Qed.

Lemma export_import_roundtrip_witness :
  exists ex,
    exportKeyPair Toy.platform Toy.alice (Toy.world 0 0) = (Return ex, Toy.world 0 0)
    /\ (forall w2, importKeyPair Toy.platform ex w2 = (Return (restored Toy.alice), w2))
    /\ (forall w2, importPublicKey Toy.platform (ex_publicKey ex) w2
                   = (Return (publicKey Toy.alice), w2)).
Proof.
  exact (export_import_roundtrip Toy.platform ToyFacts.laws Toy.alice (Toy.world 0 0)).
Defined.

(** A generated identity takes its private key from the next 32 random
    bytes, has the public key of that private key and the fingerprint of
    its raw form, and comes back unchanged from an export followed by an
    import. *)
Theorem generated_identity_roundtrip (P : Platform) (L : Laws P) (w : World P) :
  exists kp w1,
    generateIdentityKeyPair P w = (Return kp, w1)
    /\ privateKey kp = keygen P (next_random w 32)
    /\ publicKey kp = public_of P (privateKey kp)
    /\ fingerprint kp = generateFingerprint (export_raw P (publicKey kp))
    /\ drawn w1 = (drawn w + 32)%nat
    /\ forall w2, bind (exportKeyPair P kp) (importKeyPair P) w2 = (Return kp, w2).
Proof.
  do 2 eexists. split; [unfold generateIdentityKeyPair; js_run; reflexivity|].
  cbn [privateKey publicKey fingerprint drawn].
  repeat (split; [reflexivity|]).
  intros w2.
  erewrite bind_return by apply exportKeyPair_run.
  cbn [publicKey privateKey fingerprint].
  match goal with
  | |- importKeyPair P ?ex w2 = (Return ?kp, w2) =>
      exact (importKeyPair_exported P L kp w2)
  end.
Qed.

Lemma generated_identity_roundtrip_witness :
  exists kp w1,
    generateIdentityKeyPair Toy.platform (Toy.world 0 0) = (Return kp, w1)
    /\ privateKey kp = keygen Toy.platform (next_random (Toy.world 0 0) 32)
    /\ publicKey kp = public_of Toy.platform (privateKey kp)
    /\ fingerprint kp = generateFingerprint (export_raw Toy.platform (publicKey kp))
    /\ drawn w1 = (drawn (Toy.world 0 0) + 32)%nat
    /\ forall w2, bind (exportKeyPair Toy.platform kp) (importKeyPair Toy.platform) w2
                  = (Return kp, w2).
Proof.
  exact (generated_identity_roundtrip Toy.platform ToyFacts.laws (Toy.world 0 0)).
Defined.

(** Only the private key of a backup is protected by the password.  With
    the public key and the fingerprint of the record replaced, the restore
    under the right password succeeds and returns the private key together
    with the replaced public key and fingerprint. *)
Theorem backup_public_key_unchecked (P : Platform) (L : Laws P) (kp : KeyPair P)
        (pw f : jsstring) (pk' : PublicKey P) (w : World P) :
  exists b w1,
    createKeyBackup P kp pw w = (Return b, w1)
    /\ forall w2,
         fst (restoreKeyFromBackup P
                {| encryptedPrivateKey := encryptedPrivateKey b; salt := salt b;
                   bk_iv := bk_iv b;
                   bk_publicKey := b64_encode (binary_string (export_raw P pk'));
                   bk_fingerprint := f |} pw w2)
         = Return {| publicKey := pk'; privateKey := privateKey kp;
                     publicKeyRaw := export_raw P pk'; fingerprint := f |}.
Proof.
  rewrite createKeyBackup_run. do 2 eexists. split; [reflexivity|]. intros w2.
  cbn [encryptedPrivateKey salt bk_iv].
  rewrite restoreKeyFromBackup_run. unfold backup_ciphertext.
  rewrite (gcm_correct P L).
  destruct (json_text P L (export_jwk P (privateKey kp))) as [Hwf Hbom].
  unfold private_json. rewrite decode_encode by assumption.
  now rewrite (json_roundtrip P L), (jwk_roundtrip P L), (raw_roundtrip P L).
Qed.

Lemma backup_public_key_unchecked_witness :
  exists b w1,
    createKeyBackup Toy.platform Toy.alice (lit "pw") (Toy.world 0 0) = (Return b, w1)
    /\ forall w2,
         fst (restoreKeyFromBackup Toy.platform
                {| encryptedPrivateKey := encryptedPrivateKey b; salt := salt b;
                   bk_iv := bk_iv b;
                   bk_publicKey :=
                     b64_encode (binary_string (export_raw Toy.platform (publicKey Toy.bob)));
                   bk_fingerprint := lit "anything" |} (lit "pw") w2)
         = Return {| publicKey := publicKey Toy.bob; privateKey := privateKey Toy.alice;
                     publicKeyRaw := export_raw Toy.platform (publicKey Toy.bob);
                     fingerprint := lit "anything" |}.
Proof.
  exact (backup_public_key_unchecked Toy.platform ToyFacts.laws Toy.alice (lit "pw")
           (lit "anything") (publicKey Toy.bob) (Toy.world 0 0)).
Defined.



End KeysMore.

Module SessionMore.
Import JS WebCrypto Constants Utils AesGcm Keys Ecdh Index Notions.
Import BytesFacts Base64Facts RunFacts TextFacts AesGcmFacts MessageFacts EcdhFacts
       KeysFacts SessionFacts UtilsMore KeysMore.

#[local] Opaque pbkdf2 hkdf.
Local Open Scope js_scope.

Lemma app_same_length {A : Type} (a b x y : list A) :
  length a = length b -> a ++ x = b ++ y -> a = b.
Proof.
  revert b. induction a as [|c a IH]; intros [|d b] Hl He; try discriminate; [reflexivity|].
  cbn [length] in Hl. cbn [app] in He. injection He as -> He.
  f_equal. apply IH; [lia | exact He].
Qed.

Section WithPlatform.
Variable P : Platform.
Hypothesis L : Laws P.

(** What [establishSecureSession] returns when it is given the base64 form
    of an exported public key. *)
Lemma establishSecureSession_run (kp : KeyPair P) (pk : PublicKey P) (f : jsstring)
      (w : World P) :
  let secret := ecdh_bits P (privateKey kp) pk in
  let t1 := clock w (ticks w) in
  let t2 := clock w (S (ticks w)) in
  establishSecureSession P kp (b64_encode (binary_string (export_raw P pk))) f w =
    (Return {| sessionId :=
                 fingerprint kp ++ hyphen ++ f ++ hyphen ++ number_toString t1;
               ss_sendKey :=
                 if string_lt (fingerprint kp) f then key1 P secret else key2 P secret;
               ss_receiveKey :=
                 if string_lt (fingerprint kp) f then key2 P secret else key1 P secret;
               theirFingerprint := f;
               createdAt := t2 |},
     advance w 0 2
       [CallDeriveBits (privateKey kp) pk;
        CallHKDF secret zero_salt info1;
        CallHKDF secret zero_salt info2;
        CallDateNow t1; CallDateNow t2]).
Proof.
  intros secret t1 t2. unfold establishSecureSession, importPublicKey.
  erewrite bind_return.
  2:{ erewrite bind_return by apply base64ToArrayBuffer_run.
      js_run. rewrite (raw_roundtrip P L). reflexivity. }
  erewrite bind_return by apply deriveBidirectionalKeys_run.
  js_run. cbn [sendKey receiveKey advance ticks clock calls].
  rewrite !Nat.add_0_r.
  apply run_eq; [reflexivity | world].
Qed.

End WithPlatform.

(** Two parties who establish a session from each other's exported public
    key and fingerprint hold matching keys when their fingerprints differ:
    what one sends with, the other receives with.  Each names the session
    after its own fingerprint first and the first of its two clock
    readings, and dates it with the second; with fingerprints of one
    length the two names differ. *)
Theorem establishSecureSession_agree (P : Platform) (L : Laws P) (a b : KeyPair P)
        (wa wb : World P) :
  publicKey a = public_of P (privateKey a) ->
  publicKey b = public_of P (privateKey b) ->
  fingerprint a <> fingerprint b ->
  exists sa sb wa' wb',
    establishSecureSession P a (b64_encode (binary_string (export_raw P (publicKey b))))
                           (fingerprint b) wa = (Return sa, wa')
    /\ establishSecureSession P b (b64_encode (binary_string (export_raw P (publicKey a))))
                              (fingerprint a) wb = (Return sb, wb')
    /\ ss_sendKey sa = ss_receiveKey sb
    /\ ss_receiveKey sa = ss_sendKey sb
    /\ sessionId sa = fingerprint a ++ hyphen ++ fingerprint b ++ hyphen
                      ++ number_toString (clock wa (ticks wa))
    /\ createdAt sa = clock wa (S (ticks wa))
    /\ (length (fingerprint a) = length (fingerprint b) -> sessionId sa <> sessionId sb).
Proof.
  intros Ha Hb Hne. rewrite !(establishSecureSession_run P L). do 4 eexists.
  split; [reflexivity|]. split; [reflexivity|].
  cbn [ss_sendKey ss_receiveKey sessionId createdAt].
  assert (E : ecdh_bits P (privateKey b) (publicKey a)
              = ecdh_bits P (privateKey a) (publicKey b)).
  { rewrite Ha, Hb. apply (ecdh_agree P L). }
  rewrite E, (string_lt_total _ _ Hne).
  split; [destruct (string_lt (fingerprint b) (fingerprint a)); reflexivity|].
  split; [destruct (string_lt (fingerprint b) (fingerprint a)); reflexivity|].
  split; [reflexivity|]. split; [reflexivity|].
  intros Hlen Hid. apply Hne. exact (app_same_length _ _ _ _ Hlen Hid).
Qed.

Lemma establishSecureSession_agree_witness :
  exists sa sb wa' wb',
    establishSecureSession Toy.platform Toy.alice
      (b64_encode (binary_string (export_raw Toy.platform (publicKey Toy.bob))))
      (fingerprint Toy.bob) (Toy.world 1000 1) = (Return sa, wa')
    /\ establishSecureSession Toy.platform Toy.bob
         (b64_encode (binary_string (export_raw Toy.platform (publicKey Toy.alice))))
         (fingerprint Toy.alice) (Toy.world 2000 1) = (Return sb, wb')
    /\ ss_sendKey sa = ss_receiveKey sb
    /\ ss_receiveKey sa = ss_sendKey sb
    /\ sessionId sa = fingerprint Toy.alice ++ hyphen ++ fingerprint Toy.bob ++ hyphen
                      ++ number_toString (clock (Toy.world 1000 1) (ticks (Toy.world 1000 1)))
    /\ createdAt sa = clock (Toy.world 1000 1) (S (ticks (Toy.world 1000 1)))
    /\ (length (fingerprint Toy.alice) = length (fingerprint Toy.bob) ->
        sessionId sa <> sessionId sb).
Proof.
  apply (establishSecureSession_agree Toy.platform ToyFacts.laws Toy.alice Toy.bob
           (Toy.world 1000 1) (Toy.world 2000 1)).
  - reflexivity.
  - reflexivity.
  - vm_compute. discriminate.
Defined.

(** A key text that is not base64, or whose bytes the platform does not
    accept as a public key, makes [establishSecureSession] throw before
    any key agreement or clock reading: [InvalidCharacterError] in the
    first case, [DataError] in the second, and the world is left as it
    was. *)
Theorem establishSecureSession_rejects_key (P : Platform) (kp : KeyPair P)
        (theirPublicKeyBase64 f : jsstring) (w : World P) :
  match atob theirPublicKeyBase64 with
  | None => True
  | Some binary => import_raw P (binary_bytes binary) = None
  end ->
  establishSecureSession P kp theirPublicKeyBase64 f w
  = (Throw (match atob theirPublicKeyBase64 with
            | None => InvalidCharacterError
            | Some _ => DataError
            end), w).
Proof.
  intros H. unfold establishSecureSession, importPublicKey, base64ToArrayBuffer.
  destruct (atob theirPublicKeyBase64) as [binary|]; [|reflexivity].
  js_run. rewrite H. reflexivity.
Qed.

Lemma establishSecureSession_rejects_key_witness :
  establishSecureSession Toy.platform Toy.alice (lit "QUJD") (lit "f") (Toy.world 0 0)
  = (Throw DataError, Toy.world 0 0).
Proof.
  exact (establishSecureSession_rejects_key Toy.platform Toy.alice (lit "QUJD") (lit "f")
           (Toy.world 0 0) eq_refl).
Defined.

(** The exchange of the self test, on any platform that keeps the laws:
    with two consistent key pairs of different fingerprints, a well-formed
    message that does not begin with U+FEFF, and a clock that gives the same
    reading twice while Alice encrypts, Bob reads what Alice wrote. *)
Theorem exchange_delivers (P : Platform) (L : Laws P) (alice bob : KeyPair P)
        (message : jsstring) (w : World P) :
  publicKey alice = public_of P (privateKey alice) ->
  publicKey bob = public_of P (privateKey bob) ->
  fingerprint alice <> fingerprint bob ->
  well_formed message = true -> hd 0 message <> 0xFEFF ->
  clock w (ticks w + 5) = clock w (ticks w + 4) ->
  fst (exchange P alice bob message w)
  = Return {| plaintext := message; dm_timestamp := clock w (ticks w + 4) |}.
Proof.
  intros Ha Hb Hne Hwf Hbom Hclock. unfold exchange.
  erewrite bind_return by apply exportKeyPair_run.
  erewrite bind_return by apply exportKeyPair_run.
  cbn [ex_publicKey].
  erewrite bind_return by apply (establishSecureSession_run P L).
  erewrite bind_return by apply (establishSecureSession_run P L).
  erewrite bind_return by apply encryptSessionMessage_run.
  rewrite decryptSessionMessage_run.
  cbn [fst ss_sendKey ss_receiveKey clock ticks advance].
  match goal with
  | |- context [gcm_encrypt P ?k ?iv ?aad 128 ?pt] =>
      destruct (split_iv iv (gcm_encrypt P k iv aad 128 pt)) as [-> ->];
        [apply next_random_length|]
  end.
  replace (S (ticks w + 2 + 2)) with (ticks w + 5)%nat by lia.
  replace (ticks w + 2 + 2)%nat with (ticks w + 4)%nat by lia.
  rewrite Hclock.
  assert (E : ecdh_bits P (privateKey bob) (publicKey alice)
              = ecdh_bits P (privateKey alice) (publicKey bob)).
  { rewrite Ha, Hb. apply (ecdh_agree P L). }
  rewrite E, (string_lt_total _ _ Hne).
  assert (Hkey : forall (x : bool) (k1 k2 : bytes),
            (if x then k2 else k1) = (if negb x then k1 else k2))
    by (intros [|] ? ?; reflexivity).
  rewrite (Hkey (string_lt (fingerprint bob) (fingerprint alice))).
  rewrite (gcm_correct P L), decode_encode by assumption.
  reflexivity.
Qed.

Lemma exchange_delivers_witness :
  fst (exchange Toy.platform Toy.alice Toy.bob (lit "Hi") (Toy.world 1000 0))
  = Return {| plaintext := lit "Hi";
              dm_timestamp := clock (Toy.world 1000 0) (ticks (Toy.world 1000 0) + 4) |}.
Proof.
  apply (exchange_delivers Toy.platform ToyFacts.laws Toy.alice Toy.bob (lit "Hi")
           (Toy.world 1000 0)).
  - reflexivity.
  - reflexivity.
  - vm_compute. discriminate.
  - reflexivity.
  - cbn. discriminate.
  - reflexivity.
Defined.

Lemma session_roundtrip_witness :
  exists p w1,
    encryptSessionMessage Toy.platform
      {| sessionId := lit "a"; ss_sendKey := [x01]; ss_receiveKey := [x02];
         theirFingerprint := lit "b"; createdAt := 0 |}
      (lit "alice") (lit "bob") (lit "Hi") (Toy.world 1000 0) = (Return p, w1)
    /\ fst (decryptSessionMessage Toy.platform
              {| sessionId := lit "b"; ss_sendKey := [x02]; ss_receiveKey := [x01];
                 theirFingerprint := lit "a"; createdAt := 0 |} p w1)
       = Return {| plaintext := lit "Hi";
                   dm_timestamp := clock (Toy.world 1000 0) (ticks (Toy.world 1000 0)) |}.
Proof.
  apply (session_roundtrip Toy.platform ToyFacts.laws
           {| sessionId := lit "a"; ss_sendKey := [x01]; ss_receiveKey := [x02];
              theirFingerprint := lit "b"; createdAt := 0 |}
           {| sessionId := lit "b"; ss_sendKey := [x02]; ss_receiveKey := [x01];
              theirFingerprint := lit "a"; createdAt := 0 |}
           (lit "alice") (lit "bob") (lit "Hi") (Toy.world 1000 0)).
  - reflexivity.
  - reflexivity.
  - cbn. discriminate.
  - reflexivity.
Defined.

End SessionMore.

Module SelfTestFacts.
Import JS WebCrypto Constants Utils AesGcm Keys Ecdh Index Notions.
Import BytesFacts Base64Facts RunFacts TextFacts AesGcmFacts MessageFacts EcdhFacts
       KeysFacts SessionFacts UtilsMore KeysMore SessionMore.

#[local] Opaque pbkdf2 hkdf.
Local Open Scope js_scope.


Lemma string_eqb_refl (s : jsstring) : string_eqb s s = true.
Proof.
  induction s as [|c s IH]; [reflexivity|]. cbn [string_eqb].
  now rewrite N.eqb_refl.
Qed.

Lemma starts_with_refl (s : jsstring) : starts_with s s = true.
Proof.
  induction s as [|c s IH]; [reflexivity|]. cbn [starts_with].
  now rewrite N.eqb_refl.
Qed.

Lemma substitute_plain (matched before after template : jsstring) :
  Forall (fun c => c <> 36) template ->
  substitute matched before after template = template.
Proof.
  induction 1 as [|c t Hc _ IH]; [reflexivity|]. cbn [substitute].
  destruct (N.eqb_spec c 36); [contradiction|]. now rewrite IH.
Qed.

(** Replacing a string by a text without dollar signs, in itself. *)
Lemma replace_self (s r : jsstring) :
  Forall (fun c => c <> 36) r -> replace s s r = r.
Proof.
  intros Hr. unfold replace.
  assert (E : index_of s s = Some O)
    by (destruct s; cbn [index_of]; rewrite starts_with_refl; reflexivity).
  rewrite E. cbn [firstn Nat.add app]. rewrite skipn_all, app_nil_r.
  now apply substitute_plain.
Qed.

Lemma b64_no_dollar (l : list N) : Forall (fun c => c <> 36) (b64_encode l).
Proof.
  eapply Forall_impl; [|apply b64_encode_alphabet].
  intros c [Hc | Hc] E; subst c; [apply Hc; reflexivity | discriminate].
Qed.

Lemma b64_encode_nonempty (bs : bytes) :
  (0 < length bs)%nat -> (0 <? length (b64_encode (binary_string bs)))%nat = true.
Proof.
  intros H. apply Nat.ltb_lt. rewrite b64_encode_length.
  unfold binary_string. rewrite length_map.
  assert (0 < (length bs + 2) / 3)%nat by (apply Nat.div_str_pos; lia). lia.
Qed.

Lemma testMessage_text :
  well_formed testMessage = true /\ hd 0 testMessage <> 0xFEFF
  /\ well_formed (lit "Secret session message!") = true
  /\ hd 0 (lit "Secret session message!") <> 0xFEFF.
Proof. repeat split; try reflexivity; cbn; discriminate. Qed.

Section WithPlatform.
Variable P : Platform.
Variable error_message : JsError -> jsstring.

Lemma guarded_cases {A : Type} (Q : Outcome SelfTestResult * World P -> Prop)
      (steps : list SelfTestStep) (c : Js P A) (k : A -> Js P SelfTestResult)
      (w : World P) :
  (forall e w', Q (Return (caught error_message steps e), w')) ->
  (forall a w', Q (k a w')) ->
  Q (guarded P error_message steps c k w).
Proof.
  intros Hc Hk. unfold guarded. destruct (c w) as [[a|e] w']; [apply Hk | apply Hc].
Qed.

Lemma guarded_step {A : Type} (Q : Outcome SelfTestResult * World P -> Prop)
      (steps : list SelfTestStep) (c : Js P A) (k : A -> Js P SelfTestResult)
      (w w' : World P) (a : A) :
  c w = (Return a, w') -> Q (k a w') -> Q (guarded P error_message steps c k w).
Proof. intros Hc Hk. unfold guarded. now rewrite Hc. Qed.

Lemma caught_reported (steps : list SelfTestStep) (e : JsError) (w : World P) :
  (length steps <= 7)%nat ->
  well_reported (Return (caught error_message steps e), w).
Proof.
  intros H. exists (caught error_message steps e), w. split; [reflexivity|].
  unfold caught. cbn [success Index.steps]. split.
  - rewrite forallb_app. cbn [forallb step_success].
    now rewrite andb_false_r.
  - rewrite length_app. cbn [length]. lia.
Qed.


Lemma generateIdentityKeyPair_run (w : World P) :
  generateIdentityKeyPair P w
  = (Return (identity_at P w 0), advance w 32 0 [CallGenerateKey]).
Proof.
  unfold generateIdentityKeyPair, identity_at. js_run. rewrite Nat.add_0_r.
  apply run_eq; [reflexivity | world].
Qed.

Lemma identity_at_advance (w : World P) (d t : nat) (cs : list (Call P)) :
  identity_at P (advance w d t cs) 0 = identity_at P w d.
Proof. unfold identity_at. cbn [random drawn advance]. now rewrite Nat.add_0_r. Qed.

Lemma deriveSharedSecret_run (sk : PrivateKey P) (pk : PublicKey P) (w : World P) :
  deriveSharedSecret P sk pk w
  = (Return (ecdh_bits P sk pk), advance w 0 0 [CallDeriveBits sk pk]).
Proof. unfold deriveSharedSecret. js_run. apply run_eq; [reflexivity | world]. Qed.

Lemma deriveSessionKey_run (secret : bytes) (w : World P) :
  deriveSessionKey P secret None None w
  = (Return (hkdf P secret zero_salt HKDF_INFO 32),
     advance w 0 0 [CallHKDF secret zero_salt HKDF_INFO]).
Proof.
  unfold deriveSessionKey, zero_salt. js_run. apply run_eq; [reflexivity | world].
Qed.

Lemma decryptMessage_of_encrypted (L : Laws P) (k iv aad pt : bytes) (t : N)
      (aad' : option bytes) (w : World P) :
  length iv = 12%nat -> aad_bytes aad' = aad ->
  decryptMessage P k
    {| ciphertext := b64_encode (binary_string (iv ++ gcm_encrypt P k iv aad 128 pt));
       timestamp := t |} aad' w
  = (Return {| plaintext := TextDecoder_decode pt; dm_timestamp := t |},
     advance w 0 0 [CallDecrypt k iv aad 128 (gcm_encrypt P k iv aad 128 pt)]).
Proof.
  intros Hiv Haad. rewrite decryptMessage_run.
  destruct (split_iv iv (gcm_encrypt P k iv aad 128 pt) Hiv) as [-> ->].
  rewrite Haad, (gcm_correct P L). reflexivity.
Qed.

End WithPlatform.

(** [runCryptoSelfTest] never throws, on any platform and in any world: it
    returns a report with at least one step and at most eight, and the
    overall flag of the report is the conjunction of the flags of its
    steps, also when an exception was caught. *)
Theorem runCryptoSelfTest_reports (P : Platform) (error_message : JsError -> jsstring)
        (w : World P) :
  exists r w1,
    runCryptoSelfTest P error_message w = (Return r, w1)
    /\ success r = forallb step_success (steps r)
    /\ (1 <= length (steps r) <= 8)%nat.
Proof.
  change (well_reported (runCryptoSelfTest P error_message w)).
  unfold runCryptoSelfTest.
  repeat (apply guarded_cases;
          [ intros e w'; apply caught_reported; cbn [length app]; lia
          | let a := fresh "a" in let w' := fresh "w" in intros a w' ]).
  eexists. eexists. split; [reflexivity|].
  cbn [success steps]. split; [reflexivity|].
  cbn [length app]. lia.
Qed.


(** On a platform that keeps the laws the self test passes all eight
    steps, provided the two identities it generates have different
    fingerprints and the clock gives the same reading twice while the
    session message is encrypted (the eighth and ninth readings of the
    run). *)
Theorem runCryptoSelfTest_passes (P : Platform) (L : Laws P)
        (error_message : JsError -> jsstring) (w : World P) :
  fingerprint (identity_at P w 0) <> fingerprint (identity_at P w 32) ->
  clock w (ticks w + 8) = clock w (ticks w + 7) ->
  exists r w1,
    runCryptoSelfTest P error_message w = (Return r, w1)
    /\ success r = true
    /\ map name (steps r) = step_names
    /\ forallb step_success (steps r) = true.
Proof.
  intros Hfp Hclock.
  change (all_passed (runCryptoSelfTest P error_message w)).
  unfold runCryptoSelfTest.
  eapply guarded_step; [apply generateIdentityKeyPair_run|]. cbv beta zeta.
  eapply guarded_step; [apply generateIdentityKeyPair_run|]. cbv beta zeta.
  rewrite identity_at_advance.
  set (alice := identity_at P w 0) in *.
  set (bob := identity_at P w 32) in *.
  set (w2 := advance (advance w 32 0 [CallGenerateKey]) 32 0 [CallGenerateKey]).
  eapply guarded_step; [apply exportKeyPair_run|]. cbv beta zeta.
  eapply guarded_step; [apply (importKeyPair_exported P L)|]. cbv beta zeta.
  eapply guarded_step; [apply deriveSharedSecret_run|]. cbv beta zeta.
  eapply guarded_step; [apply deriveSharedSecret_run|]. cbv beta zeta.
  eapply guarded_step; [apply deriveSessionKey_run|]. cbv beta zeta.
  set (secret := ecdh_bits P (privateKey alice) (publicKey bob)).
  set (sessionKey := hkdf P secret zero_salt HKDF_INFO 32).
  match goal with
  | |- all_passed (guarded _ _ _ _ _ ?wx) => set (w5 := wx)
  end.
  eapply guarded_step; [apply encryptMessage_run|]. cbv beta zeta.
  eapply guarded_step;
    [apply (decryptMessage_of_encrypted P L);
     [apply next_random_length | reflexivity]|].
  cbv beta zeta.
  match goal with
  | |- all_passed (guarded _ _ _ _ _ ?wx) => set (w7 := wx)
  end.
  eapply guarded_step; [apply exportKeyPair_run|]. cbv beta zeta.
  cbn [ex_publicKey].
  rewrite (replace_self _ _ (b64_no_dollar _)).
  eapply guarded_step; [apply (establishSecureSession_run P L)|]. cbv beta zeta.
  match goal with
  | |- all_passed (guarded _ _ _ _ _ ?wx) => set (w8 := wx)
  end.
  eapply guarded_step; [apply exportKeyPair_run|]. cbv beta zeta.
  cbn [ex_publicKey].
  eapply guarded_step; [apply (establishSecureSession_run P L)|]. cbv beta zeta.
  match goal with
  | |- all_passed (guarded _ _ _ _ _ ?wx) => set (w9 := wx)
  end.
  eapply guarded_step; [apply (establishSecureSession_run P L)|]. cbv beta zeta.
  match goal with
  | |- all_passed (guarded _ _ _ _ _ ?wx) => set (w10 := wx)
  end.
  assert (Hticks : ticks w10 = (ticks w + 7)%nat)
    by (subst w10 w9 w8 w7 w5 w2; cbn [ticks advance]; lia).
  assert (Hclk : clock w10 = clock w) by reflexivity.
  eapply guarded_step; [apply encryptSessionMessage_run|]. cbv beta zeta.
  cbn [ss_sendKey ss_receiveKey sessionId].
  assert (E : ecdh_bits P (privateKey bob) (publicKey alice) = secret)
    by (subst secret; apply (ecdh_agree P L)).
  rewrite E.
  rewrite (string_lt_total _ _ Hfp).
  assert (Hkey : forall (x : bool) (k1 k2 : bytes),
            (if negb x then k1 else k2) = (if x then k2 else k1))
    by (intros [|] ? ?; reflexivity).
  rewrite (Hkey (string_lt (fingerprint bob) (fingerprint alice))).
  eapply guarded_step.
  { rewrite decryptSessionMessage_run. cbn [ss_receiveKey].
    match goal with
    | |- context [firstn 12 (?iv ++ ?ct)] =>
        destruct (split_iv iv ct (next_random_length P w10 12)) as [-> ->]
    end.
    rewrite Hclk, Hticks.
    replace (S (ticks w + 7)) with (ticks w + 8)%nat by lia.
    rewrite Hclock, (gcm_correct P L). reflexivity. }
  cbv beta zeta.
  unfold all_passed, ret. eexists. eexists. split; [reflexivity|].
  cbn [success steps].
  match goal with
  | |- ?x = true /\ _ /\ _ =>
      assert (Hall : x = true); [|split; [exact Hall | split; [reflexivity | exact Hall]]]
  end.
  cbn [app forallb step_success plaintext restored fingerprint ciphertext].
  destruct testMessage_text as (Hwf1 & Hbom1 & Hwf2 & Hbom2).
  rewrite !decode_encode by assumption.
  rewrite !string_eqb_refl.
  rewrite b64_encode_nonempty
    by (rewrite length_app, next_random_length; lia).
  reflexivity.
Qed.

Lemma runCryptoSelfTest_passes_witness :
  exists r w1,
    runCryptoSelfTest Toy.platform (fun _ => lit "error") small_world
      = (Return r, w1)
    /\ success r = true
    /\ map name (steps r) = step_names
    /\ forallb step_success (steps r) = true.
Proof.
  apply (runCryptoSelfTest_passes Toy.platform ToyFacts.laws (fun _ => lit "error")
           small_world).
  - vm_compute. discriminate.
  - reflexivity.
Defined.

End SelfTestFacts.

Module AadFacts.
Import JS WebCrypto Utils AesGcm Notions.
Import BytesFacts Utf8Facts TextFacts ToyFacts.

Lemma well_formed_app (n : nat) :
  forall x y, (length x <= n)%nat -> well_formed x = true -> well_formed y = true ->
              well_formed (x ++ y) = true.
Proof.
  induction n as [|n IH]; intros x y Hlen Hx Hy.
  - destruct x; [exact Hy | cbn [length] in Hlen; lia].
  - destruct x as [|c rest]; [exact Hy|].
    cbn [app well_formed] in *. cbn [length] in Hlen.
    destruct (is_lead c).
    + destruct rest as [|d rest']; [discriminate|]. cbn [app].
      apply andb_true_iff in Hx. destruct Hx as [Ht Hr]. rewrite Ht. cbn [andb].
      apply IH; [cbn [length] in Hlen; lia | exact Hr | exact Hy].
    + apply andb_true_iff in Hx. destruct Hx as [Hc Hr]. rewrite Hc. cbn [andb].
      apply IH; [lia | exact Hr | exact Hy].
Qed.

(** [TextEncoder] gives different well-formed strings different bytes. *)
Lemma encode_injective (s s' : jsstring) :
  well_formed s = true -> well_formed s' = true ->
  TextEncoder_encode s = TextEncoder_encode s' -> s = s'.
Proof.
  intros Hs Hs' H.
  destruct (scalars_well_formed (length s) s (le_n _) Hs) as [Hok Hfrom].
  destruct (scalars_well_formed (length s') s' (le_n _) Hs') as [Hok' Hfrom'].
  unfold TextEncoder_encode in H. apply (f_equal utf8_decode) in H.
  rewrite !utf8_decode_encode in H by assumption.
  rewrite <- Hfrom, <- Hfrom', H. reflexivity.
Qed.

Lemma number_toString_injective (n n' : N) :
  number_toString n = number_toString n' -> n = n'.
Proof.
  unfold number_toString. intros H. apply (f_equal Toy.unlit) in H.
  rewrite !unlit_lit in H. apply (f_equal NilZero.uint_of_string) in H.
  rewrite !NilZero.usu in H by apply to_uint_nonnil.
  injection H as H. apply (f_equal N.of_uint) in H.
  now rewrite !DecimalN.Unsigned.of_to in H.
Qed.

Lemma number_toString_well_formed (n : N) : well_formed (number_toString n) = true.
Proof. apply low_units_well_formed, lit_low. Qed.

(** Two texts cut at their first colon. *)
Lemma split_at_colon (a a' r r' : jsstring) :
  ~ In 58 a -> ~ In 58 a' -> a ++ 58 :: r = a' ++ 58 :: r' -> a = a' /\ r = r'.
Proof.
  revert a'. induction a as [|c a IH]; intros [|c' a'] Ha Ha' H; cbn [app] in H.
  - injection H as ->. split; reflexivity.
  - injection H as <- _. exfalso. apply Ha'. left. reflexivity.
  - injection H as -> _. exfalso. apply Ha. left. reflexivity.
  - injection H as -> H.
    destruct (IH a') as [-> ->]; [| |exact H|split; reflexivity].
    + intros Hin. apply Ha. right. exact Hin.
    + intros Hin. apply Ha'. right. exact Hin.
Qed.

Lemma aad_text_well_formed (a b : jsstring) (t : N) :
  well_formed a = true -> well_formed b = true ->
  well_formed (a ++ colon ++ b ++ colon ++ number_toString t) = true.
Proof.
  intros Ha Hb.
  apply (well_formed_app (length a)); [lia | exact Ha|].
  apply (well_formed_app 1); [cbn; lia | reflexivity|].
  apply (well_formed_app (length b)); [lia | exact Hb|].
  apply (well_formed_app 1); [cbn; lia | reflexivity|].
  apply number_toString_well_formed.
Qed.

(** For well-formed identifiers without a colon the associated data
    determine the sender, the recipient and the time: two messages with
    the same associated data have all three in common. *)
Theorem createAAD_injective (a b a' b' : jsstring) (t t' : N) :
  well_formed a = true -> well_formed b = true ->
  well_formed a' = true -> well_formed b' = true ->
  ~ In 58 a -> ~ In 58 b -> ~ In 58 a' -> ~ In 58 b' ->
  createAAD a b t = createAAD a' b' t' ->
  a = a' /\ b = b' /\ t = t'.
Proof.
  intros Ha Hb Ha' Hb' Ca Cb Ca' Cb' H. unfold createAAD in H.
  apply encode_injective in H; try (apply aad_text_well_formed; assumption).
  unfold colon in H. cbn [app] in H.
  destruct (split_at_colon _ _ _ _ Ca Ca' H) as [-> H1].
  destruct (split_at_colon _ _ _ _ Cb Cb' H1) as [-> H2].
  apply number_toString_injective in H2. now subst.
Qed.

Lemma createAAD_injective_witness :
  lit "alice" = lit "alice" /\ lit "bob" = lit "bob" /\ 1700000000000 = 1700000000000.
Proof.
  apply (createAAD_injective (lit "alice") (lit "bob") (lit "alice") (lit "bob")
           1700000000000 1700000000000);
    try reflexivity; cbn; intuition discriminate.
Defined.

End AadFacts.
